(** * A shallow embedding of [gpublog-demo/backend/model.py]

    The translator of the demo is a sequence-to-sequence model with
    attention, written against TensorFlow/Keras.  This development
    embeds the Python code of [model.py] (text preprocessing, vocabulary
    construction, the loss, the attention layer and the decoder, the
    teacher-forced training step, the epoch loop, greedy decoding and
    the process entry point) and states the properties of its
    specification as theorems.

    Conventions.
    - A Python [str] is a sequence of Unicode code points: [list N].
    - Token ids are [Z]; a rank-2 integer tensor is a list of rows.
    - Floating-point tensors are real numbers ([R]) wherever only their
      shapes and the order of the computation matter.  The masked loss,
      whose value depends on infinities and NaN, is embedded a second
      time on float32 values ([Float32]), with the rounding of the
      arithmetic as a parameter.
    - A Python exception is a value of [exn]; code that may raise
      returns [exn + A].
    - The learnable layers of Keras (embedding, GRU, dense), the
      optimizer, the random generators and the Unicode database are
      section variables: theorems hold for every choice of them.
    - The Keras tokenizer, [pad_sequences] and scikit-learn's
      [train_test_split] are libraries; they are embedded as far as
      [model.py] uses them, with the arguments it passes. *)

From Stdlib Require Import ZArith NArith List Reals Lra Lia String Ascii Bool.
From Stdlib Require Import Permutation Sorted FunctionalExtensionality.
From stdpp Require Import gmap list strings.
Import ListNotations.

(* ===================================================================== *)
(** * Python strings                                                      *)
(* ===================================================================== *)

Module PyStr.

(** A [str] value: the list of its code points. *)
Abbreviation pystr := (list N).

(** An ASCII literal of Rocq read as a Python string. *)
Fixpoint of_string (s : string) : pystr :=
  match s with
  | EmptyString => []
  | String a s' => N_of_ascii a :: of_string s'
  end.

Definition SPACE : N := 32.
Definition TAB : N := 9.
Definition NEWLINE : N := 10.
Definition QUOTE : N := 34.

Definition in_range (lo hi c : N) : bool := (lo <=? c)%N && (c <=? hi)%N.

(** [str.isspace] on one code point (CPython's [_PyUnicode_IsWhitespace]). *)
Definition isspace (c : N) : bool :=
  in_range 9 13 c || in_range 28 32 c || (c =? 133)%N || (c =? 160)%N
  || (c =? 5760)%N || in_range 8192 8202 c || (c =? 8232)%N
  || (c =? 8233)%N || (c =? 8239)%N || (c =? 8287)%N || (c =? 12288)%N.

(** [w.lstrip()], [w.rstrip()] and [w.strip()] without argument. *)
Fixpoint lstrip (w : pystr) : pystr :=
  match w with
  | [] => []
  | c :: w' => if isspace c then lstrip w' else w
  end.

Definition rstrip (w : pystr) : pystr := rev (lstrip (rev w)).

Definition strip (w : pystr) : pystr := rstrip (lstrip w).

(** [w.split(sep)] with an explicit one-character separator: every
    occurrence of [sep] ends a field; empty fields are kept. *)
Fixpoint split_on (sep : N) (w : pystr) : list pystr :=
  match w with
  | [] => [[]]
  | c :: w' =>
      if (c =? sep)%N then [] :: split_on sep w'
      else match split_on sep w' with
           | [] => [[c]]
           | f :: fs => (c :: f) :: fs
           end
  end.

(** [re.sub("[cls]+", " ", w)]: every maximal non-empty run of
    characters of the class is replaced by one space.  [in_run] tells
    that the previous character belonged to the run being replaced. *)
Fixpoint sub_runs (cls : N -> bool) (in_run : bool) (w : pystr) : pystr :=
  match w with
  | [] => []
  | c :: w' =>
      if cls c then
        if in_run then sub_runs cls true w'
        else SPACE :: sub_runs cls true w'
      else c :: sub_runs cls false w'
  end.

(** [re.sub("([cls])", " \1 ", w)]: every character of the class is
    put between two spaces. *)
Definition sub_pad (cls : N -> bool) (w : pystr) : pystr :=
  flat_map (fun c => if cls c then [SPACE; c; SPACE] else [c]) w.

(** Lower-casing of Basic Latin. *)
Definition ascii_lower (c : N) : N :=
  if in_range 65 90 c then (c + 32)%N else c.

End PyStr.

Import PyStr.

(* ===================================================================== *)
(** * Text preprocessing                                                  *)
(* ===================================================================== *)

(** The part of the Unicode database the program consults: [str.lower],
    [unicodedata.normalize('NFD', _)] and the test
    [unicodedata.category(c) == 'Mn']. *)
Record UnicodeData := {
  str_lower : pystr -> pystr;
  normalize_NFD : pystr -> pystr;
  category_Mn : N -> bool
}.

(** The database restricted to Basic Latin: upper-case ASCII letters are
    lowered, nothing decomposes, nothing is a combining mark.  It agrees
    with Python on every string of ASCII characters. *)
Definition basic_latin : UnicodeData := {|
  str_lower := map ascii_lower;
  normalize_NFD := fun w => w;
  category_Mn := fun _ => false
|}.

Definition INVERTED_QUESTION : N := 191.

(** The class [[?.!,¿]]. *)
Definition is_punct (c : N) : bool :=
  (c =? 63)%N || (c =? 46)%N || (c =? 33)%N || (c =? 44)%N
  || (c =? INVERTED_QUESTION)%N.

(** The class [[" "]]: a double quote or a space. *)
Definition is_quote_or_space (c : N) : bool :=
  (c =? QUOTE)%N || (c =? SPACE)%N.

(** The classes [[a-zA-Z]] and [[a-zA-Z?.!,¿]]. *)
Definition is_letter (c : N) : bool :=
  in_range 97 122 c || in_range 65 90 c.

Definition is_kept (c : N) : bool := is_letter c || is_punct c.

Definition START : pystr := of_string "<start>".
Definition END : pystr := of_string "<end>".

(** [preprocess_sentence], line 39: the markers around a text. *)
Definition wrap (w : pystr) : pystr := START ++ [SPACE] ++ w ++ [SPACE] ++ END.

Section Preprocess.

Variable U : UnicodeData.

(** [unicode_to_ascii], lines 20-21. *)
Definition unicode_to_ascii (s : pystr) : pystr :=
  filter (fun c => negb (category_Mn U c)) (normalize_NFD U s).

(** Lines 24-35 of [preprocess_sentence]: the text before the markers
    are added. *)
Definition normalize_sentence (w : pystr) : pystr :=
  let w := unicode_to_ascii (strip (str_lower U w)) in
  let w := sub_pad is_punct w in
  let w := sub_runs is_quote_or_space false w in
  let w := sub_runs (fun c => negb (is_kept c)) false w in
  strip w.

(** [preprocess_sentence], lines 23-40. *)
Definition preprocess_sentence (w : pystr) : pystr :=
  let w := normalize_sentence w in
  wrap w.

End Preprocess.

(** What a second application makes of the text between the markers:
    the words [start] and [end] around its lower-casing. *)
Definition rewrapped (body : pystr) : pystr :=
  of_string "start" ++ [SPACE]
  ++ (if decide (body = []) then [] else map ascii_lower body ++ [SPACE])
  ++ of_string "end".

(** ** The shape of a normalized sentence *)

(** What the previous character was: a space, a punctuation mark, or a
    letter (also used for the start of the text). *)
Inductive cclass := Sp | Pu | Le.

Definition class_of (c : N) : option cclass :=
  if (c =? SPACE)%N then Some Sp
  else if is_punct c then Some Pu
  else if is_letter c then Some Le
  else None.

Definition is_Sp (q : cclass) : bool := match q with Sp => true | _ => false end.
Definition is_Pu (q : cclass) : bool := match q with Pu => true | _ => false end.

(** [shape end_ok prev w]: [w], read after a character of class [prev],
    is made of letters, punctuation marks and single spaces; every
    punctuation mark stands right after a space and no letter or
    punctuation mark stands right after one; the class of the last
    character satisfies [end_ok]. *)
Fixpoint shape (end_ok : cclass -> bool) (prev : cclass) (w : pystr) : bool :=
  match w with
  | [] => end_ok prev
  | c :: w' =>
      match class_of c with
      | Some Sp => negb (is_Sp prev) && shape end_ok Sp w'
      | Some Pu => is_Sp prev && shape end_ok Pu w'
      | Some Le => negb (is_Pu prev) && shape end_ok Le w'
      | None => false
      end
  end.

(** A non-empty sequence of words and punctuation marks separated by
    single spaces. *)
Definition tokens_shape (w : pystr) : bool := shape (fun q => negb (is_Sp q)) Sp w.

(** The same for an arbitrary text: every punctuation mark stands
    between two spaces. *)
Inductive fclass := SpS | PuS | OtS.

Definition is_SpS (q : fclass) : bool := match q with SpS => true | _ => false end.
Definition is_PuS (q : fclass) : bool := match q with PuS => true | _ => false end.

Fixpoint flanked (prev : fclass) (w : pystr) : bool :=
  match w with
  | [] => negb (is_PuS prev)
  | c :: w' =>
      if is_punct c then is_SpS prev && flanked PuS w'
      else if (c =? SPACE)%N then flanked SpS w'
      else negb (is_PuS prev) && flanked OtS w'
  end.

(** The characters of Basic Latin and the inverted question mark, and
    what a Unicode database does on texts made of them: lower-casing is
    that of ASCII, nothing decomposes, nothing is a combining mark. *)
Definition plain (c : N) : bool := (c <? 128)%N || (c =? INVERTED_QUESTION)%N.

Record respects_basic_latin (U : UnicodeData) : Prop := {
  lower_plain : forall w, forallb plain w = true -> str_lower U w = map ascii_lower w;
  nfd_plain : forall w, forallb plain w = true -> normalize_NFD U w = w;
  mn_plain : forall c, plain c = true -> category_Mn U c = false
}.

(* ===================================================================== *)
(** * Exceptions                                                          *)
(* ===================================================================== *)

(** The Python exceptions the modelled code can raise. *)
Inductive exn :=
| KeyError_str (key : pystr)
| KeyError_int (key : Z)
| ValueError
| ZeroDivisionError
| ConnectionError
| InvalidArgumentError.

(** Code that may raise. *)
Definition result (A : Type) : Type := exn + A.

Definition raise {A} (e : exn) : result A := inl e.
Definition ret {A} (a : A) : result A := inr a.

Definition bind {A B} (m : result A) (k : A -> result B) : result B :=
  match m with
  | inl e => inl e
  | inr a => k a
  end.

Declare Scope py_scope.
Delimit Scope py_scope with py.
Notation "x <- m ;; k" := (bind m (fun x => k))
  (at level 100, m at next level, right associativity) : py_scope.

(** A list comprehension whose body may raise: the first exception
    wins. *)
Fixpoint try_map {A B} (f : A -> result B) (l : list A) : result (list B) :=
  match l with
  | [] => ret []
  | a :: l' =>
      (b <- f a ;; bs <- try_map f l' ;; ret (b :: bs))%py
  end.

(* ===================================================================== *)
(** * The Keras tokenizer as [tokenize] configures it                     *)
(* ===================================================================== *)

(** [tf.keras.preprocessing.text.Tokenizer(filters='')]: the defaults
    [lower=True], [split=' '], [num_words=None], [oov_token=None],
    [char_level=False] apply. *)
Record Tokenizer := {
  word_counts : list (pystr * nat);   (* an OrderedDict: insertion order *)
  word_index : gmap pystr Z;
  index_word : gmap Z pystr
}.

(** [dict(pairs)]: a later pair overrides an earlier one with the same
    key. *)
Definition dict_of `{Countable K} {V} (pairs : list (K * V)) : gmap K V :=
  fold_left (fun m kv => <[fst kv := snd kv]> m) pairs ∅.

(** [word_counts[w] += 1], or [word_counts[w] = 1] for a new word; the
    position of a word in the ordered dictionary is that of its first
    insertion. *)
Fixpoint count_word (w : pystr) (wc : list (pystr * nat)) : list (pystr * nat) :=
  match wc with
  | [] => [(w, 1%nat)]
  | (w', n) :: wc' =>
      if decide (w' = w) then (w', S n) :: wc'
      else (w', n) :: count_word w wc'
  end.

(** [wcounts.sort(key=lambda x: x[1], reverse=True)]: Python's sort is
    stable, also with [reverse=True].  Insertion of [x], which precedes
    every element of [l] in the list being sorted. *)
Fixpoint insert_by_count (x : pystr * nat) (l : list (pystr * nat))
  : list (pystr * nat) :=
  match l with
  | [] => [x]
  | y :: l' =>
      if (snd y <=? snd x)%nat then x :: y :: l'
      else y :: insert_by_count x l'
  end.

Definition sort_by_count (wc : list (pystr * nat)) : list (pystr * nat) :=
  foldr insert_by_count [] wc.

(** [range(1, n + 1)] as token ids. *)
Definition ids_from_1 (n : nat) : list Z := map (fun i => Z.of_nat (S i)) (seq 0 n).

Section Tokenizer.

Variable U : UnicodeData.

(** [text_to_word_sequence(text, filters='', lower=True, split=' ')]:
    lower-case, split at every space, drop the empty fields. *)
Definition text_to_word_sequence (text : pystr) : list pystr :=
  filter (fun w => negb (bool_decide (w = []))) (split_on SPACE (str_lower U text)).

(** The counting loop of [fit_on_texts]. *)
Definition count_texts (texts : list pystr) : list (pystr * nat) :=
  fold_left
    (fun wc text => fold_left (fun wc w => count_word w wc) (text_to_word_sequence text) wc)
    texts [].

(** [sorted_voc]: the words by decreasing count. *)
Definition sorted_voc (texts : list pystr) : list pystr :=
  map fst (sort_by_count (count_texts texts)).

(** [Tokenizer.fit_on_texts]. *)
Definition fit_on_texts (texts : list pystr) : Tokenizer :=
  let voc := sorted_voc texts in
  let ids := ids_from_1 (length voc) in
  {| word_counts := count_texts texts;
     word_index := dict_of (zip voc ids);
     index_word := dict_of (zip ids voc) |}.

(** [Tokenizer.texts_to_sequences]: words without an id are skipped. *)
Definition texts_to_sequences (tk : Tokenizer) (texts : list pystr) : list (list Z) :=
  map (fun text => omap (fun w => word_index tk !! w) (text_to_word_sequence text)) texts.

End Tokenizer.

(** The words of a corpus in reading order, the number of occurrences
    of a word, and the distinct words in order of first occurrence. *)
Definition all_words (U : UnicodeData) (texts : list pystr) : list pystr :=
  concat (map (text_to_word_sequence U) texts).

Definition occurrences (w : pystr) (ws : list pystr) : nat :=
  length (filter (fun v => v = w) ws).

Definition add_new (w : pystr) (acc : list pystr) : list pystr :=
  if decide (w ∈ acc) then acc else acc ++ [w].

Definition first_occurrences (ws : list pystr) : list pystr :=
  fold_left (fun acc w => add_new w acc) ws [].

(** [w1] occurs in [ws] at a position before every occurrence of [w2]. *)
Definition precedes (w1 w2 : pystr) (ws : list pystr) : Prop :=
  exists p, ws !! p = Some w1 /\ forall q, ws !! q = Some w2 -> (p < q)%nat.

(** The counting loop on the words of the whole corpus. *)
Definition count_words (ws : list pystr) : list (pystr * nat) :=
  fold_left (fun wc w => count_word w wc) ws [].

(** [x] stands before [y] in the list [l]. *)
Definition before {A} (l : list A) (x y : A) : Prop :=
  exists a b, l !! a = Some x /\ l !! b = Some y /\ (a < b)%nat.

(** The order a stable sort by decreasing count leaves the entries of
    [wc] in: a larger count first; for equal counts, the order of
    [wc]. *)
Definition count_order (wc : list (pystr * nat)) (x y : pystr * nat) : Prop :=
  (snd y < snd x)%nat \/ (snd x = snd y /\ before wc x y).

(** Ids given in order of first occurrence, starting at 1: the [k]-th
    distinct word of the corpus, counting from 0, has id [k + 1]. *)
Definition ids_by_first_occurrence (U : UnicodeData) (texts : list pystr) : Prop :=
  forall k w,
    first_occurrences (all_words U texts) !! k = Some w ->
    word_index (fit_on_texts U texts) !! w = Some (Z.of_nat (S k)).

(** [s[-maxlen:]]: the last [maxlen] elements ([s[-0:]] is all of [s]). *)
Definition last_n {A} (maxlen : nat) (s : list A) : list A :=
  if (maxlen =? 0)%nat then s else drop (length s - maxlen) s.

(** One row of [pad_sequences(_, maxlen, padding='post')] with the
    default [truncating='pre'] and [value=0]: an empty sequence gives a
    row of zeros; a sequence that does not fit the row after truncation
    (only when [maxlen] is 0) is a [ValueError]. *)
Definition pad_row (maxlen : nat) (s : list Z) : result (list Z) :=
  let trunc := last_n maxlen s in
  if (length trunc <=? maxlen)%nat
  then ret (trunc ++ replicate (maxlen - length trunc) 0%Z)
  else raise ValueError.

(** [pad_sequences(sequences, maxlen=None or m, padding='post')]: a
    [ValueError] when there is no sequence at all and [maxlen] is not
    given ([np.max] of an empty list). *)
Definition pad_sequences (sequences : list (list Z)) (maxlen : option nat)
  : result (list (list Z)) :=
  match maxlen, sequences with
  | None, [] => raise ValueError
  | None, _ => try_map (pad_row (foldr Nat.max 0%nat (map length sequences))) sequences
  | Some m, _ => try_map (pad_row m) sequences
  end.

(** The second dimension of a rank-2 tensor with at least one row. *)
Definition shape1 {A} (t : list (list A)) : nat := length (hd [] t).

(** The string built by appending each word followed by a space. *)
Definition spaced (ws : list pystr) : pystr :=
  flat_map (fun w => w ++ [SPACE]) ws.

(** [tokenize], lines 54-61. *)
Definition tokenize (U : UnicodeData) (lang : list pystr)
  : result (list (list Z) * Tokenizer) :=
  let lang_tokenizer := fit_on_texts U lang in
  let tensor := texts_to_sequences U lang_tokenizer lang in
  (tensor <- pad_sequences tensor None ;;
   ret (tensor, lang_tokenizer))%py.

(* ===================================================================== *)
(** * Tensors of real numbers                                             *)
(* ===================================================================== *)

Module Tensor.

Open Scope R_scope.

Abbreviation vec := (list R).

(** [tf.reduce_sum] of a vector. *)
Definition rsum (v : vec) : R := fold_right Rplus 0 v.

(** [tf.reduce_mean] of a vector. *)
Definition reduce_mean (v : vec) : R := rsum v / INR (length v).

(** Element-wise sum and product of two vectors of one shape. *)
Definition vadd (a b : vec) : vec := zip_with Rplus a b.
Definition vmul (a b : vec) : vec := zip_with Rmult a b.

(** A vector times a scalar. *)
Definition vscale (k : R) (v : vec) : vec := map (Rmult k) v.

(** [tf.nn.softmax] along the axis held by the list. *)
Definition softmax (scores : vec) : vec :=
  map (fun s => exp s / rsum (map exp scores)) scores.

(** [tf.reduce_sum(m, axis)] where the list holds the reduced axis and
    the rows are vectors of one shape. *)
Definition reduce_sum_rows (m : list vec) : vec :=
  match m with
  | [] => []
  | r :: rs => fold_left vadd rs r
  end.

(** [tf.argmax] of a vector: the first index of the largest entry. *)
Fixpoint argmax_from (best_i : Z) (best : R) (i : Z) (l : vec) : Z :=
  match l with
  | [] => best_i
  | x :: l' =>
      if Rlt_dec best x then argmax_from i x (i + 1)%Z l'
      else argmax_from best_i best (i + 1)%Z l'
  end.

Definition argmax (l : vec) : Z :=
  match l with
  | [] => 0%Z
  | x :: l' => argmax_from 0%Z x 1%Z l'
  end.

End Tensor.

Import Tensor.

(* ===================================================================== *)
(** * The masked loss                                                     *)
(* ===================================================================== *)

(** [SparseCategoricalCrossentropy(from_logits=True, reduction='none')]
    on one example: minus the logarithm of the softmax probability of
    the label, which is a token id below the number of logits. *)
Definition sparse_categorical_crossentropy (label : Z) (logits : vec) : R :=
  (ln (rsum (map exp logits)) - nth (Z.to_nat label) logits 0)%R.

Definition loss_object (real : list Z) (pred : list vec) : vec :=
  zip_with sparse_categorical_crossentropy real pred.

(** [tf.cast(tf.math.logical_not(tf.math.equal(real, 0)), dtype)]. *)
Definition padding_mask (real : list Z) : vec :=
  map (fun r => if (r =? 0)%Z then 0%R else 1%R) real.

(** The per-example losses after [loss_ *= mask]. *)
Definition masked_loss (real : list Z) (pred : list vec) : vec :=
  vmul (loss_object real pred) (padding_mask real).

(** [loss_function], lines 42-51. *)
Definition loss_function (real : list Z) (pred : list vec) : R :=
  reduce_mean (masked_loss real pred).

(* ===================================================================== *)
(** * The masked loss on float32 values                                   *)
(* ===================================================================== *)

(** [loss_function] once more, on float32 values: a finite number, an
    infinity or NaN (the two zeros are one).  The operations on the
    infinities and on NaN are those of IEEE 754.  On finite operands an
    addition, a multiplication or a division returns its exact result
    rounded to float32, an infinity when that is beyond the range:
    [round] is that rounding; [exp_finite] and [log_finite] are the
    exponential and the logarithm of the mathematical library on a
    finite argument.  The three are parameters: the theorems hold for
    every rounding. *)
Module Float32.

Inductive float32 := Finite (x : R) | PInf | NInf | NaN.

Definition is_finite (a : float32) : bool :=
  match a with Finite _ => true | _ => false end.

Definition opp (a : float32) : float32 :=
  match a with
  | Finite x => Finite (- x)
  | PInf => NInf
  | NInf => PInf
  | NaN => NaN
  end.

(** An infinity times a finite value: NaN for 0, else an infinity of
    the sign of the product. *)
Definition inf_times (inf : float32) (x : R) : float32 :=
  if Req_dec_T x 0 then NaN
  else if Rlt_dec 0 x then inf else opp inf.

Definition maximum (a b : float32) : float32 :=
  match a, b with
  | NaN, _ | _, NaN => NaN
  | PInf, _ | _, PInf => PInf
  | NInf, c | c, NInf => c
  | Finite x, Finite y => Finite (Rmax x y)
  end.

Definition reduce_max (l : list float32) : float32 := foldr maximum NInf l.

(** [tf.cast(tf.math.logical_not(tf.math.equal(real, 0)), dtype)]. *)
Definition padding_mask (real : list Z) : list float32 :=
  map (fun r => if (r =? 0)%Z then Finite 0 else Finite 1) real.

Section Arithmetic.

Variable round : R -> float32.
Variables exp_finite log_finite : R -> float32.

Definition add (a b : float32) : float32 :=
  match a, b with
  | NaN, _ | _, NaN => NaN
  | PInf, NInf | NInf, PInf => NaN
  | PInf, _ | _, PInf => PInf
  | NInf, _ | _, NInf => NInf
  | Finite x, Finite y => round (x + y)
  end.

Definition sub (a b : float32) : float32 := add a (opp b).

Definition mul (a b : float32) : float32 :=
  match a, b with
  | NaN, _ | _, NaN => NaN
  | Finite x, Finite y => round (x * y)
  | Finite x, inf | inf, Finite x => inf_times inf x
  | PInf, PInf | NInf, NInf => PInf
  | PInf, NInf | NInf, PInf => NInf
  end.

Definition exp (a : float32) : float32 :=
  match a with
  | Finite x => exp_finite x
  | PInf => PInf
  | NInf => Finite 0
  | NaN => NaN
  end.

Definition log (a : float32) : float32 :=
  match a with
  | Finite x =>
      if Rlt_dec x 0 then NaN
      else if Req_dec_T x 0 then NInf
      else log_finite x
  | PInf => PInf
  | NInf | NaN => NaN
  end.

Definition reduce_sum (l : list float32) : float32 := foldr add (Finite 0) l.

(** [tf.reduce_mean]: the sum divided by the number of elements; the
    mean of no element is 0 / 0. *)
Definition reduce_mean (l : list float32) : float32 :=
  match l with
  | [] => NaN
  | _ =>
      match reduce_sum l with
      | Finite x => round (x / INR (length l))
      | a => a
      end
  end.

(** [SparseCategoricalCrossentropy(from_logits=True, reduction='none')]
    on one example, as TensorFlow computes it: the logits are shifted
    by their maximum, and the loss is the logarithm of the sum of their
    exponentials minus the shifted logit of the label.  A label that is
    no index of the row is an [InvalidArgumentError]. *)
Definition sparse_categorical_crossentropy (label : Z) (logits : list float32)
  : result float32 :=
  if (0 <=? label)%Z && (label <? Z.of_nat (length logits))%Z then
    let shifted := map (fun l => sub l (reduce_max logits)) logits in
    ret (sub (log (reduce_sum (map exp shifted)))
             (nth (Z.to_nat label) shifted NaN))
  else raise InvalidArgumentError.

(** [loss_object(real, pred)] with [pred] of shape (batch, classes):
    one row of logits for each true id, all rows of one length. *)
Definition loss_object (real : list Z) (pred : list (list float32))
  : result (list float32) :=
  if (length pred =? length real)%nat
     && forallb (fun row => (length row =? shape1 pred)%nat) pred
  then try_map (fun rp => sparse_categorical_crossentropy (fst rp) (snd rp))
               (zip real pred)
  else raise InvalidArgumentError.

(** [loss_ *= mask]. *)
Definition masked_loss (loss_ : list float32) (real : list Z) : list float32 :=
  zip_with mul loss_ (padding_mask real).

(** [loss_function], lines 42-51. *)
Definition loss_function (real : list Z) (pred : list (list float32))
  : result float32 :=
  (loss_ <- loss_object real pred ;;
   ret (reduce_mean (masked_loss loss_ real)))%py.

(** The claim that padding never contributes: wherever the true id is
    0, the masked loss is 0, whatever the logits. *)
Definition padding_contributes_zero : Prop :=
  forall (real : list Z) (pred : list (list float32)) (b : nat)
         (loss_ : list float32),
    real !! b = Some 0%Z ->
    loss_object real pred = inr loss_ ->
    masked_loss loss_ real !! b = Some (Finite 0).

End Arithmetic.

(** An arithmetic to run the definitions with: no rounding within the
    range, an infinity for a result whose magnitude reaches [2^128]. *)
Definition HUGE : R := (2 ^ 128)%R.

Definition overflow (x : R) : float32 :=
  if Rle_dec HUGE x then PInf
  else if Rle_dec x (- HUGE) then NInf
  else Finite x.

Definition exact_exp (x : R) : float32 := overflow (Rtrigo_def.exp x).
Definition exact_log (x : R) : float32 := Finite (ln x).

(** A batch of two positions, the first one padding, with finite
    logits whose difference is beyond the range of float32, and the
    same batch with ordinary logits at the padded position. *)
Definition padded_batch : list Z := [0; 1]%Z.
Definition wide_logits : list (list float32) :=
  [[Finite (- 2 ^ 127); Finite (2 ^ 127)]; [Finite 0; Finite 0]]%R.
Definition ordinary_logits : list (list float32) :=
  [[Finite 0; Finite 0]; [Finite 0; Finite 0]]%R.

End Float32.

(* ===================================================================== *)
(** * Attention and the decoder                                           *)
(* ===================================================================== *)

Section Encoder.

(** The embedding of a token id and the GRU run on the time steps of one
    example from a given state. *)
Variable embedding : Z -> vec.
Variable gru : list vec -> vec -> list vec * vec.

(** [Encoder.call], lines 74-77: the outputs at every time step and the
    final state, for each example of the batch. *)
Definition Encoder_call (x : list (list Z)) (hidden : list vec)
  : list (list vec) * list vec :=
  let x := map (map embedding) x in
  let out := zip_with gru x hidden in
  (map fst out, map snd out).

End Encoder.

Section BahdanauAttention.

(** The three dense layers of the attention module; [V] is [Dense(1)],
    so its output has one entry, held here as a number. *)
Variables W1 W2 : vec -> vec.
Variable V : vec -> R.

(** The sum of a tensor of shape (1, units) and one of shape
    (max_len, units), broadcast along the time axis. *)
Definition broadcast_add_time (a b : list vec) : list vec :=
  match a with
  | [x] => map (vadd x) b
  | _ => zip_with vadd a b
  end.

(** [score] for one example: shape (max_len, 1). *)
Definition attention_score (query : vec) (values : list vec) : list vec :=
  map (fun u => [V (map tanh u)])
      (broadcast_add_time (map W1 [query]) (map W2 values)).

(** [tf.nn.softmax(score, axis=1)] for one example: the softmax runs
    along the time axis, separately for each entry of the last axis
    (there is one). *)
Definition softmax_time (score : list vec) : list vec :=
  map (fun w => [w]) (softmax (map (fun s => nth 0 s 0%R) score)).

(** [BahdanauAttention.call] on one example of the batch: the context
    vector and the attention weights, of shape (max_len, 1). *)
Definition attend (query : vec) (values : list vec) : vec * list vec :=
  let attention_weights := softmax_time (attention_score query values) in
  let context_vector :=
    zip_with (fun w v => vscale (nth 0 w 0%R) v) attention_weights values in
  (reduce_sum_rows context_vector, attention_weights).

(** [BahdanauAttention.call], lines 90-110: every operation acts on the
    examples of the batch independently. *)
Definition BahdanauAttention_call (query : list vec) (values : list (list vec))
  : list vec * list (list vec) :=
  let out := zip_with attend query values in
  (map fst out, map snd out).

End BahdanauAttention.

(** The attention weights of one example, read along the time axis. *)
Definition weights_over_time (attention_weights : list vec) : vec :=
  map (fun w => nth 0 w 0%R) attention_weights.

Section Decoder.

Variables W1 W2 : vec -> vec.
Variable V : vec -> R.
(** The embedding of a token id, the GRU run on the time steps of one
    example from its default (zero) state, and the output layer. *)
Variable embedding : Z -> vec.
Variable gru : list vec -> list vec * vec.
Variable fc : vec -> vec.

(** [Decoder.call], lines 128-147.  [x] has shape (batch, 1). *)
Definition Decoder_call (x : list (list Z)) (hidden : list vec)
    (enc_output : list (list vec))
  : list vec * list vec * list (list vec) :=
  let '(context_vector, attention_weights) :=
    BahdanauAttention_call W1 W2 V hidden enc_output in
  let x := map (map embedding) x in
  let x := zip_with (fun c xb => map (fun e => c ++ e) xb) context_vector x in
  let out := map gru x in
  let output := concat (map fst out) in
  let state := map snd out in
  (map fc output, state, attention_weights).

End Decoder.

(* ===================================================================== *)
(** * The translator                                                      *)
(* ===================================================================== *)

(** [zip] applied to the unpacked [rows]: the columns of [rows], as many as the shortest row
    has entries; nothing for no row at all. *)
Definition zip_star {A} (d : A) (rows : list (list A)) : list (list A) :=
  match rows with
  | [] => []
  | r :: rs =>
      map (fun j => map (fun row => nth j row d) rows)
          (seq 0 (foldr Nat.min (length r) (map length rs)))
  end.

(** [w.startswith(p)]. *)
Fixpoint startswith (p w : pystr) : bool :=
  match p, w with
  | [], _ => true
  | a :: p', b :: w' => (a =? b)%N && startswith p' w'
  | _ :: _, [] => false
  end.

(** [t[:, j]] for a rank-2 tensor. *)
Definition column (j : nat) (t : list (list Z)) : list Z :=
  map (fun row => nth j row 0%Z) t.

(** [tf.expand_dims(v, 1)]. *)
Definition expand_dims_1 (v : list Z) : list (list Z) := map (fun x => [x]) v.

(** [dataset.batch(n, drop_remainder=True)]; [fuel] bounds the number of
    batches and is the length of the list where it is used. *)
Fixpoint batch_drop {A} (fuel n : nat) (l : list A) : list (list A) :=
  match fuel with
  | O => []
  | S fuel' =>
      if (n <=? length l)%nat && (0 <? n)%nat
      then take n l :: batch_drop fuel' n (drop n l)
      else []
  end.

Definition batch {A} (n : nat) (l : list A) : list (list A) :=
  batch_drop (length l) n l.

(** [train_test_split(a, b, test_size=0.2)] of scikit-learn: the test
    part has [ceil(0.2 * n)] samples and the training part the rest; an
    empty training part is a [ValueError].  [perm] is the draw of
    [rng.permutation(n)]: its first entries index the test part, the
    following ones the training part. *)
Definition n_test (n : nat) : nat := ((n + 4) / 5)%nat.
Definition n_train (n : nat) : nat := (n - n_test n)%nat.

(** The indices [train_test_split] gives to the test part and to the
    training part. *)
Definition ind_test (perm : list nat) (n : nat) : list nat :=
  take (n_test n) perm.
Definition ind_train (perm : list nat) (n : nat) : list nat :=
  take (n_train n) (drop (n_test n) perm).

Definition index_rows {A} (d : A) (idx : list nat) (a : list A) : list A :=
  map (fun i => nth i a d) idx.

Definition train_test_split (perm : list nat) (a b : list (list Z))
  : result (list (list Z) * list (list Z) * list (list Z) * list (list Z)) :=
  let n := length a in
  if (n =? 0)%nat || (n_train n =? 0)%nat || negb (length b =? n)%nat
  then raise ValueError
  else
    ret (index_rows [] (ind_train perm n) a, index_rows [] (ind_test perm n) a,
         index_rows [] (ind_train perm n) b, index_rows [] (ind_test perm n) b).

(** [lines[:num_examples]] of [_load_dataset], lines 200-204: the lines
    of the corpus file that are loaded, one sentence pair each. *)
Definition corpus_lines (text : pystr) (num_examples : option nat) : list pystr :=
  let lines := split_on NEWLINE (strip text) in
  let num_examples :=
    match num_examples with None => length lines | Some n => n end in
  take num_examples lines.

(** Lines 184-186 of [_load_dataset]: the name of the language pair is
    unpacked into two names, which takes exactly one hyphen, and the
    corpus file is named after [lang1]: the name after [eng-], or else
    the name before the hyphen. *)
Definition HYPHEN : N := 45.

Definition corpus_language (lang : pystr) : result pystr :=
  match split_on HYPHEN lang with
  | [a; b] => if startswith (of_string "eng-") lang then ret b else ret a
  | _ => raise ValueError
  end.

(** What [_load] leaves in [self]. *)
Record TranslatorModel := {
  inp_lang_tokenizer : Tokenizer;
  targ_lang_tokenizer : Tokenizer;
  max_length_targ : nat;
  max_length_inp : nat;
  vocab_inp_size : nat;
  vocab_tar_size : nat;
  BUFFER_SIZE : nat;
  steps_per_epoch : nat;
  input_tensor : list (list Z);
  target_tensor : list (list Z);
  (** the tensors the dataset slices: [(input_tensor_train,
      target_tensor_train)] *)
  dataset_source : list (list Z * list Z)
}.

Definition BATCH_SIZE : nat := 64.
Definition NUM_EXAMPLES : nat := Z.to_nat 30000.
Definition units : nat := Z.to_nat 1024.

(** One decoder call of greedy decoding: the token fed and the token
    chosen. *)
Record DecodeStep := { fed : Z; predicted : Z }.

(** What an epoch shows: the training steps run and whether a
    checkpoint was saved. *)
Record EpochLog := { steps_run : nat; total_loss : R; checkpoint_saved : bool }.

(** What a normal return of the decoding loop is made of: the words of
    the decoder calls, in order, none of them the end marker; the calls
    are all of the log, or all but a last one that chose the end
    marker. *)
Definition emitted_by (self : TranslatorModel) (log : list DecodeStep)
    (ws : list pystr) : Prop :=
  Forall (fun w => w <> END) ws
  /\ Forall2 (fun w st =>
                index_word (targ_lang_tokenizer self) !! predicted st = Some w)
             ws (take (length ws) log)
  /\ (length log = length ws
      \/ exists st, log = take (length ws) log ++ [st]
           /\ index_word (targ_lang_tokenizer self) !! predicted st = Some END).

Section Translator.

Variable U : UnicodeData.

(** The trainable variables together with the optimizer's slots. *)
Variable Params : Type.

(** The forward computations of [Encoder.call] and [Decoder.call] under
    given parameters. *)
Variable encoder :
  Params -> list (list Z) -> list vec -> list (list vec) * list vec.
Variable decoder :
  Params -> list (list Z) -> list vec -> list (list vec)
  -> list vec * list vec * list (list vec).

(** [tape.gradient(loss, variables)] followed by
    [optimizer.apply_gradients]: the update computed from the loss as a
    function of the parameters. *)
Variable apply_gradients : Params -> (Params -> R) -> Params.

(** The draws of the random generators: the permutation of
    [train_test_split] and the shuffle of the dataset at its [k]-th
    iteration. *)
Variable permutation : nat -> list nat.
Variable shuffle : nat -> list (list Z * list Z) -> list (list Z * list Z).

(** [_load_dataset], lines 183-206, from the text of the corpus file. *)
Definition _load_dataset (text : pystr) (num_examples : option nat)
  : list (list pystr) :=
  let word_pairs :=
    map (fun l => map (preprocess_sentence U) (split_on TAB l))
        (corpus_lines text num_examples) in
  zip_star [] word_pairs.

(** [_load], lines 209-235. *)
Definition _load (lang : pystr) (text : pystr) (num_examples : option nat)
  : result TranslatorModel :=
  (langs <-
     match _load_dataset text num_examples with
     | [a; b] =>
         if startswith (of_string "eng-") lang then ret (a, b) else ret (b, a)
     | _ => raise ValueError
     end ;;
   let '(inp_lang, targ_lang) := langs in
   inp <- tokenize U inp_lang ;;
   targ <- tokenize U targ_lang ;;
   let '(input_tensor, inp_lang_tokenizer) := inp in
   let '(target_tensor, targ_lang_tokenizer) := targ in
   split <- train_test_split (permutation (length input_tensor))
              input_tensor target_tensor ;;
   let '(input_tensor_train, _, target_tensor_train, _) := split in
   ret {| inp_lang_tokenizer := inp_lang_tokenizer;
          targ_lang_tokenizer := targ_lang_tokenizer;
          input_tensor := input_tensor;
          target_tensor := target_tensor;
          max_length_targ := shape1 target_tensor;
          max_length_inp := shape1 input_tensor;
          vocab_inp_size := size (word_index inp_lang_tokenizer) + 1;
          vocab_tar_size := size (word_index targ_lang_tokenizer) + 1;
          BUFFER_SIZE := length input_tensor_train;
          steps_per_epoch := length input_tensor_train / BATCH_SIZE;
          dataset_source := zip input_tensor_train target_tensor_train |})%py.

(** [_load] as [__init__] calls it, from the name of the language pair
    and the text of the corpus file: the name is unpacked before the
    file is read. *)
Definition load_language (lang text : pystr) (num_examples : option nat)
  : result TranslatorModel :=
  (_ <- corpus_language lang ;;
   _load lang text num_examples)%py.

(** The batches of the [k]-th iteration over [self.dataset]:
    [from_tensor_slices(..).shuffle(BUFFER_SIZE).batch(BATCH_SIZE,
    drop_remainder=True)]. *)
Definition dataset (self : TranslatorModel) (k : nat)
  : list (list (list Z) * list (list Z)) :=
  map (fun b => (map fst b, map snd b))
      (batch BATCH_SIZE (shuffle k (dataset_source self))).

(** The loop of [train_step], lines 248-256, over the time steps [ts]:
    the accumulated loss, the decoder inputs fed and the input left for
    the step after the last. *)
Fixpoint teacher_forcing (theta : Params) (enc_output : list (list vec))
    (targ : list (list Z)) (ts : list nat)
    (dec_input : list (list Z)) (dec_hidden : list vec) (loss : R)
  : R * list (list (list Z)) * list (list Z) :=
  match ts with
  | [] => (loss, [], dec_input)
  | t :: ts' =>
      let '(predictions, dec_hidden, _) :=
        decoder theta dec_input dec_hidden enc_output in
      let loss := (loss + loss_function (column t targ) predictions)%R in
      let next := expand_dims_1 (column t targ) in
      let '(loss, inputs, final) :=
        teacher_forcing theta enc_output targ ts' next dec_hidden loss in
      (loss, dec_input :: inputs, final)
  end.

(** The computation recorded by the gradient tape, lines 241-256. *)
Definition forward (start : Z) (theta : Params)
    (inp targ : list (list Z)) (enc_hidden : list vec)
  : R * list (list (list Z)) * list (list Z) :=
  let '(enc_output, enc_hidden) := encoder theta inp enc_hidden in
  let dec_hidden := enc_hidden in
  let dec_input := expand_dims_1 (replicate BATCH_SIZE start) in
  teacher_forcing theta enc_output targ (seq 1 (shape1 targ - 1))
    dec_input dec_hidden 0%R.

(** [train_step], lines 237-262: the updated parameters, the batch loss
    and the decoder inputs of the step. *)
Definition train_step (self : TranslatorModel) (theta : Params)
    (inp targ : list (list Z)) (enc_hidden : list vec)
  : result (Params * R * list (list (list Z)) * list (list Z)) :=
  match word_index (targ_lang_tokenizer self) !! START with
  | None => raise (KeyError_str START)
  | Some start =>
      let '(loss, inputs, final) := forward start theta inp targ enc_hidden in
      let batch_loss := (loss / INR (shape1 targ))%R in
      let theta' :=
        apply_gradients theta
          (fun th => fst (fst (forward start th inp targ enc_hidden))) in
      ret (theta', batch_loss, inputs, final)
  end.

(** [encoder.initialize_hidden_state()]. *)
Definition initialize_hidden_state : list vec :=
  replicate BATCH_SIZE (replicate units 0%R).

(** The inner loop of [train], lines 272-277. *)
Fixpoint run_batches (self : TranslatorModel) (theta : Params)
    (enc_hidden : list vec) (batches : list (list (list Z) * list (list Z)))
    (total : R) (steps : nat)
  : result Params * R * nat :=
  match batches with
  | [] => (ret theta, total, steps)
  | (inp, targ) :: rest =>
      match train_step self theta inp targ enc_hidden with
      | inl e => (raise e, total, steps)
      | inr (theta', batch_loss, _, _) =>
          run_batches self theta' enc_hidden rest (total + batch_loss)%R (S steps)
      end
  end.

(** [train], lines 265-283, over the epochs [epochs]; [k] counts the
    iterations over the dataset made so far.  The mean loss printed at
    the end of an epoch divides by [steps_per_epoch]: when that is 0 no
    step was run, [total_loss] is still the integer 0 and the division
    raises. *)
Fixpoint train_loop (self : TranslatorModel) (theta : Params)
    (epochs : list nat) (k : nat) : result Params * list EpochLog :=
  match epochs with
  | [] => (ret theta, [])
  | epoch :: rest =>
      let enc_hidden := initialize_hidden_state in
      let '(outcome, total, steps) :=
        run_batches self theta enc_hidden
          (take (steps_per_epoch self) (dataset self k)) 0%R 0 in
      match outcome with
      | inl e =>
          (raise e, [{| steps_run := steps; total_loss := total;
                        checkpoint_saved := false |}])
      | inr theta' =>
          let saved := ((epoch + 1) mod 2 =? 0)%nat in
          let entry := {| steps_run := steps; total_loss := total;
                          checkpoint_saved := saved |} in
          if (steps_per_epoch self =? 0)%nat
          then (raise ZeroDivisionError, [entry])
          else
            let '(outcome, log) := train_loop self theta' rest (S k) in
            (outcome, entry :: log)
      end
  end.

Definition train (self : TranslatorModel) (theta : Params) (epochs : Z) (k : nat)
  : result Params * list EpochLog :=
  train_loop self theta (seq 0 (Z.to_nat epochs)) k.

(** The loop of [evaluate], lines 306-315, with [n] iterations left. *)
Fixpoint decode_loop (self : TranslatorModel) (theta : Params)
    (enc_out : list (list vec)) (n : nat)
    (dec_input : Z) (dec_hidden : list vec) (translation : pystr)
  : result pystr * list DecodeStep :=
  match n with
  | O => (ret translation, [])
  | S n' =>
      let '(predictions, dec_hidden, attention_weights) :=
        decoder theta [[dec_input]] dec_hidden enc_out in
      let predicted_id := argmax (hd [] predictions) in
      let step := {| fed := dec_input; predicted := predicted_id |} in
      match index_word (targ_lang_tokenizer self) !! predicted_id with
      | None => (raise (KeyError_int predicted_id), [step])
      | Some w =>
          if decide (w = END) then (ret translation, [step])
          else
            let '(outcome, log) :=
              decode_loop self theta enc_out n' predicted_id dec_hidden
                (translation ++ w ++ [SPACE]) in
            (outcome, step :: log)
      end
  end.

(** [evaluate], lines 289-317: the outcome and the decoder calls made. *)
Definition evaluate (self : TranslatorModel) (theta : Params) (sentence : pystr)
  : result (pystr * pystr) * list DecodeStep :=
  let sentence := preprocess_sentence U sentence in
  let inputs :=
    (inputs <-
       try_map (fun i =>
                  match word_index (inp_lang_tokenizer self) !! i with
                  | Some id => ret id
                  | None => raise (KeyError_str i)
                  end)
               (split_on SPACE sentence) ;;
     pad_sequences [inputs] (Some (max_length_inp self)))%py in
  match inputs with
  | inl e => (raise e, [])
  | inr inputs =>
      let hidden := [replicate units 0%R] in
      let '(enc_out, enc_hidden) := encoder theta inputs hidden in
      let dec_hidden := enc_hidden in
      match word_index (targ_lang_tokenizer self) !! START with
      | None => (raise (KeyError_str START), [])
      | Some start =>
          let '(outcome, log) :=
            decode_loop self theta enc_out (max_length_targ self)
              start dec_hidden [] in
          (bind outcome (fun translation => ret (translation, sentence)), log)
      end
  end.

(** [translate], lines 321-326. *)
Definition translate (self : TranslatorModel) (theta : Params) (sentence : pystr)
  : result pystr :=
  bind (fst (evaluate self theta sentence)) (fun r => ret (fst r)).

(** The builtin [int] on a string, the content of the corpus file of a
    language pair, the parameters [__init__] builds and restores from
    the latest checkpoint, and whether the [n]-th reload request gets a
    response. *)
Variable py_int : pystr -> option Z.
Variable corpus_file : pystr -> pystr.
Variable init_params : TranslatorModel -> Params.
Variable reload_responds : nat -> bool.

(** A call of [train] made by the service loop: the epoch count passed
    and what the call did. *)
Record TrainCall := { call_epochs : Z; call_log : list EpochLog }.

(** The first [n] rounds of [while True], lines 343-347. *)
Fixpoint service_loop (n : nat) (self : TranslatorModel) (theta : Params)
    (epochs : Z) (round k : nat) : result Params * list TrainCall :=
  match n with
  | O => (ret theta, [])
  | S n' =>
      let '(outcome, log) := train self theta epochs k in
      let call := {| call_epochs := epochs; call_log := log |} in
      match outcome with
      | inl e => (raise e, [call])
      | inr theta' =>
          if reload_responds round then
            let '(outcome, calls) :=
              service_loop n' self theta' epochs (S round) (k + Z.to_nat epochs) in
            (outcome, call :: calls)
          else (raise ConnectionError, [call])
      end
  end.

(** [__main__], lines 332-348, observed for [rounds] rounds of its
    loop. *)
Definition main (argv : list pystr) (rounds : nat)
  : result Params * list TrainCall :=
  let lang :=
    if (1 <? length argv)%nat then nth 1 argv [] else of_string "eng-fra" in
  let epochs :=
    if (2 <? length argv)%nat then
      match py_int (nth 2 argv []) with
      | Some e => ret (Some e)
      | None => raise ValueError
      end
    else ret None in
  match epochs with
  | inl e => (raise e, [])
  | inr epochs =>
      match load_language lang (corpus_file lang) (Some NUM_EXAMPLES) with
      | inl e => (raise e, [])
      | inr model =>
          let epochs := 10%Z in
          service_loop rounds model (init_params model) epochs 0 0
      end
  end.

End Translator.

Arguments teacher_forcing {Params}.
Arguments forward {Params}.
Arguments train_step {Params}.
Arguments run_batches {Params}.
Arguments train_loop {Params}.
Arguments train {Params}.
Arguments decode_loop {Params}.
Arguments evaluate U {Params}.
Arguments translate U {Params}.
Arguments service_loop {Params}.
Arguments main U {Params}.

(** The calls of [train] made by the service loop: all of them get the
    epoch count of the loop; all of them ran that many epochs, except
    that a last call that raised may have run fewer. *)
Definition calls_run {Params} (epochs : Z) (outcome : result Params)
    (calls : list TrainCall) : Prop :=
  Forall (fun c => call_epochs c = epochs) calls
  /\ Forall (fun c => (length (call_log c) <= Z.to_nat epochs)%nat) calls
  /\ (Forall (fun c => length (call_log c) = Z.to_nat epochs) calls
      \/ exists init last e,
           calls = init ++ [last] /\ outcome = inl e
           /\ Forall (fun c => length (call_log c) = Z.to_nat epochs) init).

(* ===================================================================== *)
(** * Vocabulary of the further properties                                *)
(* ===================================================================== *)

(** The tokens of a preprocessed sentence: a non-empty word of the
    letters [a-zA-Z], or one punctuation mark. *)
Definition is_word (t : pystr) : Prop :=
  t <> [] /\ Forall (fun c => is_letter c = true) t.

Definition is_mark (t : pystr) : Prop :=
  exists p, is_punct p = true /\ t = [p].

Definition token_ok (t : pystr) : Prop := is_word t \/ is_mark t.

(** The first epoch of [train] on a model without a full batch. *)
Definition empty_epoch : EpochLog :=
  {| steps_run := 0; total_loss := 0%R; checkpoint_saved := false |}.

(** The sentence pair of a line of the corpus file, preprocessed, and
    what makes the lines a corpus that can be loaded: there are two of
    them at least, each has two fields or more and one has exactly
    two. *)
Definition first_field (U : UnicodeData) (l : pystr) : pystr :=
  preprocess_sentence U (nth 0 (split_on TAB l) []).
Definition second_field (U : UnicodeData) (l : pystr) : pystr :=
  preprocess_sentence U (nth 1 (split_on TAB l) []).

(** The claim that the held-out pairs are without influence on the
    parameters: two corpora with the same lines at the indices of the
    training part give vocabularies of the same sizes, which are the
    numbers of rows of the embedding layers and of units of the output
    layer that [__init__] creates, and the same training pairs, which
    are what [train_step] is called with. *)
Definition held_out_without_influence
    (U : UnicodeData) (permutation : nat -> list nat) : Prop :=
  forall (lang text text' : pystr) (num_examples : option nat)
         (self self' : TranslatorModel),
    _load U permutation lang text num_examples = inr self ->
    _load U permutation lang text' num_examples = inr self' ->
    let lines := corpus_lines text num_examples in
    let lines' := corpus_lines text' num_examples in
    let training := ind_train (permutation (length lines)) (length lines) in
    length lines' = length lines ->
    index_rows [] training lines' = index_rows [] training lines ->
    vocab_inp_size self' = vocab_inp_size self
    /\ vocab_tar_size self' = vocab_tar_size self
    /\ dataset_source self' = dataset_source self.

Definition loadable (lines : list pystr) : Prop :=
  (2 <= length lines)%nat
  /\ Forall (fun l => (2 <= length (split_on TAB l))%nat) lines
  /\ Exists (fun l => length (split_on TAB l) = 2%nat) lines.

(* ===================================================================== *)
(** * A small instance                                                    *)
(* ===================================================================== *)

(** A translator over a one-sentence vocabulary whose decoder always
    gives the largest logit to index 0; used to run the definitions on
    concrete inputs. *)
Module Demo.

Definition texts : list pystr := [of_string "<start> go . <end>"].

Definition tokenizer : Tokenizer := fit_on_texts basic_latin texts.

Definition model : TranslatorModel := {|
  inp_lang_tokenizer := tokenizer;
  targ_lang_tokenizer := tokenizer;
  max_length_targ := 4;
  max_length_inp := 4;
  vocab_inp_size := 5;
  vocab_tar_size := 5;
  BUFFER_SIZE := 1;
  steps_per_epoch := 0;
  input_tensor := [[1; 2; 3; 4]%Z];
  target_tensor := [[1; 2; 3; 4]%Z];
  dataset_source := [([1; 2; 3; 4]%Z, [1; 2; 3; 4]%Z)]
|}.

Definition encoder (_ : unit) (_ : list (list Z)) (hidden : list vec)
  : list (list vec) * list vec := ([[[0%R]]], hidden).

Definition decoder (_ : unit) (_ : list (list Z)) (hidden : list vec)
    (_ : list (list vec)) : list vec * list vec * list (list vec) :=
  ([[1; 0; 0; 0; 0]%R], hidden, [[[1%R]]]).

(** Two preprocessed sentences of one language. *)
Definition sentences : list pystr :=
  map (preprocess_sentence basic_latin) [of_string "Go."; of_string "Run."].

(** A corpus file of two lines. *)
Definition corpus : pystr :=
  of_string "Go." ++ [TAB] ++ of_string "Va !" ++ [NEWLINE]
  ++ of_string "Hi." ++ [TAB] ++ of_string "Salut !".

(** A corpus file of 80 lines: enough for one batch of training pairs. *)
Definition long_corpus : pystr :=
  concat (replicate 79 (of_string "Go." ++ [TAB] ++ of_string "Va !" ++ [NEWLINE]))
  ++ of_string "Hi." ++ [TAB] ++ of_string "Salut !".

(** The same corpus with another first line, which the split with the
    identity permutation holds out. *)
Definition long_corpus_other : pystr :=
  of_string "Wait a bit." ++ [TAB] ++ of_string "Attends un peu !" ++ [NEWLINE]
  ++ concat (replicate 78 (of_string "Go." ++ [TAB] ++ of_string "Va !" ++ [NEWLINE]))
  ++ of_string "Hi." ++ [TAB] ++ of_string "Salut !".

End Demo.

(* ===================================================================== *)
(** * The definitions at work                                             *)
(* ===================================================================== *)

Example preprocess_go :
  preprocess_sentence basic_latin (of_string "Go.")
  = of_string "<start> go . <end>".
Proof. vm_compute. reflexivity. Qed.

Example preprocess_quoted :
  preprocess_sentence basic_latin (of_string "  He said: 'No!'  ")
  = of_string "<start> he said no ! <end>".
Proof. vm_compute. reflexivity. Qed.

Example preprocess_empty :
  preprocess_sentence basic_latin [] = of_string "<start>  <end>".
Proof. vm_compute. reflexivity. Qed.

Example preprocess_go_twice :
  preprocess_sentence basic_latin (of_string "<start> go . <end>")
  = of_string "<start> start go . end <end>".
Proof. vm_compute. reflexivity. Qed.

Example sorted_voc_sentences :
  sorted_voc basic_latin Demo.sentences
  = map of_string ["<start>"; "."; "<end>"; "go"; "run"].
Proof. vm_compute. reflexivity. Qed.

Example tokenize_sentences :
  bind (tokenize basic_latin Demo.sentences) (fun r => ret (fst r))
  = inr [[1; 4; 2; 3]; [1; 5; 2; 3]]%Z.
Proof. vm_compute. reflexivity. Qed.

Example tokenize_pads_after :
  bind (tokenize basic_latin (map of_string ["a b c"; "a"]))
       (fun r => ret (fst r))
  = inr [[1; 2; 3]; [1; 0; 0]]%Z.
Proof. vm_compute. reflexivity. Qed.

(** The empty sentence has an empty token between its markers, which is
    in no vocabulary. *)
Example evaluate_empty_sentence :
  evaluate basic_latin Demo.encoder Demo.decoder Demo.model tt []
  = (inl (KeyError_str []), []).
Proof. vm_compute. reflexivity. Qed.

Example split_sizes :
  map n_train [1; 2; 5; 15; 79; 80; 100]%nat = [0; 1; 4; 12; 63; 64; 80]%nat.
Proof. vm_compute. reflexivity. Qed.

(* ===================================================================== *)
(** * Properties of the training step                                     *)
(* ===================================================================== *)

Section TrainStepFacts.

Context {Params : Type}.
Context (encoder :
  Params -> list (list Z) -> list vec -> list (list vec) * list vec).
Context (decoder :
  Params -> list (list Z) -> list vec -> list (list vec)
  -> list vec * list vec * list (list vec)).
Context (apply_gradients : Params -> (Params -> R) -> Params).

(** The inputs of the decoder along the loop are the input it starts
    with followed by the columns of the target, whatever the decoder
    predicts. *)
Lemma teacher_forcing_inputs theta enc_output targ ts dec_input dec_hidden loss :
  let '(_, inputs, final) :=
    teacher_forcing decoder theta enc_output targ ts dec_input dec_hidden loss in
  inputs ++ [final]
  = dec_input :: map (fun t => expand_dims_1 (column t targ)) ts.
Proof.
  revert dec_input dec_hidden loss.
  induction ts as [|t ts IH]; intros dec_input dec_hidden loss; simpl.
  - reflexivity.
  - destruct (decoder theta dec_input dec_hidden enc_output) as [[p h] a].
    specialize (IH (expand_dims_1 (column t targ)) h
                   (loss + loss_function (column t targ) p)%R).
    destruct (teacher_forcing _ _ _ _ _ _ _ _) as [[l inputs] final].
    simpl. now rewrite IH.
Qed.

Lemma forward_inputs start theta inp targ enc_hidden :
  let '(_, inputs, final) :=
    forward encoder decoder start theta inp targ enc_hidden in
  inputs ++ [final]
  = expand_dims_1 (replicate BATCH_SIZE start)
    :: map (fun t => expand_dims_1 (column t targ)) (seq 1 (shape1 targ - 1)).
Proof.
  unfold forward.
  destruct (encoder theta inp enc_hidden) as [enc_output h].
  apply teacher_forcing_inputs.
Qed.

(** C1.  Teacher forcing.  A training step either fails to find the
    start marker in the target vocabulary, or runs the decoder on the
    start marker first and then, for every target time step [t] from 1
    to T-1, prepares as the next decoder input the column [t] of the
    true target batch: the [t]-th entry of the sequence of decoder
    inputs is [targ[:, t]], for every decoder, hence whatever the model
    predicts. *)
Theorem train_step_teacher_forcing
    (self : TranslatorModel) theta inp targ enc_hidden :
  match train_step encoder decoder apply_gradients self theta inp targ enc_hidden with
  | inl e =>
      e = KeyError_str START
      /\ word_index (targ_lang_tokenizer self) !! START = None
  | inr (_, _, inputs, final) =>
      (exists start,
          word_index (targ_lang_tokenizer self) !! START = Some start
          /\ (inputs ++ [final]) !! 0%nat
             = Some (expand_dims_1 (replicate BATCH_SIZE start)))
      /\ length inputs = (shape1 targ - 1)%nat
      /\ forall t, (1 <= t <= shape1 targ - 1)%nat ->
           (inputs ++ [final]) !! t = Some (expand_dims_1 (column t targ))
  end.
Proof.
  unfold train_step.
  destruct (word_index (targ_lang_tokenizer self) !! START) as [start|] eqn:Hs;
    [|now split].
  pose proof (forward_inputs start theta inp targ enc_hidden) as H.
  destruct (forward _ _ _ _ _ _ _) as [[l inputs] final]. simpl.
  split; [exists start; split; [reflexivity|now rewrite H]|].
  split.
  - apply (f_equal length) in H. rewrite length_app in H. simpl in H.
    rewrite length_map, length_seq in H. lia.
  - intros t Ht. rewrite H.
    destruct t as [|t]; [lia|]. simpl.
    rewrite list_lookup_fmap.
    rewrite lookup_seq_lt by lia. reflexivity.
Qed.

End TrainStepFacts.

(* ===================================================================== *)
(** * Properties of the attention module                                  *)
(* ===================================================================== *)

Section AttentionFacts.

Open Scope R_scope.

Lemma rsum_exp_pos (scores : vec) : scores <> [] -> 0 < rsum (map exp scores).
Proof.
  destruct scores as [|s scores]; [congruence|]. intros _. simpl.
  assert (H : 0 <= rsum (map exp scores)).
  { induction scores as [|x xs IH]; simpl; [lra|].
    pose proof (exp_pos x). lra. }
  pose proof (exp_pos s). lra.
Qed.

Lemma rsum_map_div (d : R) (l : vec) :
  rsum (map (fun x => x / d) l) = rsum l / d.
Proof.
  induction l as [|x l IH]; simpl; [unfold Rdiv; lra|].
  rewrite IH. unfold Rdiv. lra.
Qed.

(** The softmax of a non-empty vector sums to 1. *)
Lemma softmax_sum (scores : vec) : scores <> [] -> rsum (softmax scores) = 1.
Proof.
  intros H. unfold softmax.
  pose proof (rsum_exp_pos scores H) as Hpos.
  replace (map (fun s => exp s / rsum (map exp scores)) scores)
    with (map (fun x => x / rsum (map exp scores)) (map exp scores))
    by now rewrite map_map.
  rewrite rsum_map_div. field. lra.
Qed.

Variables W1 W2 : vec -> vec.
Variable V : vec -> R.

Lemma attention_score_length query values :
  length (attention_score W1 W2 V query values) = length values.
Proof.
  unfold attention_score, broadcast_add_time. simpl.
  now rewrite !length_map.
Qed.

Lemma attend_weights_sum query values :
  values <> [] ->
  rsum (weights_over_time (snd (attend W1 W2 V query values))) = 1.
Proof.
  intros H. unfold attend, weights_over_time, softmax_time. simpl.
  rewrite map_map. simpl. rewrite map_id.
  apply softmax_sum. intros E. apply H.
  apply (f_equal length) in E. rewrite length_map, attention_score_length in E.
  now destruct values.
Qed.

End AttentionFacts.


(* ===================================================================== *)
(** * Properties of dictionaries and of the fitted tokenizer              *)
(* ===================================================================== *)

Section DictFacts.

Context `{Countable K} {V : Type}.

Lemma dict_of_acc_lookup (pairs : list (K * V)) (m : gmap K V) k v :
  fold_left (fun m kv => <[fst kv := snd kv]> m) pairs m !! k = Some v ->
  (k, v) ∈ pairs \/ m !! k = Some v.
Proof.
  revert m. induction pairs as [|[k' v'] pairs IH]; intros m Hl; simpl in *.
  - now right.
  - apply IH in Hl as [Hin|Hl].
    + left. now apply list_elem_of_further.
    + destruct (decide (k' = k)) as [->|Hne].
      * rewrite lookup_insert_eq in Hl. injection Hl as ->.
        left. apply list_elem_of_here.
      * rewrite lookup_insert_ne in Hl by exact Hne. now right.
Qed.

Lemma dict_of_lookup_Some (pairs : list (K * V)) k v :
  dict_of pairs !! k = Some v -> (k, v) ∈ pairs.
Proof.
  intros Hl. apply dict_of_acc_lookup in Hl as [Hin|Hl]; [exact Hin|].
  now rewrite lookup_empty in Hl.
Qed.

End DictFacts.

Lemma ids_from_1_positive n i : i ∈ ids_from_1 n -> (1 <= i <= Z.of_nat n)%Z.
Proof.
  unfold ids_from_1. intros Hi.
  apply list_elem_of_fmap in Hi as (j & -> & Hj).
  apply elem_of_seq in Hj. lia.
Qed.

(** The id 0 is never given to a word. *)
Lemma index_word_0 U texts : index_word (fit_on_texts U texts) !! 0%Z = None.
Proof.
  destruct (index_word (fit_on_texts U texts) !! 0%Z) as [w|] eqn:E;
    [|reflexivity].
  simpl in E. apply dict_of_lookup_Some in E.
  apply elem_of_zip_l in E. apply ids_from_1_positive in E. lia.
Qed.

(* ===================================================================== *)
(** * Properties of greedy decoding                                       *)
(* ===================================================================== *)

Section EvaluateFacts.

Context (U : UnicodeData) {Params : Type}.
Context (encoder :
  Params -> list (list Z) -> list vec -> list (list vec) * list vec).
Context (decoder :
  Params -> list (list Z) -> list vec -> list (list vec)
  -> list vec * list vec * list (list vec)).

Lemma decode_loop_steps self theta enc_out n dec_input dec_hidden translation :
  (length (snd (decode_loop decoder self theta enc_out n dec_input dec_hidden
                  translation)) <= n)%nat.
Proof.
  revert dec_input dec_hidden translation.
  induction n as [|n IH]; intros dec_input dec_hidden translation; simpl; [lia|].
  destruct (decoder theta [[dec_input]] dec_hidden enc_out) as [[p h] a].
  destruct (index_word _ !! _) as [w|]; [|simpl; lia].
  destruct (decide (w = END)); [simpl; lia|].
  specialize (IH (argmax (hd [] p)) h (translation ++ w ++ [SPACE])).
  destruct (decode_loop _ _ _ _ _ _ _ _) as [o l]. simpl in *. lia.
Qed.

Lemma decode_loop_returns self theta enc_out n dec_input dec_hidden translation :
  match decode_loop decoder self theta enc_out n dec_input dec_hidden translation with
  | (inr out, log) =>
      exists ws, out = translation ++ spaced ws /\ emitted_by self log ws
  | (inl _, _) => True
  end.
Proof.
  revert dec_input dec_hidden translation.
  induction n as [|n IH]; intros dec_input dec_hidden translation; simpl.
  - exists []. unfold spaced, emitted_by. simpl. rewrite app_nil_r.
    split; [reflexivity|]. split; [constructor|].
    split; [constructor|now left].
  - destruct (decoder theta [[dec_input]] dec_hidden enc_out) as [[p h] a].
    destruct (index_word _ !! _) as [w|] eqn:Hw; [|exact I].
    destruct (decide (w = END)) as [->|Hne].
    + exists []. unfold spaced, emitted_by. simpl. rewrite app_nil_r.
      split; [reflexivity|]. split; [constructor|].
      split; [constructor|]. right. eexists. split; [reflexivity|].
      exact Hw.
    + specialize (IH (argmax (hd [] p)) h (translation ++ w ++ [SPACE])).
      destruct (decode_loop _ _ _ _ _ _ _ _) as [[e|out] log]; [exact I|].
      destruct IH as (ws & -> & Hall & Hws & Hlast).
      exists (w :: ws). unfold spaced in *. simpl.
      split; [now rewrite <- !app_assoc|].
      split; [now constructor|]. split.
      * simpl. constructor; [exact Hw|exact Hws].
      * destruct Hlast as [Hlen|(st & Hlog & Hst)].
        -- left. simpl. now rewrite Hlen.
        -- right. exists st. split; [|exact Hst]. simpl.
           now rewrite <- Hlog.
Qed.

(** A step that chooses an id without a word ends the loop with a
    lookup error for that id. *)
Lemma decode_loop_missing_id self theta enc_out n dec_input dec_hidden translation st :
  st ∈ snd (decode_loop decoder self theta enc_out n dec_input dec_hidden translation) ->
  index_word (targ_lang_tokenizer self) !! predicted st = None ->
  fst (decode_loop decoder self theta enc_out n dec_input dec_hidden translation)
  = inl (KeyError_int (predicted st)).
Proof.
  revert dec_input dec_hidden translation.
  induction n as [|n IH]; intros dec_input dec_hidden translation; simpl.
  - intros Hin. now apply elem_of_nil in Hin.
  - destruct (decoder theta [[dec_input]] dec_hidden enc_out) as [[p h] a].
    destruct (index_word _ !! argmax (hd [] p)) as [w|] eqn:Hw.
    + destruct (decide (w = END)) as [->|Hne]; simpl.
      * intros Hin Hst. apply list_elem_of_singleton in Hin. subst st.
        simpl in Hst. congruence.
      * specialize (IH (argmax (hd [] p)) h (translation ++ w ++ [SPACE])).
        destruct (decode_loop _ _ _ _ _ _ _ _) as [o l]. simpl in *.
        intros Hin Hst. apply elem_of_cons in Hin as [->|Hin].
        -- simpl in Hst. congruence.
        -- now apply IH.
    + simpl. intros Hin _. apply list_elem_of_singleton in Hin. now subst st.
Qed.

(** C3.  Greedy inference is a total function: on every sentence it
    stops, having called the decoder at most [max_length_targ] times;
    and when it returns a translation, that string is the words chosen
    by the decoder calls, each followed by a space, none of them the
    end marker: a call that chooses the end marker ends the loop and
    adds nothing. *)
Theorem evaluate_bounded_and_omits_end_marker
    (self : TranslatorModel) (theta : Params) (sentence : pystr) :
  let '(outcome, log) := evaluate U encoder decoder self theta sentence in
  (length log <= max_length_targ self)%nat
  /\ match outcome with
     | inr (translation, _) =>
         exists ws, translation = spaced ws /\ (END ∉ ws) /\ emitted_by self log ws
     | inl _ => True
     end.
Proof.
  unfold evaluate.
  destruct (bind _ _) as [e|inputs]; [simpl; split; [lia|exact I]|].
  destruct (encoder theta inputs _) as [enc_out enc_hidden].
  destruct (word_index _ !! START) as [start|]; [|simpl; split; [lia|exact I]].
  pose proof (decode_loop_steps self theta enc_out (max_length_targ self)
                start enc_hidden []) as Hsteps.
  pose proof (decode_loop_returns self theta enc_out (max_length_targ self)
                start enc_hidden []) as Hret.
  destruct (decode_loop _ _ _ _ _ _ _ _) as [[e|out] log]; simpl in *.
  - split; [exact Hsteps|exact I].
  - split; [exact Hsteps|].
    destruct Hret as (ws & -> & Hem). exists ws.
    split; [reflexivity|]. split; [|exact Hem].
    destruct Hem as (Hall & _). rewrite Forall_forall in Hall.
    intros Hin. now apply (Hall END Hin).
Qed.

Lemma try_map_lookup_fail (m : gmap pystr Z) (l : list pystr) tok :
  tok ∈ l -> m !! tok = None ->
  exists missing,
    try_map (fun i => match m !! i with
                      | Some id => ret id
                      | None => raise (KeyError_str i)
                      end) l = inl (KeyError_str missing)
    /\ missing ∈ l /\ m !! missing = None.
Proof.
  induction l as [|x l IH]; intros Hin Hnone.
  - now apply elem_of_nil in Hin.
  - simpl. destruct (m !! x) as [id|] eqn:Hx.
    + apply elem_of_cons in Hin as [->|Hin]; [congruence|].
      destruct (IH Hin Hnone) as (missing & -> & Hm & Hn).
      exists missing. simpl. split; [reflexivity|].
      split; [now apply list_elem_of_further|exact Hn].
    + exists x. simpl. split; [reflexivity|].
      split; [apply list_elem_of_here|exact Hx].
Qed.

(** C7.  When a token of the preprocessed input sentence has no id in
    the source vocabulary, [evaluate] raises the [KeyError] of such a
    token before any decoder call, and returns no translation. *)
Theorem evaluate_unknown_token_raises
    (self : TranslatorModel) (theta : Params) (sentence tok : pystr) :
  tok ∈ split_on SPACE (preprocess_sentence U sentence) ->
  word_index (inp_lang_tokenizer self) !! tok = None ->
  exists missing,
    evaluate U encoder decoder self theta sentence
    = (inl (KeyError_str missing), [])
    /\ missing ∈ split_on SPACE (preprocess_sentence U sentence)
    /\ word_index (inp_lang_tokenizer self) !! missing = None.
Proof.
  intros Hin Hnone.
  destruct (try_map_lookup_fail _ _ _ Hin Hnone) as (missing & Htry & Hm & Hn).
  exists missing. unfold evaluate. rewrite Htry. simpl. auto.
Qed.

(** C9.  With a target vocabulary built by the tokenizer, a decoding
    step whose argmax is the padding id 0 finds no word for it: the
    routine raises [KeyError] for 0 and returns no translation. *)
Theorem evaluate_padding_id_raises
    (self : TranslatorModel) (theta : Params) (sentence : pystr)
    (U' : UnicodeData) (texts : list pystr) (st : DecodeStep) :
  targ_lang_tokenizer self = fit_on_texts U' texts ->
  st ∈ snd (evaluate U encoder decoder self theta sentence) ->
  predicted st = 0%Z ->
  fst (evaluate U encoder decoder self theta sentence) = inl (KeyError_int 0).
Proof.
  intros Htk. unfold evaluate.
  destruct (bind _ _) as [e|inputs];
    [simpl; intros Hin; now apply elem_of_nil in Hin|].
  destruct (encoder theta inputs _) as [enc_out enc_hidden].
  destruct (word_index _ !! START) as [start|];
    [|simpl; intros Hin; now apply elem_of_nil in Hin].
  pose proof (decode_loop_missing_id self theta enc_out (max_length_targ self)
                start enc_hidden [] st) as Hmiss.
  destruct (decode_loop _ _ _ _ _ _ _ _) as [o log]. simpl in *.
  intros Hin H0. rewrite H0 in Hmiss. rewrite Hmiss; [reflexivity|exact Hin|].
  rewrite Htk. apply index_word_0.
Qed.

End EvaluateFacts.

Lemma evaluate_unknown_token_raises_witness :
  exists missing,
    evaluate basic_latin Demo.encoder Demo.decoder Demo.model tt (of_string "Run")
    = (inl (KeyError_str missing), [])
    /\ missing ∈ split_on SPACE (preprocess_sentence basic_latin (of_string "Run"))
    /\ word_index (inp_lang_tokenizer Demo.model) !! missing = None.
Proof.
  apply (evaluate_unknown_token_raises basic_latin Demo.encoder Demo.decoder
           Demo.model tt (of_string "Run") (of_string "run")).
  - apply list_elem_of_In. vm_compute. right. left. reflexivity.
  - vm_compute. reflexivity.
Defined.

Lemma argmax_first_largest : argmax [1; 0; 0; 0; 0]%R = 0%Z.
Proof.
  unfold argmax, argmax_from.
  repeat (destruct (Rlt_dec _ _) as [Hlt|_]; [lra|]). reflexivity.
Qed.

Lemma demo_evaluate_go :
  evaluate basic_latin Demo.encoder Demo.decoder Demo.model tt (of_string "Go.")
  = (inl (KeyError_int 0), [{| fed := 1; predicted := 0 |}]).
Proof.
  unfold evaluate.
  replace (bind _ _) with (@inr exn _ [[1; 2; 3; 4]%Z])
    by (vm_compute; reflexivity).
  cbn [Demo.encoder].
  replace (word_index (targ_lang_tokenizer Demo.model) !! START) with (Some 1%Z)
    by (vm_compute; reflexivity).
  cbn [Demo.model max_length_targ decode_loop Demo.decoder hd].
  rewrite argmax_first_largest.
  replace (index_word (targ_lang_tokenizer Demo.model) !! 0%Z) with (@None pystr)
    by (vm_compute; reflexivity).
  reflexivity.
Qed.

Lemma evaluate_padding_id_raises_witness :
  fst (evaluate basic_latin Demo.encoder Demo.decoder Demo.model tt (of_string "Go."))
  = inl (KeyError_int 0).
Proof.
  apply (evaluate_padding_id_raises basic_latin Demo.encoder Demo.decoder
           Demo.model tt (of_string "Go.") basic_latin Demo.texts
           {| fed := 1; predicted := 0 |}).
  - reflexivity.
  - rewrite demo_evaluate_go. apply list_elem_of_here.
  - reflexivity.
Defined.

(* ===================================================================== *)
(** * Properties of the training loop and of the entry point              *)
(* ===================================================================== *)

Section TrainFacts.

Context (U : UnicodeData) {Params : Type}.
Context (encoder :
  Params -> list (list Z) -> list vec -> list (list vec) * list vec).
Context (decoder :
  Params -> list (list Z) -> list vec -> list (list vec)
  -> list vec * list vec * list (list vec)).
Context (apply_gradients : Params -> (Params -> R) -> Params).
Context (permutation : nat -> list nat).
Context (shuffle : nat -> list (list Z * list Z) -> list (list Z * list Z)).
Context (py_int : pystr -> option Z) (corpus_file : pystr -> pystr).
Context (init_params : TranslatorModel -> Params).
Context (reload_responds : nat -> bool).

Local Abbreviation train_loop' := (train_loop encoder decoder apply_gradients shuffle).
Local Abbreviation train' := (train encoder decoder apply_gradients shuffle).
Local Abbreviation service_loop' :=
  (service_loop encoder decoder apply_gradients shuffle reload_responds).
Local Abbreviation main' :=
  (main U encoder decoder apply_gradients permutation shuffle py_int
        corpus_file init_params reload_responds).

(** A call of [train] runs at most as many epochs as it is asked for,
    and exactly as many when it returns. *)
Lemma train_loop_epochs self theta epochs k :
  (length (snd (train_loop' self theta epochs k)) <= length epochs)%nat
  /\ forall theta',
       fst (train_loop' self theta epochs k) = inr theta' ->
       length (snd (train_loop' self theta epochs k)) = length epochs.
Proof.
  revert theta k. induction epochs as [|epoch rest IH]; intros theta k; simpl.
  - split; [lia|reflexivity].
  - destruct (run_batches _ _ _ _ _ _ _ _ _) as [[[e|theta1] total] steps].
    + simpl. split; [lia|discriminate].
    + destruct (steps_per_epoch self =? 0)%nat.
      * simpl. split; [lia|discriminate].
      * specialize (IH theta1 (S k)).
        destruct (train_loop' self theta1 rest (S k)) as [o l]. simpl in *.
        destruct IH as [IH1 IH2]. split; [lia|].
        intros theta' E. now rewrite (IH2 theta' E).
Qed.

Lemma train_epochs self theta epochs k :
  (length (snd (train' self theta epochs k)) <= Z.to_nat epochs)%nat
  /\ forall theta',
       fst (train' self theta epochs k) = inr theta' ->
       length (snd (train' self theta epochs k)) = Z.to_nat epochs.
Proof.
  unfold train.
  destruct (train_loop_epochs self theta (seq 0 (Z.to_nat epochs)) k) as [H1 H2].
  rewrite length_seq in *. split; [exact H1|exact H2].
Qed.

Lemma calls_run_nil epochs (outcome : result Params) : calls_run epochs outcome [].
Proof.
  split; [constructor|]. split; [constructor|]. left. constructor.
Qed.

Lemma service_loop_calls n self theta epochs round k :
  let '(outcome, calls) := service_loop' n self theta epochs round k in
  calls_run epochs outcome calls.
Proof.
  revert theta round k. induction n as [|n IH]; intros theta round k; simpl.
  - apply calls_run_nil.
  - pose proof (train_epochs self theta epochs k) as [Hle Heq].
    destruct (train' self theta epochs k) as [[e|theta1] log]; simpl in *.
    + split; [repeat constructor|]. split; [repeat constructor; exact Hle|].
      right. exists [], {| call_epochs := epochs; call_log := log |}, e.
      repeat split. constructor.
    + specialize (Heq theta1 eq_refl).
      destruct (reload_responds round).
      * specialize (IH theta1 (S round) (k + Z.to_nat epochs)%nat).
        destruct (service_loop' n self theta1 epochs (S round) _) as [o calls].
        destruct IH as (Ha & Hb & Hc).
        split; [now constructor|]. split; [constructor; [simpl; lia|exact Hb]|].
        destruct Hc as [Hall|(init & last & e & -> & -> & Hinit)].
        -- left. now constructor.
        -- right. exists ({| call_epochs := epochs; call_log := log |} :: init), last, e.
           split; [reflexivity|]. split; [reflexivity|]. now constructor.
      * split; [repeat constructor|]. split; [repeat constructor; simpl; lia|].
        left. repeat constructor. exact Heq.
Qed.

(** The calls the service loop has made after [n] rounds: one for each
    round when no exception ended it, and the first one in any case. *)
Lemma service_loop_made_calls n self theta epochs round k :
  let '(outcome, calls) := service_loop' n self theta epochs round k in
  (length calls <= n)%nat
  /\ (forall theta', outcome = inr theta' -> length calls = n)
  /\ ((0 < n)%nat ->
      exists rest,
        calls = {| call_epochs := epochs;
                   call_log := snd (train' self theta epochs k) |} :: rest).
Proof.
  revert theta round k. induction n as [|n IH]; intros theta round k; simpl.
  - split; [lia|]. split; [reflexivity|lia].
  - destruct (train' self theta epochs k) as [[e|theta1] log]; simpl.
    + split; [lia|]. split; [discriminate|]. intros _. now exists [].
    + destruct (reload_responds round).
      * specialize (IH theta1 (S round) (k + Z.to_nat epochs)%nat).
        destruct (service_loop' n self theta1 epochs (S round) _) as [o calls].
        destruct IH as (Hle & Hlen & _). simpl.
        split; [lia|]. split; [|intros _; now exists calls].
        intros theta' Ho. now rewrite (Hlen theta' Ho).
      * simpl. split; [lia|]. split; [discriminate|]. intros _. now exists [].
Qed.


End TrainFacts.


(* ===================================================================== *)
(** * Properties of the loaded data set                                   *)
(* ===================================================================== *)

Section SplitFacts.

Lemma try_map_length {A B} (f : A -> result B) l l' :
  try_map f l = inr l' -> length l' = length l.
Proof.
  revert l'. induction l as [|a l IH]; simpl; intros l' E.
  - injection E as <-. reflexivity.
  - destruct (f a) as [e|b]; simpl in E; [discriminate|].
    destruct (try_map f l) as [e|bs]; simpl in E; [discriminate|].
    injection E as <-. simpl. f_equal. now apply IH.
Qed.

Lemma pad_sequences_length s m t :
  pad_sequences s m = inr t -> length t = length s.
Proof.
  unfold pad_sequences. destruct m as [m|]; [apply try_map_length|].
  destruct s; [discriminate|apply try_map_length].
Qed.

Lemma tokenize_inv U lang t tk :
  tokenize U lang = inr (t, tk) ->
  length t = length lang /\ tk = fit_on_texts U lang.
Proof.
  unfold tokenize.
  destruct (pad_sequences _ None) as [e|t'] eqn:E; simpl; [discriminate|].
  intros H. injection H as <- <-. apply pad_sequences_length in E.
  unfold texts_to_sequences in E. rewrite length_map in E. now split.
Qed.

Lemma zip_star_length {A} (d : A) rows c :
  c ∈ zip_star d rows -> length c = length rows.
Proof.
  destruct rows as [|r rs]; simpl.
  - intros H. now apply elem_of_nil in H.
  - intros H. apply list_elem_of_fmap in H as (j & -> & _).
    simpl. now rewrite length_map.
Qed.

Lemma n_test_le n : (n_test n <= n)%nat.
Proof.
  unfold n_test.
  pose proof (Nat.div_mod_eq (n + 4) 5).
  pose proof (Nat.mod_upper_bound (n + 4) 5). lia.
Qed.

(** The training part has [floor (0.8 * n)] samples, fewer than [n]. *)
Lemma n_train_floor n : Z.of_nat (n_train n) = (4 * Z.of_nat n / 5)%Z.
Proof.
  unfold n_train, n_test.
  pose proof (Nat.div_mod_eq (n + 4) 5).
  pose proof (Nat.mod_upper_bound (n + 4) 5).
  Z.div_mod_to_equations. lia.
Qed.

Lemma n_train_lt n : (n <> 0 -> n_train n < n)%nat.
Proof.
  unfold n_train, n_test.
  pose proof (Nat.div_mod_eq (n + 4) 5).
  pose proof (Nat.mod_upper_bound (n + 4) 5). lia.
Qed.

Lemma steps_floor n :
  Z.of_nat (n_train n / BATCH_SIZE) = (4 * Z.of_nat n / 5 / 64)%Z.
Proof.
  rewrite <- n_train_floor. unfold BATCH_SIZE.
  rewrite Nat2Z.inj_div. reflexivity.
Qed.

Lemma split_indices perm n :
  perm ≡ₚ seq 0 n ->
  ind_test perm n ++ ind_train perm n = perm
  /\ length (ind_test perm n) = n_test n
  /\ length (ind_train perm n) = n_train n.
Proof.
  intros Hp. apply Permutation_length in Hp. rewrite length_seq in Hp.
  pose proof (n_test_le n) as Hle.
  unfold ind_test, ind_train.
  assert (Hd : length (drop (n_test n) perm) = n_train n).
  { rewrite length_drop. unfold n_train. lia. }
  rewrite (take_ge (drop _ _)) by lia.
  rewrite take_drop. split; [reflexivity|]. split; [|exact Hd].
  rewrite length_take. lia.
Qed.

Lemma index_rows_ext {A} (d : A) idx a a' :
  (forall i, i ∈ idx -> nth i a d = nth i a' d) ->
  index_rows d idx a = index_rows d idx a'.
Proof.
  intros H. unfold index_rows. apply map_ext_in. intros i Hi.
  apply H. now apply list_elem_of_In.
Qed.

Lemma zip_index_rows {A B} (da : A) (db : B) idx a b :
  zip (index_rows da idx a) (index_rows db idx b)
  = map (fun i => (nth i a da, nth i b db)) idx.
Proof.
  unfold index_rows. induction idx as [|i idx IH]; simpl; [reflexivity|].
  now rewrite IH.
Qed.

Lemma batch_drop_spec {A} n fuel (l : list A) :
  (0 < n)%nat -> (length l <= fuel)%nat ->
  length (batch_drop fuel n l) = (length l / n)%nat
  /\ Forall (fun b => length b = n /\ b ⊆ l) (batch_drop fuel n l).
Proof.
  intros Hn. revert l. induction fuel as [|fuel IH]; intros l Hl; simpl.
  - split; [|constructor]. destruct l; [|simpl in Hl; lia].
    simpl. symmetry. now apply Nat.div_small.
  - destruct (n <=? length l)%nat eqn:E; simpl.
    + apply Nat.leb_le in E.
      assert (Hn' : (0 <? n)%nat = true) by now apply Nat.ltb_lt.
      rewrite Hn'.
      destruct (IH (drop n l)) as [IHlen IHall].
      { rewrite length_drop. lia. }
      split.
      * simpl. rewrite IHlen, length_drop.
        replace (length l) with ((length l - n) + 1 * n)%nat at 2 by lia.
        rewrite Nat.div_add by lia. lia.
      * constructor.
        -- split; [rewrite length_take; lia|].
           intros x Hx. rewrite <- (take_drop n l). apply elem_of_app. now left.
        -- eapply Forall_impl; [exact IHall|]. intros b [Hb Hsub].
           split; [exact Hb|]. intros x Hx.
           rewrite <- (take_drop n l). apply elem_of_app. right. now apply Hsub.
    + apply Nat.leb_gt in E. split; [|constructor].
      simpl. symmetry. now apply Nat.div_small.
Qed.

Lemma batch_spec {A} n (l : list A) :
  (0 < n)%nat ->
  length (batch n l) = (length l / n)%nat
  /\ Forall (fun b => length b = n /\ b ⊆ l) (batch n l).
Proof. intros Hn. now apply batch_drop_spec. Qed.

Lemma zip_fst_snd {A B} (b : list (A * B)) : zip (map fst b) (map snd b) = b.
Proof.
  induction b as [|[x y] b IH]; simpl; [reflexivity|]. now rewrite IH.
Qed.

End SplitFacts.

(* ===================================================================== *)
(** * Properties of the masked loss                                       *)
(* ===================================================================== *)

Section LossFacts.

Open Scope R_scope.

Local Abbreviation float32 := Float32.float32.
Local Abbreviation Finite := Float32.Finite.
Local Abbreviation PInf := Float32.PInf.
Local Abbreviation NInf := Float32.NInf.
Local Abbreviation NaN := Float32.NaN.

Variable round : R -> float32.
Variables exp_finite log_finite : R -> float32.

Local Abbreviation mul := (Float32.mul round).
Local Abbreviation reduce_sum := (Float32.reduce_sum round).
Local Abbreviation reduce_mean := (Float32.reduce_mean round).
Local Abbreviation sparse_categorical_crossentropy :=
  (Float32.sparse_categorical_crossentropy round exp_finite log_finite).
Local Abbreviation loss_object :=
  (Float32.loss_object round exp_finite log_finite).
Local Abbreviation masked_loss := (Float32.masked_loss round).
Local Abbreviation loss_function :=
  (Float32.loss_function round exp_finite log_finite).

(** A finite value times the mask of a padded position is 0, since 0 is
    a float32; an infinity or NaN times it is NaN. *)
Lemma mul_finite_0 x : round 0 = Finite 0 -> mul (Finite x) (Finite 0) = Finite 0.
Proof. intros H0. cbn [Float32.mul]. now rewrite Rmult_0_r. Qed.

Lemma mul_not_finite_0 (a : float32) :
  Float32.is_finite a = false -> mul a (Finite 0) = NaN.
Proof.
  destruct a as [x| | |]; [discriminate| | |]; intros _; cbn [Float32.mul];
    try reflexivity; unfold Float32.inf_times;
    destruct (Req_dec_T 0 0); congruence.
Qed.

Lemma reduce_sum_NaN (l : list float32) : NaN ∈ l -> reduce_sum l = NaN.
Proof.
  induction l as [|a l IH]; intros H; [now apply elem_of_nil in H|].
  unfold Float32.reduce_sum in *. cbn [foldr].
  apply elem_of_cons in H as [<-|H]; [reflexivity|].
  rewrite (IH H). now destruct a.
Qed.

Lemma reduce_mean_NaN (l : list float32) : NaN ∈ l -> reduce_mean l = NaN.
Proof.
  intros H. unfold Float32.reduce_mean. rewrite (reduce_sum_NaN l H).
  destruct l; [now apply elem_of_nil in H|reflexivity].
Qed.

Lemma try_map_lookup {A B} (f : A -> result B) (l : list A) l' i a :
  try_map f l = inr l' -> l !! i = Some a ->
  exists v, f a = inr v /\ l' !! i = Some v.
Proof.
  revert l' i. induction l as [|x l IH]; intros l' i; simpl.
  - intros _ H. discriminate H.
  - destruct (f x) as [e|v] eqn:Ef; simpl; [discriminate|].
    destruct (try_map f l) as [e|vs] eqn:Et; simpl; [discriminate|].
    intros [= <-]. destruct i as [|i]; simpl.
    + intros [= <-]. eauto.
    + intros H. exact (IH vs i eq_refl H).
Qed.

(** What a call of [loss_object] that returns has computed. *)
Lemma loss_object_inv real pred loss_ :
  loss_object real pred = inr loss_ ->
  length pred = length real
  /\ length loss_ = length real
  /\ forall i r p,
       real !! i = Some r -> pred !! i = Some p ->
       exists v,
         sparse_categorical_crossentropy r p = inr v /\ loss_ !! i = Some v.
Proof.
  unfold Float32.loss_object.
  destruct (_ && _) eqn:G; [|discriminate].
  apply andb_true_iff in G as [G _]. apply Nat.eqb_eq in G.
  intros H. split; [exact G|]. split.
  - apply try_map_length in H. rewrite H, length_zip_with. lia.
  - intros i r p Hr Hp.
    assert (Hz : zip real pred !! i = Some (r, p)).
    { apply lookup_zip_with_Some. now exists r, p. }
    destruct (try_map_lookup _ _ _ i (r, p) H Hz) as (v & Hv & Hl). eauto.
Qed.

Lemma masked_loss_at (loss_ : list float32) real b l r :
  loss_ !! b = Some l -> real !! b = Some r ->
  masked_loss loss_ real !! b
  = Some (mul l (if (r =? 0)%Z then Finite 0 else Finite 1)).
Proof.
  intros Hl Hr. unfold Float32.masked_loss, Float32.padding_mask.
  apply lookup_zip_with_Some. eexists _, _. split; [reflexivity|].
  split; [exact Hl|]. now rewrite list_lookup_fmap, Hr.
Qed.

(** C2.  A position of the batch whose true token id is 0 (padding),
    in float32 arithmetic, whatever its rounding: when the
    cross-entropy computed there is finite, its product with the mask
    is exactly 0, and the value of [loss_function], which is what a
    time step adds to the accumulated training loss, does not change
    when the logits of that position are replaced by any others of
    finite cross-entropy; when it is an infinity or NaN, the product is
    NaN and so is the loss of the whole batch. *)
Theorem padding_contributes_zero_loss
    (real : list Z) (pred : list (list float32)) (b : nat)
    (loss_ : list float32) (l : float32) :
  round 0 = Finite 0 ->
  real !! b = Some 0%Z ->
  loss_object real pred = inr loss_ ->
  loss_ !! b = Some l ->
  (Float32.is_finite l = true ->
     masked_loss loss_ real !! b = Some (Finite 0)
     /\ forall logits loss_' l',
          loss_object real (<[b := logits]> pred) = inr loss_' ->
          loss_' !! b = Some l' ->
          Float32.is_finite l' = true ->
          loss_function real (<[b := logits]> pred) = loss_function real pred)
  /\ (Float32.is_finite l = false ->
        masked_loss loss_ real !! b = Some NaN
        /\ loss_function real pred = inr NaN).
Proof.
  intros H0 Hb Hobj Hl.
  pose proof (masked_loss_at loss_ real b l 0%Z Hl Hb) as Hm.
  change (0 =? 0)%Z with true in Hm. cbv iota in Hm.
  split.
  - intros Hfin. destruct l as [x| | |]; try discriminate Hfin.
    rewrite (mul_finite_0 x H0) in Hm. split; [exact Hm|].
    intros logits loss_' l' Hobj' Hl' Hfin'.
    destruct l' as [x'| | |]; try discriminate Hfin'.
    unfold Float32.loss_function. rewrite Hobj, Hobj'. simpl.
    do 2 f_equal. apply list_eq. intros i.
    destruct (loss_object_inv _ _ _ Hobj) as (Hlp & Hll & Hat).
    destruct (loss_object_inv _ _ _ Hobj') as (Hlp' & Hll' & Hat').
    destruct (decide (i = b)) as [->|Hne].
    + pose proof (masked_loss_at loss_' real b _ 0%Z Hl' Hb) as Hm'.
      change (0 =? 0)%Z with true in Hm'. cbv iota in Hm'.
      rewrite (mul_finite_0 x' H0) in Hm'. now rewrite Hm, Hm'.
    + assert (E : loss_' !! i = loss_ !! i).
      { destruct (real !! i) as [r|] eqn:Hr.
        - assert (Hp : is_Some (pred !! i)).
          { apply lookup_lt_is_Some. rewrite Hlp.
            now apply lookup_lt_Some in Hr. }
          destruct Hp as [p Hp].
          destruct (Hat i r p Hr Hp) as (v & Hv & ->).
          destruct (Hat' i r p Hr) as (v' & Hv' & ->);
            [now rewrite list_lookup_insert_ne|].
          congruence.
        - apply lookup_ge_None in Hr.
          rewrite (proj2 (lookup_ge_None loss_ i)) by lia.
          apply lookup_ge_None. lia. }
      unfold Float32.masked_loss. now rewrite !lookup_zip_with, E.
  - intros Hfin. rewrite (mul_not_finite_0 l Hfin) in Hm. split; [exact Hm|].
    unfold Float32.loss_function. rewrite Hobj. simpl. f_equal.
    apply reduce_mean_NaN. apply list_elem_of_lookup. now exists b.
Qed.

(** Two finite logits further apart than the range of float32, in
    every arithmetic in which 0 and 1 are float32 values, the
    difference [-2^128] is rounded to minus infinity, and the
    exponential of 0 and the logarithm of 1 are exact: the shifted
    logit of the smaller one is minus infinity, and so its
    cross-entropy is infinite. *)
Lemma crossentropy_wide :
  round 0 = Finite 0 -> round 1 = Finite 1 ->
  round (- 2 ^ 128) = NInf ->
  exp_finite 0 = Finite 1 -> log_finite 1 = Finite 0 ->
  sparse_categorical_crossentropy 0 [Finite (- 2 ^ 127); Finite (2 ^ 127)]
  = inr PInf.
Proof.
  intros H0 H1 Hinf He Hl.
  assert (Hx : 1 <= 2 ^ 127) by (apply pow_R1_Rle; lra).
  change (2 ^ 128) with (2 * 2 ^ 127) in Hinf.
  set (x := 2 ^ 127) in *.
  unfold Float32.sparse_categorical_crossentropy.
  change ((0 <=? 0)%Z && (0 <? Z.of_nat (length [Finite (- x); Finite x]))%Z)
    with true. cbv iota zeta.
  unfold Float32.reduce_max. cbn [foldr Float32.maximum map].
  rewrite Rmax_right by lra.
  unfold Float32.sub. cbn [Float32.opp Float32.add].
  replace (- x + - x) with (- (2 * x)) by lra. rewrite Hinf.
  replace (x + - x) with 0 by lra. rewrite H0.
  cbn [map Float32.exp]. rewrite He.
  unfold Float32.reduce_sum. cbn [foldr Float32.add].
  replace (1 + 0) with 1 by lra. rewrite H1.
  cbn [Float32.add]. replace (0 + 1) with 1 by lra. rewrite H1.
  unfold Float32.log.
  destruct (Rlt_dec 1 0); [lra|]. destruct (Req_dec_T 1 0); [lra|].
  rewrite Hl. reflexivity.
Qed.

(** The batch with these logits at its padded position: the loss is
    NaN. *)
Lemma loss_function_wide :
  round 0 = Finite 0 -> round 1 = Finite 1 ->
  round (- 2 ^ 128) = NInf ->
  exp_finite 0 = Finite 1 -> log_finite 1 = Finite 0 ->
  (exists loss_,
      loss_object Float32.padded_batch Float32.wide_logits = inr loss_
      /\ masked_loss loss_ Float32.padded_batch !! 0%nat = Some NaN)
  /\ loss_function Float32.padded_batch Float32.wide_logits = inr NaN.
Proof.
  intros H0 H1 Hinf He Hl.
  assert (Hobj : exists v,
             loss_object Float32.padded_batch Float32.wide_logits
             = inr [PInf; v]).
  { unfold Float32.loss_object, Float32.padded_batch, Float32.wide_logits.
    cbn [length Nat.eqb forallb shape1 hd andb zip zip_with try_map fst snd].
    rewrite (crossentropy_wide H0 H1 Hinf He Hl). cbn [bind].
    unfold Float32.sparse_categorical_crossentropy.
    change ((0 <=? 1)%Z && (1 <? Z.of_nat (length [Finite 0; Finite 0]))%Z)
      with true. cbv iota zeta. cbn [bind ret]. eexists. reflexivity. }
  destruct Hobj as [v Hobj].
  assert (Hm : masked_loss [PInf; v] Float32.padded_batch !! 0%nat = Some NaN).
  { unfold Float32.masked_loss, Float32.padded_batch.
    cbn [Float32.padding_mask map Z.eqb zip_with].
    now rewrite (mul_not_finite_0 PInf eq_refl). }
  split; [now exists [PInf; v]|].
  unfold Float32.loss_function. rewrite Hobj. cbn [bind]. unfold ret.
  f_equal. apply reduce_mean_NaN. apply list_elem_of_lookup. now exists 0%nat.
Qed.

End LossFacts.

(* ===================================================================== *)
(** * The masked loss on two batches                                      *)
(* ===================================================================== *)

Section LossRuns.

Open Scope R_scope.

Local Abbreviation Finite := Float32.Finite.
Local Abbreviation PInf := Float32.PInf.
Local Abbreviation NInf := Float32.NInf.
Local Abbreviation NaN := Float32.NaN.
Local Abbreviation HUGE := Float32.HUGE.
Local Abbreviation overflow := Float32.overflow.
Local Abbreviation exact_exp := Float32.exact_exp.
Local Abbreviation exact_log := Float32.exact_log.

Lemma HUGE_large : 4 <= HUGE.
Proof.
  unfold Float32.HUGE. change (2 ^ 128) with (2 * (2 * 2 ^ 126)).
  pose proof (pow_R1_Rle 2 126). lra.
Qed.

Lemma overflow_finite x : - HUGE < x < HUGE -> overflow x = Finite x.
Proof.
  intros [H1 H2]. unfold Float32.overflow.
  destruct (Rle_dec HUGE x); [lra|].
  destruct (Rle_dec x (- HUGE)); [lra|reflexivity].
Qed.

Lemma overflow_ninf x : x <= - HUGE -> overflow x = NInf.
Proof.
  intros H. pose proof HUGE_large. unfold Float32.overflow.
  destruct (Rle_dec HUGE x); [lra|].
  destruct (Rle_dec x (- HUGE)); [reflexivity|lra].
Qed.

Lemma ln_2_bounds : 0 < ln 2 < 2.
Proof.
  split.
  - rewrite <- ln_1. apply ln_increasing; lra.
  - rewrite <- (ln_exp 2) at 2. apply ln_increasing; [lra|].
    pose proof (exp_ineq1 2). lra.
Qed.

(** The five facts about the arithmetic that the overflowing batch
    needs hold of the arithmetic without rounding. *)
Lemma overflow_points :
  overflow 0 = Finite 0 /\ overflow 1 = Finite 1
  /\ overflow (- 2 ^ 128) = NInf
  /\ exact_exp 0 = Finite 1 /\ exact_log 1 = Finite 0.
Proof.
  pose proof HUGE_large as HH.
  split; [apply overflow_finite; lra|].
  split; [apply overflow_finite; lra|].
  split; [apply overflow_ninf; unfold Float32.HUGE; lra|].
  split.
  - unfold Float32.exact_exp. rewrite exp_0. apply overflow_finite. lra.
  - unfold Float32.exact_log. now rewrite ln_1.
Qed.

(** Two logits 0: the cross-entropy of either label is [ln 2]. *)
Lemma crossentropy_ordinary (label : Z) :
  (label = 0 \/ label = 1)%Z ->
  Float32.sparse_categorical_crossentropy overflow exact_exp exact_log label
    [Finite 0; Finite 0]
  = inr (Finite (ln 2)).
Proof.
  pose proof HUGE_large as HH. pose proof ln_2_bounds as Hln.
  intros Hlabel. unfold Float32.sparse_categorical_crossentropy.
  assert (G : (0 <=? label)%Z
              && (label <? Z.of_nat (length [Finite 0; Finite 0]))%Z = true).
  { destruct Hlabel as [-> | ->]; reflexivity. }
  rewrite G. cbv zeta.
  unfold Float32.reduce_max. cbn [foldr Float32.maximum map].
  rewrite Rmax_left by lra.
  unfold Float32.sub. cbn [Float32.opp Float32.add].
  replace (0 + - 0) with 0 by lra.
  rewrite (overflow_finite 0) by lra.
  cbn [map Float32.exp]. unfold Float32.exact_exp.
  rewrite exp_0, (overflow_finite 1) by lra.
  unfold Float32.reduce_sum. cbn [foldr Float32.add].
  replace (1 + 0) with 1 by lra. rewrite (overflow_finite 1) by lra.
  cbn [Float32.add]. replace (1 + 1) with 2 by lra.
  rewrite (overflow_finite 2) by lra.
  unfold Float32.log.
  destruct (Rlt_dec 2 0); [lra|]. destruct (Req_dec_T 2 0); [lra|].
  unfold Float32.exact_log.
  assert (E : nth (Z.to_nat label) [Finite 0; Finite 0] NaN = Finite 0).
  { destruct Hlabel as [-> | ->]; reflexivity. }
  rewrite E. cbn [Float32.opp Float32.add].
  replace (ln 2 + - 0) with (ln 2) by lra.
  now rewrite overflow_finite by lra.
Qed.

Lemma loss_object_ordinary :
  Float32.loss_object overflow exact_exp exact_log Float32.padded_batch
    Float32.ordinary_logits
  = inr [Finite (ln 2); Finite (ln 2)].
Proof.
  unfold Float32.loss_object, Float32.padded_batch, Float32.ordinary_logits.
  cbn [length Nat.eqb forallb shape1 hd andb zip zip_with try_map fst snd].
  rewrite !crossentropy_ordinary by auto. reflexivity.
Qed.

(** The loss of the batch with ordinary logits: half of [ln 2]. *)
Lemma loss_function_ordinary :
  Float32.loss_function overflow exact_exp exact_log Float32.padded_batch
    Float32.ordinary_logits
  = inr (Finite (ln 2 / 2)).
Proof.
  pose proof HUGE_large as HH. pose proof ln_2_bounds as Hln.
  unfold Float32.loss_function. rewrite loss_object_ordinary.
  cbn [bind]. unfold ret. f_equal.
  unfold Float32.masked_loss, Float32.padded_batch.
  cbn [Float32.padding_mask map Z.eqb zip_with Float32.mul].
  replace (ln 2 * 0) with 0 by lra. rewrite (overflow_finite 0) by lra.
  replace (ln 2 * 1) with (ln 2) by lra. rewrite (overflow_finite (ln 2)) by lra.
  unfold Float32.reduce_mean, Float32.reduce_sum. cbn [foldr Float32.add length].
  replace (ln 2 + 0) with (ln 2) by lra. rewrite (overflow_finite (ln 2)) by lra.
  cbn [Float32.add]. replace (0 + ln 2) with (ln 2) by lra.
  rewrite (overflow_finite (ln 2)) by lra.
  change (INR 2) with (1 + 1). replace (ln 2 / (1 + 1)) with (ln 2 / 2) by lra.
  apply overflow_finite. lra.
Qed.

End LossRuns.

(** The claim of C2 as it is written fails on the batch whose padded
    position has the logits [-2^127] and [2^127]: the masked loss there
    is NaN, and the loss of the batch is NaN where ordinary logits at
    the same position give half of [ln 2]. *)
Lemma padding_overflow_gives_nan :
  ~ Float32.padding_contributes_zero Float32.overflow Float32.exact_exp
      Float32.exact_log
  /\ Float32.loss_function Float32.overflow Float32.exact_exp Float32.exact_log
       Float32.padded_batch Float32.wide_logits
     = inr Float32.NaN
  /\ Float32.loss_function Float32.overflow Float32.exact_exp Float32.exact_log
       Float32.padded_batch Float32.ordinary_logits
     = inr (Float32.Finite (ln 2 / 2)).
Proof.
  destruct overflow_points as (H0 & H1 & Hinf & He & Hl).
  destruct (loss_function_wide Float32.overflow Float32.exact_exp
              Float32.exact_log H0 H1 Hinf He Hl)
    as [(loss_ & Hobj & Hm) Hloss].
  split; [|split; [exact Hloss|exact loss_function_ordinary]].
  intros H.
  specialize (H Float32.padded_batch Float32.wide_logits 0%nat loss_
                eq_refl Hobj).
  rewrite Hm in H. discriminate H.
Qed.

Lemma padding_contributes_zero_loss_witness :
  Float32.masked_loss Float32.overflow
    [Float32.Finite (ln 2); Float32.Finite (ln 2)]
    Float32.padded_batch !! 0%nat = Some (Float32.Finite 0)
  /\ forall logits loss_' l',
       Float32.loss_object Float32.overflow Float32.exact_exp Float32.exact_log
         Float32.padded_batch
         (<[0%nat := logits]> Float32.ordinary_logits) = inr loss_' ->
       loss_' !! 0%nat = Some l' ->
       Float32.is_finite l' = true ->
       Float32.loss_function Float32.overflow Float32.exact_exp
         Float32.exact_log Float32.padded_batch
         (<[0%nat := logits]> Float32.ordinary_logits)
       = Float32.loss_function Float32.overflow Float32.exact_exp
           Float32.exact_log Float32.padded_batch Float32.ordinary_logits.
Proof.
  apply (padding_contributes_zero_loss Float32.overflow Float32.exact_exp
           Float32.exact_log Float32.padded_batch
           Float32.ordinary_logits 0
           [Float32.Finite (ln 2); Float32.Finite (ln 2)]
           (Float32.Finite (ln 2)));
    [exact (proj1 overflow_points)|reflexivity|exact loss_object_ordinary
    |reflexivity|reflexivity].
Defined.

Section LoadFacts.

Context (U : UnicodeData) {Params : Type}.
Context (encoder :
  Params -> list (list Z) -> list vec -> list (list vec) * list vec).
Context (decoder :
  Params -> list (list Z) -> list vec -> list (list vec)
  -> list vec * list vec * list (list vec)).
Context (apply_gradients : Params -> (Params -> R) -> Params).
Context (permutation : nat -> list nat).
Context (shuffle : nat -> list (list Z * list Z) -> list (list Z * list Z)).

Local Abbreviation train_step' := (train_step encoder decoder apply_gradients).
Local Abbreviation run_batches' := (run_batches encoder decoder apply_gradients).
Local Abbreviation train_loop' := (train_loop encoder decoder apply_gradients shuffle).
Local Abbreviation train' := (train encoder decoder apply_gradients shuffle).

(** What a successful [_load] has computed. *)
Lemma _load_inv lang text num_examples self :
  _load U permutation lang text num_examples = inr self ->
  let n := length (corpus_lines text num_examples) in
  let idx := ind_train (permutation n) n in
  length (input_tensor self) = n
  /\ length (target_tensor self) = n
  /\ n <> 0%nat /\ n_train n <> 0%nat
  /\ dataset_source self
     = map (fun i => (nth i (input_tensor self) [], nth i (target_tensor self) []))
           idx
  /\ BUFFER_SIZE self = length idx
  /\ steps_per_epoch self = (length idx / BATCH_SIZE)%nat
  /\ exists texts, targ_lang_tokenizer self = fit_on_texts U texts.
Proof.
  unfold _load. intros H.
  destruct (_load_dataset U text num_examples) as [|a [|b [|c cols]]] eqn:Hcols;
    try discriminate H.
  assert (Hlen : length a = length (corpus_lines text num_examples)
                 /\ length b = length (corpus_lines text num_examples)).
  { unfold _load_dataset in Hcols.
    assert (Ha : a ∈ [a; b]) by apply list_elem_of_here.
    assert (Hb : b ∈ [a; b]) by apply list_elem_of_further, list_elem_of_here.
    rewrite <- Hcols in Ha, Hb.
    apply zip_star_length in Ha, Hb. rewrite length_map in Ha, Hb.
    now split. }
  destruct Hlen as [Hla Hlb].
  assert (Hgen : forall inp_lang targ_lang,
    length inp_lang = length (corpus_lines text num_examples) ->
    length targ_lang = length (corpus_lines text num_examples) ->
    (inp <- tokenize U inp_lang ;;
     targ <- tokenize U targ_lang ;;
     let '(input_tensor, inp_lang_tokenizer) := inp in
     let '(target_tensor, targ_lang_tokenizer) := targ in
     split <- train_test_split (permutation (length input_tensor))
                input_tensor target_tensor ;;
     let '(input_tensor_train, _, target_tensor_train, _) := split in
     ret {| inp_lang_tokenizer := inp_lang_tokenizer;
            targ_lang_tokenizer := targ_lang_tokenizer;
            input_tensor := input_tensor;
            target_tensor := target_tensor;
            max_length_targ := shape1 target_tensor;
            max_length_inp := shape1 input_tensor;
            vocab_inp_size := size (word_index inp_lang_tokenizer) + 1;
            vocab_tar_size := size (word_index targ_lang_tokenizer) + 1;
            BUFFER_SIZE := length input_tensor_train;
            steps_per_epoch := length input_tensor_train / BATCH_SIZE;
            dataset_source := zip input_tensor_train target_tensor_train |})%py
    = inr self ->
    let n := length (corpus_lines text num_examples) in
    let idx := ind_train (permutation n) n in
    length (input_tensor self) = n
    /\ length (target_tensor self) = n
    /\ n <> 0%nat /\ n_train n <> 0%nat
    /\ dataset_source self
       = map (fun i => (nth i (input_tensor self) [], nth i (target_tensor self) []))
             idx
    /\ BUFFER_SIZE self = length idx
    /\ steps_per_epoch self = (length idx / BATCH_SIZE)%nat
    /\ exists texts, targ_lang_tokenizer self = fit_on_texts U texts).
  { clear H. intros inp_lang targ_lang Hi Ht H.
    destruct (tokenize U inp_lang) as [e|[it itk]] eqn:Ei; [discriminate H|].
    destruct (tokenize U targ_lang) as [e|[tt ttk]] eqn:Et; [discriminate H|].
    apply tokenize_inv in Ei as [Eil _]. apply tokenize_inv in Et as [Etl Etk].
    simpl in H. unfold train_test_split in H.
    destruct (_ || _) eqn:Eguard; [discriminate H|].
    simpl in H. injection H as <-. simpl.
    apply orb_false_iff in Eguard as [Eguard _].
    apply orb_false_iff in Eguard as [En Etr].
    apply Nat.eqb_neq in En. apply Nat.eqb_neq in Etr.
    rewrite Eil, Hi in *. rewrite Etl, Ht.
    unfold index_rows at 3 4. rewrite !length_map.
    repeat split; try assumption.
    - apply zip_index_rows.
    - exists targ_lang. exact Etk. }
  destruct (startswith _ lang); simpl in H.
  - now apply (Hgen a b).
  - now apply (Hgen b a).
Qed.

(** A training step can only raise the [KeyError] of the start marker. *)
Lemma train_step_error self theta inp targ h e :
  train_step' self theta inp targ h = inl e -> e = KeyError_str START.
Proof.
  unfold train_step. destruct (word_index _ !! START); [|now intros [= <-]].
  destruct (forward _ _ _ _ _ _ _) as [[l i] f]. discriminate.
Qed.

Lemma run_batches_steps self theta h batches total steps :
  let '(outcome, _, steps') := run_batches' self theta h batches total steps in
  (steps' <= steps + length batches)%nat
  /\ (steps' = (steps + length batches)%nat \/ outcome = inl (KeyError_str START)).
Proof.
  revert theta total steps.
  induction batches as [|[inp targ] rest IH]; intros theta total steps; simpl.
  - split; [lia|left; lia].
  - destruct (train_step' self theta inp targ h) as [e|[[[theta' bl] i] f]] eqn:E.
    + apply train_step_error in E as ->. split; [lia|now right].
    + specialize (IH theta' (total + bl)%R (S steps)).
      destruct (run_batches' _ _ _ _ _ _) as [[o t] s].
      destruct IH as [IH1 IH2]. split; [lia|].
      destruct IH2 as [Hs|Ho]; [left; lia|right; exact Ho].
Qed.

(** Every epoch runs as many training steps as the data set has batches
    for it, unless a training step raises. *)
Lemma train_loop_steps self theta epochs k :
  (forall k, length (take (steps_per_epoch self) (dataset shuffle self k))
             = steps_per_epoch self) ->
  let '(outcome, log) := train_loop' self theta epochs k in
  Forall (fun e => (steps_run e <= steps_per_epoch self)%nat
                   /\ (steps_run e = steps_per_epoch self
                       \/ outcome = inl (KeyError_str START))) log.
Proof.
  intros Hlen. revert theta k.
  induction epochs as [|epoch rest IH]; intros theta k; simpl; [constructor|].
  pose proof (run_batches_steps self theta initialize_hidden_state
                (take (steps_per_epoch self) (dataset shuffle self k)) 0%R 0) as Hrun.
  rewrite Hlen in Hrun.
  destruct (run_batches' _ _ _ _ _ _) as [[[e|theta1] total] steps].
  - destruct Hrun as [Hle [Hs|Ho]]; (constructor; [|constructor]); simpl.
    + split; [lia|left; lia].
    + split; [lia|right; exact Ho].
  - destruct Hrun as [_ [Hs|Habs]]; [rewrite Hs|discriminate Habs].
    simpl.
    destruct (steps_per_epoch self =? 0)%nat.
    + constructor; [simpl; split; [lia|now left]|constructor].
    + specialize (IH theta1 (S k)).
      destruct (train_loop' self theta1 rest (S k)) as [o l].
      constructor; [simpl; split; [lia|now left]|exact IH].
Qed.

(** [train] reads the model only through the training tensors, the
    number of steps and the target vocabulary. *)
Lemma train_loop_reads self self' theta epochs k :
  dataset_source self = dataset_source self' ->
  steps_per_epoch self = steps_per_epoch self' ->
  targ_lang_tokenizer self = targ_lang_tokenizer self' ->
  train_loop' self theta epochs k = train_loop' self' theta epochs k.
Proof.
  intros Hd Hs Ht.
  assert (Hstep : forall th inp targ h,
             train_step' self th inp targ h = train_step' self' th inp targ h).
  { intros. unfold train_step. now rewrite Ht. }
  assert (Hrun : forall batches th h total steps,
             run_batches' self th h batches total steps
             = run_batches' self' th h batches total steps).
  { induction batches as [|[inp targ] rest IHb]; intros; simpl; [reflexivity|].
    rewrite Hstep. destruct (train_step' _ _ _ _ _) as [e|[[[t b] i] f]];
      [reflexivity|apply IHb]. }
  revert theta k. induction epochs as [|epoch rest IH]; intros theta k; simpl;
    [reflexivity|].
  unfold dataset. rewrite <- Hd, <- Hs, Hrun.
  destruct (run_batches' _ _ _ _ _ _) as [[[e|theta1] total] steps];
    [reflexivity|].
  destruct (steps_per_epoch self =? 0)%nat; [reflexivity|].
  fold (dataset shuffle self) in *. now rewrite IH.
Qed.

(** C10.  After a successful load of [n] sentence pairs, with a
    permutation drawn for the split and the data set shuffled at every
    iteration:
    - the held-out and the training indices partition the corpus; there
      are [floor (0.8 n)] training pairs, fewer than [n], and the data
      set holds exactly the pairs at the training indices;
    - every epoch goes through [floor (0.8 n / 64)] batches, each of 64
      pairs that all belong to the training pairs;
    - every epoch of [train] runs that many training steps (unless a
      step raises), and none when there are fewer than 64 training
      pairs;
    - replacing the held-out rows of the tensors by any others leaves
      the training part of the split unchanged, and [train] reads the
      model only through that part, the step count and the target
      vocabulary. *)
Theorem training_sees_only_the_training_split lang text num_examples self :
  (forall n, permutation n ≡ₚ seq 0 n) ->
  (forall k l, shuffle k l ≡ₚ l) ->
  _load U permutation lang text num_examples = inr self ->
  let n := length (corpus_lines text num_examples) in
  let held_out := ind_test (permutation n) n in
  let training := ind_train (permutation n) n in
  (length (input_tensor self) = n
   /\ length (target_tensor self) = n
   /\ held_out ++ training ≡ₚ seq 0 n
   /\ Z.of_nat (length training) = (4 * Z.of_nat n / 5)%Z
   /\ (length training < n)%nat
   /\ dataset_source self
      = map (fun i => (nth i (input_tensor self) [], nth i (target_tensor self) []))
            training)
  /\ (Z.of_nat (steps_per_epoch self) = (4 * Z.of_nat n / 5 / 64)%Z
      /\ forall k,
           let batches := take (steps_per_epoch self) (dataset shuffle self k) in
           length batches = steps_per_epoch self
           /\ Forall (fun b => length (fst b) = 64%nat /\ length (snd b) = 64%nat
                               /\ zip (fst b) (snd b) ⊆ dataset_source self)
                     batches)
  /\ (forall theta epochs k,
        let '(outcome, log) := train' self theta epochs k in
        Forall (fun e => (steps_run e <= steps_per_epoch self)%nat
                         /\ (steps_run e = steps_per_epoch self
                             \/ outcome = inl (KeyError_str START))) log
        /\ ((length training < 64)%nat -> Forall (fun e => steps_run e = 0%nat) log))
  /\ (forall a' b',
        length a' = n -> length b' = n ->
        (forall i, i ∈ training ->
           nth i a' [] = nth i (input_tensor self) []
           /\ nth i b' [] = nth i (target_tensor self) []) ->
        exists va vb,
          train_test_split (permutation n) a' b'
          = inr (map fst (dataset_source self), va,
                 map snd (dataset_source self), vb))
  /\ (forall self' theta epochs k,
        dataset_source self' = dataset_source self ->
        steps_per_epoch self' = steps_per_epoch self ->
        targ_lang_tokenizer self' = targ_lang_tokenizer self ->
        train' self' theta epochs k = train' self theta epochs k).
Proof.
  intros Hperm Hshuffle Hload n held_out training.
  destruct (_load_inv _ _ _ _ Hload)
    as (Hli & Hlt & Hn & Htr & Hsrc & _ & Hsteps & _).
  fold n in Hli, Hlt, Hn, Htr, Hsrc, Hsteps. fold training in Hsrc, Hsteps.
  destruct (split_indices (permutation n) n (Hperm n)) as (Happ & Hlte & Hltr).
  fold held_out training in Happ. fold training in Hltr.
  assert (Hbatches : forall k,
    length (dataset shuffle self k) = steps_per_epoch self
    /\ Forall (fun b => length (fst b) = 64%nat /\ length (snd b) = 64%nat
                        /\ zip (fst b) (snd b) ⊆ dataset_source self)
              (dataset shuffle self k)).
  { intros k. unfold dataset.
    destruct (batch_spec BATCH_SIZE (shuffle k (dataset_source self)))
      as [Hlen Hall]; [unfold BATCH_SIZE; lia|].
    split.
    - rewrite length_map, Hlen, (Permutation_length (Hshuffle k _)).
      rewrite Hsteps, Hsrc. now rewrite length_map.
    - apply Forall_fmap. eapply Forall_impl; [exact Hall|].
      intros b [Hb Hsub]. simpl. rewrite !length_map, zip_fst_snd.
      split; [exact Hb|]. split; [exact Hb|].
      intros x Hx. apply Hsub in Hx. now rewrite (Hshuffle k _) in Hx. }
  assert (Htake : forall k,
    take (steps_per_epoch self) (dataset shuffle self k) = dataset shuffle self k).
  { intros k. apply take_ge. destruct (Hbatches k) as [-> _]. lia. }
  split; [|split; [|split; [|split]]].
  - split; [exact Hli|]. split; [exact Hlt|].
    split; [rewrite Happ; apply Hperm|].
    split; [rewrite Hltr; apply n_train_floor|].
    split; [rewrite Hltr; now apply n_train_lt|exact Hsrc].
  - split; [rewrite Hsteps, Hltr; apply steps_floor|].
    intros k batches. unfold batches. rewrite Htake. apply Hbatches.
  - intros theta epochs k. unfold train.
    pose proof (train_loop_steps self theta (seq 0 (Z.to_nat epochs)) k) as Hlog.
    destruct (train_loop' self theta _ k) as [outcome log].
    assert (Hall : Forall (fun e => (steps_run e <= steps_per_epoch self)%nat
                     /\ (steps_run e = steps_per_epoch self
                         \/ outcome = inl (KeyError_str START))) log).
    { apply Hlog. intros k'. rewrite Htake. apply Hbatches. }
    split; [exact Hall|].
    intros Hsmall. eapply Forall_impl; [exact Hall|].
    intros e [Hle _]. rewrite Hsteps in Hle.
    rewrite Nat.div_small in Hle by (unfold BATCH_SIZE; lia). lia.
  - intros a' b' Ha Hb Hagree. unfold train_test_split.
    rewrite Ha, Hb. fold training.
    assert (Hguard : (n =? 0)%nat || (n_train n =? 0)%nat || negb (n =? n)%nat = false).
    { rewrite Nat.eqb_refl. simpl. rewrite !orb_false_r.
      apply orb_false_iff. split; [now apply Nat.eqb_neq|].
      now apply Nat.eqb_neq. }
    rewrite Hguard.
    assert (Ea : map fst (dataset_source self) = index_rows [] training a').
    { rewrite Hsrc, map_map. simpl. unfold index_rows.
      apply map_ext_in. intros i Hi. apply list_elem_of_In in Hi.
      now destruct (Hagree i Hi) as [-> _]. }
    assert (Eb : map snd (dataset_source self) = index_rows [] training b').
    { rewrite Hsrc, map_map. simpl. unfold index_rows.
      apply map_ext_in. intros i Hi. apply list_elem_of_In in Hi.
      now destruct (Hagree i Hi) as [_ ->]. }
    rewrite Ea, Eb. eexists _, _. reflexivity.
  - intros self' theta epochs k Hd Hs Ht. unfold train.
    now apply train_loop_reads.
Qed.

End LoadFacts.

Lemma training_sees_only_the_training_split_witness :
  exists self,
    _load basic_latin (seq 0) (of_string "eng-fra") Demo.long_corpus
      (Some NUM_EXAMPLES) = inr self
    /\ length (input_tensor self) = 80%nat
    /\ Z.of_nat (steps_per_epoch self) = 1%Z
    /\ length (dataset_source self) = 64%nat
    /\ forall k,
         length (take (steps_per_epoch self) (dataset (fun _ l => l) self k))
         = steps_per_epoch self.
Proof.
  destruct (_load basic_latin (seq 0) (of_string "eng-fra") Demo.long_corpus
              (Some NUM_EXAMPLES)) as [e|self] eqn:E;
    [vm_compute in E; discriminate E|].
  exists self. split; [reflexivity|].
  pose proof (training_sees_only_the_training_split basic_latin
                Demo.encoder Demo.decoder (fun theta _ => theta) (seq 0)
                (fun _ l => l) (of_string "eng-fra") Demo.long_corpus
                (Some NUM_EXAMPLES) self
                (fun n => Permutation_refl _) (fun _ l => Permutation_refl l) E)
    as H.
  cbv zeta in H.
  destruct H as ((Hlen & _ & _ & _ & _ & Hsrc) & (Hsteps & Hbatches) & _).
  split; [rewrite Hlen; vm_compute; reflexivity|].
  split; [rewrite Hsteps; vm_compute; reflexivity|].
  split; [rewrite Hsrc, length_map; vm_compute; reflexivity|].
  intros k. now destruct (Hbatches k) as [Hk _].
Defined.

(** The claim of C10 that the held-out pairs are without influence
    fails on two corpora of 80 lines that differ in their first line
    only, which the identity permutation holds out: the input
    vocabulary has 5 words for one and 8 for the other, and each of the
    64 training rows is padded to 4 ids for one and to 6 for the
    other. *)
Lemma held_out_pair_changes_training :
  ~ held_out_without_influence basic_latin (seq 0)
  /\ exists self self',
       _load basic_latin (seq 0) (of_string "eng-fra") Demo.long_corpus
         (Some NUM_EXAMPLES) = inr self
       /\ _load basic_latin (seq 0) (of_string "eng-fra")
            Demo.long_corpus_other (Some NUM_EXAMPLES) = inr self'
       /\ index_rows [] (ind_train (seq 0 80) 80)
            (corpus_lines Demo.long_corpus_other (Some NUM_EXAMPLES))
          = index_rows [] (ind_train (seq 0 80) 80)
              (corpus_lines Demo.long_corpus (Some NUM_EXAMPLES))
       /\ vocab_inp_size self = 6%nat /\ vocab_inp_size self' = 9%nat
       /\ map (fun p => length (fst p)) (dataset_source self)
          = replicate 64 4%nat
       /\ map (fun p => length (fst p)) (dataset_source self')
          = replicate 64 6%nat.
Proof.
  destruct (_load basic_latin (seq 0) (of_string "eng-fra") Demo.long_corpus
              (Some NUM_EXAMPLES)) as [e|self] eqn:E;
    [vm_compute in E; discriminate E|].
  destruct (_load basic_latin (seq 0) (of_string "eng-fra")
              Demo.long_corpus_other (Some NUM_EXAMPLES)) as [e|self'] eqn:E';
    [vm_compute in E'; discriminate E'|].
  set (size := fun r : result TranslatorModel =>
                 match r with
                 | inr m => vocab_inp_size m
                 | inl _ => 0%nat
                 end).
  set (widths := fun r : result TranslatorModel =>
                   match r with
                   | inr m => map (fun p => length (fst p)) (dataset_source m)
                   | inl _ => []
                   end).
  assert (Hs : vocab_inp_size self = 6%nat).
  { change (size (inr self) = 6%nat). rewrite <- E. vm_compute. reflexivity. }
  assert (Hs' : vocab_inp_size self' = 9%nat).
  { change (size (inr self') = 9%nat). rewrite <- E'. vm_compute.
    reflexivity. }
  assert (Hw : map (fun p => length (fst p)) (dataset_source self)
               = replicate 64 4%nat).
  { change (widths (inr self) = replicate 64 4%nat). rewrite <- E.
    vm_compute. reflexivity. }
  assert (Hw' : map (fun p => length (fst p)) (dataset_source self')
                = replicate 64 6%nat).
  { change (widths (inr self') = replicate 64 6%nat). rewrite <- E'.
    vm_compute. reflexivity. }
  assert (Hlines : index_rows [] (ind_train (seq 0 80) 80)
                     (corpus_lines Demo.long_corpus_other (Some NUM_EXAMPLES))
                   = index_rows [] (ind_train (seq 0 80) 80)
                       (corpus_lines Demo.long_corpus (Some NUM_EXAMPLES)))
    by (vm_compute; reflexivity).
  split.
  - intros H.
    destruct (H (of_string "eng-fra") Demo.long_corpus Demo.long_corpus_other
                (Some NUM_EXAMPLES) self self' E E') as (Hv & _).
    + vm_compute. reflexivity.
    + vm_compute. reflexivity.
    + rewrite Hs, Hs' in Hv. discriminate Hv.
  - exists self, self'.
    split; [reflexivity|]. split; [reflexivity|]. split; [exact Hlines|].
    split; [exact Hs|]. split; [exact Hs'|]. split; [exact Hw|exact Hw'].
Qed.

(* ===================================================================== *)
(** * Properties of the vocabulary                                        *)
(* ===================================================================== *)

Section VocabularyFacts.

Lemma dict_of_list_to_map `{Countable K} {V} (l : list (K * V)) :
  dict_of l = list_to_map (rev l).
Proof.
  unfold dict_of, list_to_map. symmetry.
  apply (fold_left_rev_right (fun (kv : K * V) m => <[fst kv := snd kv]> m)).
Qed.

Lemma dict_of_lookup `{Countable K} {V} (l : list (K * V)) k v :
  NoDup (map fst l) -> dict_of l !! k = Some v <-> (k, v) ∈ l.
Proof.
  intros Hnd. rewrite dict_of_list_to_map.
  rewrite <- elem_of_list_to_map.
  - rewrite !list_elem_of_In. symmetry. apply in_rev.
  - change (NoDup (map fst (rev l))). rewrite map_rev.
    now rewrite <- Permutation_rev.
Qed.

Lemma ids_from_1_lookup n p :
  (p < n)%nat -> ids_from_1 n !! p = Some (Z.of_nat (S p)).
Proof.
  intros Hp. unfold ids_from_1. rewrite list_lookup_fmap.
  now rewrite lookup_seq_lt.
Qed.

Lemma ids_from_1_length n : length (ids_from_1 n) = n.
Proof. unfold ids_from_1. now rewrite length_map, length_seq. Qed.

Lemma ids_from_1_NoDup n : NoDup (ids_from_1 n).
Proof.
  unfold ids_from_1. apply NoDup_fmap_2; [|apply NoDup_seq].
  intros a b Hab. lia.
Qed.

Lemma zip_voc_ids (voc : list pystr) w i :
  (w, i) ∈ zip voc (ids_from_1 (length voc))
  <-> exists p, voc !! p = Some w /\ i = Z.of_nat (S p).
Proof.
  rewrite list_elem_of_lookup. split.
  - intros [p Hp]. apply lookup_zip_with_Some in Hp as (x & y & E & Hx & Hy).
    injection E as <- <-. exists p. split; [exact Hx|].
    rewrite ids_from_1_lookup in Hy by (now apply lookup_lt_Some in Hx).
    now injection Hy as <-.
  - intros (p & Hp & ->). exists p. apply lookup_zip_with_Some.
    exists w, (Z.of_nat (S p)). split; [reflexivity|]. split; [exact Hp|].
    apply ids_from_1_lookup. now apply lookup_lt_Some in Hp.
Qed.

Lemma zip_ids_voc (voc : list pystr) w i :
  (i, w) ∈ zip (ids_from_1 (length voc)) voc
  <-> exists p, voc !! p = Some w /\ i = Z.of_nat (S p).
Proof.
  rewrite list_elem_of_lookup. split.
  - intros [p Hp]. apply lookup_zip_with_Some in Hp as (x & y & E & Hx & Hy).
    injection E as <- <-. exists p. split; [exact Hy|].
    rewrite ids_from_1_lookup in Hx by (now apply lookup_lt_Some in Hy).
    now injection Hx as <-.
  - intros (p & Hp & ->). exists p. apply lookup_zip_with_Some.
    exists (Z.of_nat (S p)), w. split; [reflexivity|]. split; [|exact Hp].
    apply ids_from_1_lookup. now apply lookup_lt_Some in Hp.
Qed.

(** Both dictionaries of a fitted tokenizer read off the positions of
    the sorted vocabulary. *)
Lemma word_index_spec U texts w i :
  NoDup (sorted_voc U texts) ->
  word_index (fit_on_texts U texts) !! w = Some i
  <-> exists p, sorted_voc U texts !! p = Some w /\ i = Z.of_nat (S p).
Proof.
  intros Hnd. simpl. rewrite dict_of_lookup; [apply zip_voc_ids|].
  change (NoDup ((zip (sorted_voc U texts)
                      (ids_from_1 (length (sorted_voc U texts)))).*1)).
  rewrite fst_zip; [exact Hnd|]. now rewrite ids_from_1_length.
Qed.

Lemma index_word_spec U texts w i :
  index_word (fit_on_texts U texts) !! i = Some w
  <-> exists p, sorted_voc U texts !! p = Some w /\ i = Z.of_nat (S p).
Proof.
  simpl. rewrite dict_of_lookup; [apply zip_ids_voc|].
  change (NoDup ((zip (ids_from_1 (length (sorted_voc U texts)))
                      (sorted_voc U texts)).*1)).
  rewrite fst_zip; [apply ids_from_1_NoDup|]. now rewrite ids_from_1_length.
Qed.

End VocabularyFacts.

Section CountFacts.

Lemma first_occurrences_snoc ws w :
  first_occurrences (ws ++ [w]) = add_new w (first_occurrences ws).
Proof. unfold first_occurrences. now rewrite fold_left_app. Qed.

Lemma first_occurrences_elem ws w : w ∈ first_occurrences ws <-> w ∈ ws.
Proof.
  induction ws as [|v ws IH] using rev_ind.
  - reflexivity.
  - rewrite first_occurrences_snoc. unfold add_new.
    rewrite elem_of_app, list_elem_of_singleton.
    destruct (decide (v ∈ first_occurrences ws)) as [Hin|Hnin].
    + rewrite IH. split; [now left|]. intros [H| ->]; [exact H|]. now apply IH.
    + now rewrite elem_of_app, list_elem_of_singleton, IH.
Qed.

Lemma first_occurrences_NoDup ws : NoDup (first_occurrences ws).
Proof.
  induction ws as [|v ws IH] using rev_ind.
  - constructor.
  - rewrite first_occurrences_snoc. unfold add_new.
    destruct (decide (v ∈ first_occurrences ws)) as [Hin|Hnin]; [exact IH|].
    apply NoDup_app. split; [exact IH|]. split; [|apply NoDup_singleton].
    intros x Hx Hx'. apply list_elem_of_singleton in Hx'. now subst.
Qed.

Lemma precedes_snoc w1 w2 ws v : precedes w1 w2 ws -> precedes w1 w2 (ws ++ [v]).
Proof.
  intros (p & Hp & Hq). exists p. split.
  - now apply lookup_app_l_Some.
  - intros q Hq'. destruct (decide (q < length ws)%nat) as [Hlt|Hge].
    + rewrite lookup_app_l in Hq' by exact Hlt. now apply Hq.
    + apply lookup_lt_Some in Hp. lia.
Qed.

(** The distinct words stand in the order of their first occurrences. *)
Lemma first_occurrences_order ws a b w1 w2 :
  first_occurrences ws !! a = Some w1 ->
  first_occurrences ws !! b = Some w2 ->
  (a < b)%nat -> precedes w1 w2 ws.
Proof.
  revert a b w1 w2. induction ws as [|v ws IH] using rev_ind;
    intros a b w1 w2 Ha Hb Hab.
  - discriminate Ha.
  - rewrite first_occurrences_snoc in Ha, Hb. unfold add_new in Ha, Hb.
    destruct (decide (v ∈ first_occurrences ws)) as [Hin|Hnin].
    + apply precedes_snoc. now apply (IH a b).
    + destruct (decide (b < length (first_occurrences ws))%nat) as [Hlt|Hge].
      * rewrite lookup_app_l in Ha, Hb by lia.
        apply precedes_snoc. now apply (IH a b).
      * assert (Hb' := Hb). apply lookup_lt_Some in Hb'.
        rewrite length_app in Hb'. simpl in Hb'.
        assert (b = length (first_occurrences ws)) as -> by lia.
        rewrite lookup_app_l in Ha by lia.
        rewrite list_lookup_middle in Hb by reflexivity. injection Hb as <-.
        assert (Hw1 : w1 ∈ ws).
        { apply first_occurrences_elem. apply list_elem_of_lookup. eauto. }
        apply list_elem_of_lookup in Hw1 as [p Hp]. exists p. split.
        -- now apply lookup_app_l_Some.
        -- intros q Hq. destruct (decide (q < length ws)%nat) as [Hql|Hqg].
           ++ rewrite lookup_app_l in Hq by exact Hql. exfalso. apply Hnin.
              apply first_occurrences_elem. apply list_elem_of_lookup. eauto.
           ++ apply lookup_lt_Some in Hp. lia.
Qed.

Lemma occurrences_snoc w ws v :
  occurrences w (ws ++ [v])
  = if decide (v = w) then S (occurrences w ws) else occurrences w ws.
Proof.
  unfold occurrences. rewrite filter_app, length_app.
  rewrite filter_cons, filter_nil.
  destruct (decide (v = w)); simpl; lia.
Qed.

Lemma occurrences_0 w ws : w ∉ ws -> occurrences w ws = 0%nat.
Proof.
  intros Hnin. unfold occurrences.
  induction ws as [|v ws IH]; [reflexivity|].
  rewrite filter_cons. apply not_elem_of_cons in Hnin as [Hne Hnin].
  destruct (decide (v = w)); [congruence|now apply IH].
Qed.

(** Counting one more word in an ordered dictionary that holds a count
    for each of its distinct keys. *)
Lemma count_word_map (f : pystr -> nat) w (l : list pystr) :
  NoDup l -> (w ∉ l -> f w = 0%nat) ->
  count_word w (map (fun v => (v, f v)) l)
  = map (fun v => (v, if decide (w = v) then S (f v) else f v)) (add_new w l).
Proof.
  induction l as [|v l IH]; intros Hnd H0.
  - unfold add_new.
    destruct (decide (w ∈ [])) as [Hin|_]; [now apply elem_of_nil in Hin|].
    simpl. destruct (decide (w = w)) as [_|Hc]; [|congruence].
    rewrite H0 by apply not_elem_of_nil. reflexivity.
  - apply NoDup_cons in Hnd as [Hv Hnd]. simpl.
    destruct (decide (v = w)) as [->|Hne].
    + unfold add_new.
      destruct (decide (w ∈ w :: l)) as [_|Hc];
        [|exfalso; apply Hc, list_elem_of_here].
      simpl. destruct (decide (w = w)) as [_|Hc]; [|congruence]. f_equal.
      apply map_ext_in. intros x Hx. apply list_elem_of_In in Hx.
      destruct (decide (w = x)) as [->|_]; [contradiction|reflexivity].
    + rewrite IH; [|exact Hnd|].
      * unfold add_new.
        destruct (decide (w ∈ l)) as [Hin|Hnin];
          destruct (decide (w ∈ v :: l)) as [Hin'|Hnin'].
        -- simpl. destruct (decide (w = v)); [congruence|reflexivity].
        -- exfalso. apply Hnin'. now apply list_elem_of_further.
        -- exfalso. apply elem_of_cons in Hin' as [->|Hc]; congruence.
        -- simpl. destruct (decide (w = v)); [congruence|reflexivity].
      * intros Hnin. apply H0. intros Hc.
        apply elem_of_cons in Hc as [->|Hc]; congruence.
Qed.

(** The ordered dictionary of counts: the distinct words in order of
    first occurrence, each with its number of occurrences. *)
Lemma count_words_spec ws :
  count_words ws = map (fun w => (w, occurrences w ws)) (first_occurrences ws).
Proof.
  induction ws as [|v ws IH] using rev_ind; [reflexivity|].
  unfold count_words in *. rewrite fold_left_app. simpl. rewrite IH.
  rewrite count_word_map.
  - rewrite first_occurrences_snoc. apply map_ext. intros w.
    now rewrite occurrences_snoc.
  - apply first_occurrences_NoDup.
  - intros Hnin. apply occurrences_0. now rewrite <- first_occurrences_elem.
Qed.

Lemma count_texts_words U texts :
  count_texts U texts = count_words (all_words U texts).
Proof.
  unfold count_texts, count_words, all_words.
  generalize (@nil (pystr * nat)) as acc.
  induction texts as [|t texts IH]; intros acc; simpl; [reflexivity|].
  now rewrite fold_left_app, IH.
Qed.

End CountFacts.

Section SortFacts.

Lemma insert_by_count_perm x l : insert_by_count x l ≡ₚ x :: l.
Proof.
  induction l as [|y l IH]; simpl; [reflexivity|].
  destruct (snd y <=? snd x)%nat; [reflexivity|].
  rewrite IH. apply perm_swap.
Qed.

Lemma sort_by_count_perm wc : sort_by_count wc ≡ₚ wc.
Proof.
  induction wc as [|x wc IH]; simpl; [reflexivity|].
  now rewrite insert_by_count_perm, IH.
Qed.

Lemma before_cons {A} (x : A) l a b : before l a b -> before (x :: l) a b.
Proof.
  intros (p & q & Hp & Hq & Hpq). exists (S p), (S q). simpl.
  split; [exact Hp|]. split; [exact Hq|lia].
Qed.

Lemma before_head {A} (x : A) l y : y ∈ l -> before (x :: l) x y.
Proof.
  intros Hy. apply list_elem_of_lookup in Hy as [q Hq].
  exists 0%nat, (S q). simpl. split; [reflexivity|]. split; [exact Hq|lia].
Qed.

(** Inserting an entry that stands before all others keeps the list in
    the order of a stable sort. *)
Lemma insert_by_count_sorted R x l :
  (forall y, y ∈ l -> (snd y <= snd x)%nat -> R x y) ->
  (forall y, (snd x < snd y)%nat -> R y x) ->
  (forall y z, R y z -> (snd z <= snd y)%nat) ->
  StronglySorted R l -> StronglySorted R (insert_by_count x l).
Proof.
  intros Hle Hgt Hkey Hs. induction Hs as [|y l Hs IH Hall]; simpl.
  - repeat constructor.
  - destruct (snd y <=? snd x)%nat eqn:E.
    + apply Nat.leb_le in E. constructor; [now constructor|].
      constructor; [apply Hle; [apply list_elem_of_here|exact E]|].
      rewrite List.Forall_forall in *. intros z Hz.
      apply Hle; [now apply list_elem_of_further, list_elem_of_In|].
      specialize (Hkey y z (Hall z Hz)). lia.
    + apply Nat.leb_gt in E. constructor.
      * apply IH. intros z Hz. apply Hle. now apply list_elem_of_further.
      * rewrite List.Forall_forall in *. intros z Hz.
        apply list_elem_of_In in Hz. rewrite insert_by_count_perm in Hz.
        apply elem_of_cons in Hz as [->|Hz]; [now apply Hgt|].
        now apply Hall, list_elem_of_In.
Qed.

Lemma StronglySorted_weaken {A} (R R' : A -> A -> Prop) l :
  (forall a b, R a b -> R' a b) -> StronglySorted R l -> StronglySorted R' l.
Proof.
  intros HR Hs. induction Hs as [|x l Hs IH Hall]; constructor; [exact IH|].
  eapply List.Forall_impl; [|exact Hall]. intros b. apply HR.
Qed.

Lemma count_order_key wc y z : count_order wc y z -> (snd z <= snd y)%nat.
Proof. intros [H|[H _]]; lia. Qed.

Lemma sort_by_count_sorted wc :
  StronglySorted (count_order wc) (sort_by_count wc).
Proof.
  induction wc as [|x wc IH]; simpl; [constructor|].
  apply insert_by_count_sorted.
  - intros y Hy Hle. rewrite sort_by_count_perm in Hy.
    destruct (decide (snd y < snd x)%nat) as [Hlt|Hge]; [now left|].
    right. split; [lia|now apply before_head].
  - intros y Hlt. now left.
  - apply count_order_key.
  - eapply StronglySorted_weaken; [|exact IH]. clear.
    intros a b [H|[H1 H2]]; [now left|]. right. split; [exact H1|].
    now apply before_cons.
Qed.

Lemma StronglySorted_lookup {A} (R : A -> A -> Prop) l p q x y :
  StronglySorted R l -> l !! p = Some x -> l !! q = Some y -> (p < q)%nat ->
  R x y.
Proof.
  intros Hs. revert p q. induction Hs as [|z l Hs IH Hall]; intros p q Hp Hq Hpq.
  - discriminate Hp.
  - destruct q as [|q]; [lia|]. simpl in Hq. destruct p as [|p].
    + simpl in Hp. injection Hp as ->. rewrite List.Forall_forall in Hall.
      apply Hall. apply list_elem_of_In, list_elem_of_lookup. eauto.
    + simpl in Hp. apply (IH p q); [exact Hp|exact Hq|lia].
Qed.

End SortFacts.

Section TokenizeFacts.

Variable U : UnicodeData.

Lemma sorted_voc_perm texts :
  sorted_voc U texts ≡ₚ first_occurrences (all_words U texts).
Proof.
  unfold sorted_voc. rewrite sort_by_count_perm, count_texts_words.
  rewrite count_words_spec, map_map. simpl. now rewrite map_id.
Qed.

Lemma sorted_voc_NoDup texts : NoDup (sorted_voc U texts).
Proof. rewrite sorted_voc_perm. apply first_occurrences_NoDup. Qed.

Lemma sorted_voc_elem texts w : w ∈ sorted_voc U texts <-> w ∈ all_words U texts.
Proof. now rewrite sorted_voc_perm, first_occurrences_elem. Qed.

(** The sorted vocabulary lists a word before another when it occurs
    more often, or as often and first. *)
Lemma sorted_voc_order texts p q w1 w2 :
  sorted_voc U texts !! p = Some w1 ->
  sorted_voc U texts !! q = Some w2 ->
  (p < q)%nat ->
  let ws := all_words U texts in
  (occurrences w2 ws < occurrences w1 ws)%nat
  \/ (occurrences w1 ws = occurrences w2 ws /\ precedes w1 w2 ws).
Proof.
  intros Hp Hq Hpq ws. unfold sorted_voc in Hp, Hq.
  rewrite list_lookup_fmap in Hp, Hq.
  destruct (sort_by_count (count_texts U texts) !! p) as [e1|] eqn:E1;
    [|discriminate Hp].
  destruct (sort_by_count (count_texts U texts) !! q) as [e2|] eqn:E2;
    [|discriminate Hq].
  simpl in Hp, Hq. injection Hp as <-. injection Hq as <-.
  pose proof (StronglySorted_lookup _ _ p q e1 e2
                (sort_by_count_sorted (count_texts U texts)) E1 E2 Hpq) as Hord.
  assert (Hentry : forall e, e ∈ sort_by_count (count_texts U texts) ->
                             snd e = occurrences (fst e) ws).
  { intros e He. rewrite sort_by_count_perm, count_texts_words in He.
    rewrite count_words_spec in He.
    apply list_elem_of_fmap in He as (w & -> & _). reflexivity. }
  rewrite <- (Hentry e1), <- (Hentry e2)
    by (apply list_elem_of_lookup; eauto).
  destruct Hord as [Hlt|[Heq (a & b & Ha & Hb & Hab)]]; [now left|].
  right. split; [exact Heq|].
  rewrite count_texts_words, count_words_spec in Ha, Hb.
  rewrite list_lookup_fmap in Ha, Hb.
  destruct (first_occurrences (all_words U texts) !! a) as [v1|] eqn:Ea;
    [|discriminate Ha].
  destruct (first_occurrences (all_words U texts) !! b) as [v2|] eqn:Eb;
    [|discriminate Hb].
  simpl in Ha, Hb. injection Ha as <-. injection Hb as <-. simpl.
  now apply (first_occurrences_order _ a b).
Qed.

Lemma precedes_asymmetric w1 w2 ws : precedes w1 w2 ws -> precedes w2 w1 ws -> False.
Proof.
  intros (p & Hp & Hq) (p' & Hp' & Hq').
  specialize (Hq p' Hp'). specialize (Hq' p Hp). lia.
Qed.

Lemma pad_row_fits maxlen s :
  (length s <= maxlen)%nat ->
  pad_row maxlen s = inr (s ++ replicate (maxlen - length s) 0%Z).
Proof.
  intros Hle. unfold pad_row, last_n.
  destruct (maxlen =? 0)%nat.
  - apply Nat.leb_le in Hle. now rewrite Hle.
  - replace (length s - maxlen)%nat with 0%nat by lia. rewrite drop_0.
    apply Nat.leb_le in Hle. now rewrite Hle.
Qed.

Lemma try_map_total {A B} (f : A -> result B) (g : A -> B) l :
  (forall x, x ∈ l -> f x = inr (g x)) -> try_map f l = inr (map g l).
Proof.
  induction l as [|a l IH]; intros H; simpl; [reflexivity|].
  rewrite H by apply list_elem_of_here. simpl.
  rewrite IH; [reflexivity|]. intros x Hx. apply H. now apply list_elem_of_further.
Qed.

Lemma max_length_bound (seqs : list (list Z)) s :
  s ∈ seqs -> (length s <= foldr Nat.max 0 (map length seqs))%nat.
Proof.
  induction seqs as [|t seqs IH]; intros Hs.
  - now apply elem_of_nil in Hs.
  - simpl. apply elem_of_cons in Hs as [->|Hs]; [lia|].
    specialize (IH Hs). lia.
Qed.

Lemma pad_sequences_total (seqs : list (list Z)) :
  seqs <> [] ->
  pad_sequences seqs None
  = inr (map (fun s => s ++ replicate (foldr Nat.max 0%nat (map length seqs)
                                       - length s) 0%Z) seqs).
Proof.
  intros Hne. unfold pad_sequences.
  assert (Hall : try_map (pad_row (foldr Nat.max 0%nat (map length seqs))) seqs
    = inr (map (fun s => s ++ replicate (foldr Nat.max 0%nat (map length seqs)
                                         - length s) 0%Z) seqs)).
  { apply try_map_total. intros s Hs. apply pad_row_fits.
    now apply max_length_bound. }
  destruct seqs; [congruence|exact Hall].
Qed.

(** [tokenize] fails only on an empty corpus, and otherwise returns the
    fitted tokenizer with the sequences padded after their last id. *)
Lemma tokenize_total lang :
  lang <> [] ->
  let seqs := texts_to_sequences U (fit_on_texts U lang) lang in
  let width := foldr Nat.max 0%nat (map length seqs) in
  tokenize U lang
  = inr (map (fun s => s ++ replicate (width - length s) 0%Z) seqs,
         fit_on_texts U lang).
Proof.
  intros Hne seqs width. unfold tokenize. fold seqs.
  rewrite pad_sequences_total; [reflexivity|].
  unfold seqs, texts_to_sequences. now destruct lang.
Qed.

(** C4, as amended.  The tokenizer gives the ids 1, 2, ... to the
    distinct words of the corpus; id 0 is given to no word; the two
    dictionaries are inverse to each other; and a word has a smaller id
    than another exactly when it occurs more often in the corpus, or as
    often and with an earlier first occurrence.  [tokenize] returns
    this tokenizer, and fails only on an empty corpus. *)
Theorem tokenize_ids_by_decreasing_count (lang : list pystr) :
  let ws := all_words U lang in
  let tk := fit_on_texts U lang in
  match tokenize U lang with
  | inr (_, tk') => tk' = tk
  | inl e => e = ValueError /\ lang = []
  end
  /\ (forall w, is_Some (word_index tk !! w) <-> w ∈ ws)
  /\ (forall w i, word_index tk !! w = Some i <-> index_word tk !! i = Some w)
  /\ (forall i, is_Some (index_word tk !! i)
                <-> (1 <= i <= Z.of_nat (length (first_occurrences ws)))%Z)
  /\ (forall w1 w2 i1 i2,
        word_index tk !! w1 = Some i1 ->
        word_index tk !! w2 = Some i2 ->
        ((i1 < i2)%Z
         <-> (occurrences w2 ws < occurrences w1 ws)%nat
             \/ (occurrences w1 ws = occurrences w2 ws /\ precedes w1 w2 ws))).
Proof.
  intros ws tk. subst ws tk.
  set (ws := all_words U lang). set (tk := fit_on_texts U lang).
  pose proof (sorted_voc_NoDup lang) as Hnd.
  assert (Hfwd : forall w1 w2 i1 i2,
    word_index tk !! w1 = Some i1 -> word_index tk !! w2 = Some i2 ->
    (i1 < i2)%Z ->
    (occurrences w2 ws < occurrences w1 ws)%nat
    \/ (occurrences w1 ws = occurrences w2 ws /\ precedes w1 w2 ws)).
  { intros w1 w2 i1 i2 H1 H2 Hlt.
    apply word_index_spec in H1 as (p & Hp & ->); [|exact Hnd].
    apply word_index_spec in H2 as (q & Hq & ->); [|exact Hnd].
    apply (sorted_voc_order lang p q); [exact Hp|exact Hq|lia]. }
  split; [|split; [|split; [|split]]].
  - destruct (decide (lang = [])) as [->|Hne].
    + simpl. now split.
    + rewrite tokenize_total by exact Hne. reflexivity.
  - intros w. unfold ws. rewrite <- sorted_voc_elem. split.
    + intros [i Hi]. apply word_index_spec in Hi as (p & Hp & _); [|exact Hnd].
      apply list_elem_of_lookup. eauto.
    + intros Hw. apply list_elem_of_lookup in Hw as [p Hp].
      exists (Z.of_nat (S p)). apply word_index_spec; [exact Hnd|]. eauto.
  - intros w i. unfold tk. rewrite word_index_spec by exact Hnd.
    now rewrite index_word_spec.
  - intros i. unfold ws.
    rewrite <- (Permutation_length (sorted_voc_perm lang)). split.
    + intros [w Hw]. apply index_word_spec in Hw as (p & Hp & ->).
      apply lookup_lt_Some in Hp. lia.
    + intros Hi.
      destruct (lookup_lt_is_Some_2 (sorted_voc U lang) (Z.to_nat (i - 1)))
        as [w Hw]; [lia|].
      exists w. apply index_word_spec. exists (Z.to_nat (i - 1)).
      split; [exact Hw|lia].
  - intros w1 w2 i1 i2 H1 H2. split; [now apply Hfwd|].
    intros Hprio.
    destruct (Z.lt_trichotomy i1 i2) as [Hlt|[Heq|Hgt]]; [exact Hlt| |].
    + exfalso. subst i2.
      apply word_index_spec in H1 as (p & Hp & Ei); [|exact Hnd].
      apply word_index_spec in H2 as (q & Hq & Ei'); [|exact Hnd].
      assert (p = q) by lia. subst q. rewrite Hp in Hq. injection Hq as <-.
      destruct Hprio as [Hc|[_ (a & Ha & Hc)]]; [lia|].
      specialize (Hc a Ha). lia.
    + exfalso. pose proof (Hfwd w2 w1 i2 i1 H2 H1 Hgt) as Hrev.
      destruct Hprio as [Hc|[Hc1 Hc2]], Hrev as [Hr|[Hr1 Hr2]]; try lia.
      now apply (precedes_asymmetric w1 w2 ws).
Qed.

End TokenizeFacts.

(** C4, as stated, fails.  In the corpus of the two sentences
    [<start> go . <end>] and [<start> run . <end>] the second distinct
    word is [go]; its id is 4, not 2, because the full stop and the end
    marker occur twice. *)
Lemma ids_by_first_occurrence_fails :
  ~ ids_by_first_occurrence basic_latin Demo.sentences.
Proof.
  intros H. specialize (H 1%nat (of_string "go") eq_refl).
  vm_compute in H. discriminate H.
Qed.

(* ===================================================================== *)
(** * Properties of preprocessing                                         *)
(* ===================================================================== *)

Section CharFacts.

Lemma bool_false_intro (b : bool) : (b = true -> False) -> b = false.
Proof. destruct b; [intros H; now destruct H|reflexivity]. Qed.

Ltac b2p :=
  unfold is_kept, is_punct, is_letter, is_quote_or_space, isspace, in_range,
    plain, SPACE, QUOTE, INVERTED_QUESTION in *;
  repeat rewrite ?orb_true_iff, ?andb_true_iff, ?N.eqb_eq, ?N.leb_le,
    ?N.ltb_lt in *.

Ltac bfalse := apply bool_false_intro; intros ?; b2p; lia.

Lemma punct_facts c :
  is_punct c = true ->
  is_letter c = false /\ c <> SPACE /\ is_quote_or_space c = false
  /\ isspace c = false /\ plain c = true /\ ascii_lower c = c.
Proof.
  intros H.
  assert (Hc : c = 63%N \/ c = 46%N \/ c = 33%N \/ c = 44%N \/ c = 191%N)
    by (b2p; lia).
  destruct Hc as [->|[->|[->|[->| ->]]]]; repeat split; discriminate.
Qed.

Lemma letter_facts c :
  is_letter c = true ->
  is_punct c = false /\ c <> SPACE /\ is_quote_or_space c = false
  /\ isspace c = false /\ plain c = true
  /\ is_letter (ascii_lower c) = true.
Proof.
  intros H.
  assert (Hc : (97 <= c <= 122)%N \/ (65 <= c <= 90)%N) by (b2p; lia).
  split; [bfalse|]. split; [unfold SPACE; lia|]. split; [bfalse|].
  split; [bfalse|]. split; [b2p; lia|].
  unfold ascii_lower. destruct (in_range 65 90 c) eqn:E; [|exact H].
  b2p. lia.
Qed.

Lemma class_of_Sp c : class_of c = Some Sp -> c = SPACE.
Proof.
  unfold class_of. destruct (N.eqb_spec c SPACE); [easy|].
  destruct (is_punct c); [discriminate|]. destruct (is_letter c); discriminate.
Qed.

Lemma class_of_Pu c : class_of c = Some Pu -> is_punct c = true.
Proof.
  unfold class_of. destruct (c =? SPACE)%N; [discriminate|].
  destruct (is_punct c); [reflexivity|]. destruct (is_letter c); discriminate.
Qed.

Lemma class_of_Le c :
  class_of c = Some Le -> is_letter c = true /\ is_punct c = false.
Proof.
  unfold class_of. destruct (c =? SPACE)%N; [discriminate|].
  destruct (is_punct c); [discriminate|]. destruct (is_letter c); [easy|discriminate].
Qed.

Lemma class_of_punct c : is_punct c = true -> class_of c = Some Pu.
Proof.
  intros H. destruct (punct_facts c H) as (_ & Hs & _).
  unfold class_of. apply N.eqb_neq in Hs. now rewrite Hs, H.
Qed.

Lemma class_of_letter c : is_letter c = true -> class_of c = Some Le.
Proof.
  intros H. destruct (letter_facts c H) as (Hp & Hs & _).
  unfold class_of. apply N.eqb_neq in Hs. now rewrite Hs, Hp, H.
Qed.

Lemma class_of_lower c : class_of (ascii_lower c) = class_of c.
Proof.
  destruct (is_letter c) eqn:El.
  - destruct (letter_facts c El) as (_ & _ & _ & _ & _ & Hl).
    now rewrite (class_of_letter _ Hl), (class_of_letter _ El).
  - unfold ascii_lower. destruct (in_range 65 90 c) eqn:E; [|reflexivity].
    unfold is_letter in El. rewrite E, orb_true_r in El. discriminate.
Qed.

Lemma class_of_plain c q : class_of c = Some q -> plain c = true.
Proof.
  destruct q; intros H.
  - apply class_of_Sp in H. now subst.
  - apply class_of_Pu in H. now apply punct_facts.
  - apply class_of_Le in H as [H _]. now apply letter_facts.
Qed.

Lemma class_of_not_space c q :
  class_of c = Some q -> q <> Sp -> isspace c = false.
Proof.
  destruct q; intros H Hq; [congruence| |].
  - apply class_of_Pu in H. now apply punct_facts.
  - apply class_of_Le in H as [H _]. now apply letter_facts.
Qed.

End CharFacts.

Section FirstPass.

(** After the first substitution every punctuation mark stands between
    two spaces. *)
Lemma sub_pad_flanked y prev :
  is_PuS prev = false -> flanked prev (sub_pad is_punct y) = true.
Proof.
  revert prev. induction y as [|c y IH]; intros prev Hprev; simpl.
  - now rewrite Hprev.
  - destruct (is_punct c) eqn:Ep; simpl.
    + rewrite Ep. simpl. now apply IH.
    + rewrite Ep, Hprev. simpl. destruct (c =? SPACE)%N; now apply IH.
Qed.

(** Replacing runs of a class that holds the space and no punctuation
    mark keeps them there.  [prev'] is the class of the last character
    written, [prev] that of the last character read. *)
Lemma sub_runs_flanked cls w (st : bool) prev prev' :
  cls SPACE = true ->
  (forall c, is_punct c = true -> cls c = false) ->
  flanked prev w = true ->
  (if st then prev' = SpS else prev' = prev /\ prev <> SpS) ->
  flanked prev' (sub_runs cls st w) = true.
Proof.
  intros Hsp Hpu. revert st prev prev'.
  induction w as [|c w IH]; intros st prev prev' Hf Hrel; simpl in *.
  - destruct st; [now subst|]. now destruct Hrel as [-> _].
  - destruct (cls c) eqn:Ec.
    + assert (Ep : is_punct c = false).
      { apply bool_false_intro. intros Ep. apply Hpu in Ep. congruence. }
      rewrite Ep in Hf.
      assert (Hw : exists p, flanked p w = true).
      { destruct (c =? SPACE)%N; [now exists SpS|].
        apply andb_true_iff in Hf as [_ Hf]. now exists OtS. }
      destruct Hw as [p Hw].
      destruct st.
      * now apply (IH true p).
      * simpl. now apply (IH true p).
    + assert (Es : (c =? SPACE)%N = false).
      { apply N.eqb_neq. intros ->. congruence. }
      simpl. rewrite Es in *.
      assert (Hprev' : st = false -> prev' = prev).
      { intros ->. now destruct Hrel. }
      destruct (is_punct c) eqn:Ep.
      * apply andb_true_iff in Hf as [Hs Hf].
        assert (prev' = SpS) as ->.
        { destruct st; [exact Hrel|]. destruct Hrel as [_ Hne].
          destruct prev; [congruence|discriminate|discriminate]. }
        simpl. apply (IH false PuS); [exact Hf|]. now split.
      * apply andb_true_iff in Hf as [Hs Hf].
        assert (Hp : is_PuS prev' = false).
        { destruct st; [now subst|]. rewrite (Hprev' eq_refl).
          now apply negb_true_iff. }
        rewrite Hp. simpl. apply (IH false OtS); [exact Hf|]. now split.
Qed.

(** After the last substitution the text has the shape of words and
    punctuation marks between single spaces, maybe with a space at
    either end. *)
Lemma sub_runs_shape w (st : bool) prev q :
  flanked prev w = true ->
  (if st then q = Sp else (q = Pu /\ prev = PuS) \/ (q = Le /\ prev = OtS)) ->
  shape (fun q => negb (is_Pu q)) q
        (sub_runs (fun c => negb (is_kept c)) st w) = true.
Proof.
  revert st prev q.
  induction w as [|c w IH]; intros st prev q Hf Hrel; simpl in *.
  - destruct st; [now subst|].
    destruct Hrel as [[-> ->]|[-> _]]; [discriminate Hf|reflexivity].
  - destruct (is_kept c) eqn:Ek; simpl.
    + unfold is_kept in Ek. destruct (is_punct c) eqn:Ep.
      * rewrite (class_of_punct c Ep).
        destruct (punct_facts c Ep) as (_ & Hs & _).
        apply andb_true_iff in Hf as [Hs' Hf].
        assert (q = Sp) as ->.
        { destruct st; [exact Hrel|].
          destruct Hrel as [[_ ->]|[_ ->]]; discriminate Hs'. }
        simpl. apply (IH false PuS); [exact Hf|]. now left.
      * rewrite orb_false_r in Ek. rewrite (class_of_letter c Ek).
        destruct (letter_facts c Ek) as (_ & Hs & _).
        apply N.eqb_neq in Hs. rewrite Hs in Hf.
        apply andb_true_iff in Hf as [Hp Hf].
        assert (Hq : is_Pu q = false).
        { destruct st; [now subst|].
          destruct Hrel as [[_ ->]|[-> _]]; [discriminate Hp|reflexivity]. }
        rewrite Hq. simpl. apply (IH false OtS); [exact Hf|]. now right.
    + assert (Ep : is_punct c = false).
      { unfold is_kept in Ek. now apply orb_false_iff in Ek as [_ Ek]. }
      rewrite Ep in Hf.
      assert (Hw : exists p, flanked p w = true).
      { destruct (c =? SPACE)%N; [now exists SpS|].
        apply andb_true_iff in Hf as [_ Hf]. now exists OtS. }
      destruct Hw as [p Hw].
      destruct st.
      * now apply (IH true p).
      * simpl. change (class_of SPACE) with (Some Sp).
        assert (Hq : is_Sp q = false)
          by (destruct Hrel as [[-> _]|[-> _]]; reflexivity).
        rewrite Hq. simpl. now apply (IH true p).
Qed.

Lemma shape_app e prev w v :
  shape e prev (w ++ v) = shape (fun q => shape e q v) prev w.
Proof.
  revert prev. induction w as [|c w IH]; intros prev; simpl; [reflexivity|].
  destruct (class_of c) as [[| |]|]; now rewrite ?IH.
Qed.

Lemma shape_end e prev w : shape e prev w = true -> exists q, e q = true.
Proof.
  revert prev. induction w as [|c w IH]; intros prev H; simpl in H.
  - now exists prev.
  - destruct (class_of c) as [[| |]|]; try discriminate H;
      apply andb_true_iff in H as [_ H]; now apply IH in H.
Qed.

Lemma shape_ext e e' prev w :
  (forall q, e q = e' q) -> shape e prev w = shape e' prev w.
Proof.
  intros He. revert prev. induction w as [|c w IH]; intros prev; simpl; [apply He|].
  destruct (class_of c) as [[| |]|]; now rewrite ?IH.
Qed.

Lemma rstrip_snoc w c :
  rstrip (w ++ [c]) = if isspace c then rstrip w else w ++ [c].
Proof.
  unfold rstrip. rewrite rev_app_distr. simpl.
  destruct (isspace c); [reflexivity|]. simpl. now rewrite rev_involutive.
Qed.

(** A text of that shape ends with a letter or a punctuation mark, so
    stripping leaves it as it is. *)
Lemma tokens_shape_last w :
  tokens_shape w = true ->
  exists w' c, w = w' ++ [c] /\ isspace c = false.
Proof.
  intros H. destruct w as [|c0 w0] using rev_ind; [discriminate H|].
  clear IHw0. exists w0, c0. split; [reflexivity|].
  unfold tokens_shape in H. rewrite shape_app in H.
  apply shape_end in H as [q Hq]. simpl in Hq.
  destruct (class_of c0) as [[| |]|] eqn:Ec; try discriminate Hq.
  - apply andb_true_iff in Hq as [_ Hq]. discriminate Hq.
  - now apply (class_of_not_space c0 Pu).
  - now apply (class_of_not_space c0 Le).
Qed.

Lemma lstrip_shape w :
  shape (fun q => negb (is_Pu q)) Le w = true ->
  lstrip w = []
  \/ (lstrip w <> [] /\ shape (fun q => negb (is_Pu q)) Sp (lstrip w) = true).
Proof.
  destruct w as [|c w]; [now left|]. simpl.
  destruct (class_of c) as [[| |]|] eqn:Ec; try discriminate.
  - apply class_of_Sp in Ec as ->. simpl. intros H.
    destruct w as [|c' w]; [now left|]. right. simpl in *.
    destruct (class_of c') as [[| |]|] eqn:Ec'; try discriminate H.
    + rewrite (class_of_not_space c' Pu) by easy. split; [easy|].
      simpl. now rewrite Ec'.
    + rewrite (class_of_not_space c' Le) by easy. split; [easy|].
      simpl. now rewrite Ec'.
  - intros H. rewrite (class_of_not_space c Le) by easy. right.
    split; [easy|]. simpl. now rewrite Ec.
Qed.

Lemma rstrip_shape w :
  w <> [] -> shape (fun q => negb (is_Pu q)) Sp w = true ->
  tokens_shape (rstrip w) = true.
Proof.
  destruct w as [|c w] using rev_ind; [congruence|]. clear IHw.
  intros _ H. rewrite shape_app in H. rewrite rstrip_snoc.
  destruct (class_of c) as [[| |]|] eqn:Ec.
  - assert (Ht : tokens_shape w = true).
    { unfold tokens_shape. rewrite <- H. apply shape_ext. intros q. simpl.
      rewrite Ec. simpl. now rewrite andb_true_r. }
    apply class_of_Sp in Ec as ->. simpl.
    destruct (tokens_shape_last w Ht) as (v & d & -> & Hd).
    now rewrite rstrip_snoc, Hd.
  - exfalso. assert (Hf : shape (fun _ => false) Sp w = true).
    { rewrite <- H. apply shape_ext. intros q. simpl. rewrite Ec. simpl.
      now rewrite andb_false_r. }
    apply shape_end in Hf as [_ Hf]. discriminate Hf.
  - rewrite (class_of_not_space c Le) by easy.
    unfold tokens_shape. rewrite shape_app, <- H. apply shape_ext.
    intros q. simpl. now rewrite Ec.
  - exfalso. assert (Hf : shape (fun _ => false) Sp w = true).
    { rewrite <- H. apply shape_ext. intros q. simpl. now rewrite Ec. }
    apply shape_end in Hf as [_ Hf]. discriminate Hf.
Qed.

(** The text [preprocess_sentence] puts between its markers is empty or
    a sequence of words and punctuation marks separated by single
    spaces, whatever the input and the Unicode database. *)
Lemma normalize_sentence_shape U s :
  normalize_sentence U s = [] \/ tokens_shape (normalize_sentence U s) = true.
Proof.
  unfold normalize_sentence.
  set (w0 := unicode_to_ascii U (strip (str_lower U s))).
  set (w3 := sub_runs (fun c => negb (is_kept c)) false
               (sub_runs is_quote_or_space false (sub_pad is_punct w0))).
  assert (H3 : shape (fun q => negb (is_Pu q)) Le w3 = true).
  { apply (sub_runs_shape _ false OtS Le); [|now right].
    apply (sub_runs_flanked _ _ false OtS OtS); try easy.
    - intros c Hc. now apply punct_facts.
    - now apply sub_pad_flanked. }
  unfold strip. destruct (lstrip_shape w3 H3) as [->|[Hne Hs]]; [now left|].
  right. now apply rstrip_shape.
Qed.

End FirstPass.

Section SecondPass.

Lemma shape_plain e prev w : shape e prev w = true -> forallb plain w = true.
Proof.
  revert prev. induction w as [|c w IH]; intros prev H; [reflexivity|].
  simpl in *. destruct (class_of c) as [q|] eqn:Ec; [|discriminate H].
  rewrite (class_of_plain c q Ec). simpl.
  destruct q; apply andb_true_iff in H as [_ H]; now apply IH in H.
Qed.

Lemma shape_lower e prev w : shape e prev (map ascii_lower w) = shape e prev w.
Proof.
  revert prev. induction w as [|c w IH]; intros prev; simpl; [reflexivity|].
  rewrite class_of_lower. destruct (class_of c) as [[| |]|]; now rewrite ?IH.
Qed.

(** The first two substitutions leave a text of words and punctuation
    marks between single spaces as it is, when a space follows it. *)
Lemma sub_pad_runs_shape b prev rest :
  shape (fun q => negb (is_Sp q)) prev b = true ->
  sub_runs is_quote_or_space (match prev with Le => false | _ => true end)
    (sub_pad is_punct b ++ SPACE :: rest)
  = (if is_Pu prev then drop 1 (b ++ [SPACE]) else b ++ [SPACE])
    ++ sub_runs is_quote_or_space true rest.
Proof.
  revert prev. induction b as [|c b IH]; intros prev H.
  - simpl in *. destruct prev; [discriminate H|reflexivity|reflexivity].
  - simpl in H. destruct (class_of c) as [[| |]|] eqn:Ec; try discriminate H.
    + apply class_of_Sp in Ec as ->.
      apply andb_true_iff in H as [Hp H]. specialize (IH Sp H). simpl in IH.
      change (sub_pad is_punct (SPACE :: b)) with (SPACE :: sub_pad is_punct b).
      destruct prev; [discriminate Hp| |]; simpl; now rewrite IH.
    + apply class_of_Pu in Ec.
      destruct (punct_facts c Ec) as (_ & _ & Hq & _).
      apply andb_true_iff in H as [Hp H]. destruct prev; try discriminate Hp.
      specialize (IH Pu H). simpl in IH.
      unfold sub_pad in *. simpl. rewrite Ec. simpl. rewrite Hq.
      rewrite IH. simpl. f_equal.
      destruct b as [|c' b]; [reflexivity|]. simpl in H.
      destruct (class_of c') as [[| |]|] eqn:Ec'; try discriminate H.
      apply class_of_Sp in Ec' as ->. reflexivity.
    + apply class_of_Le in Ec as [El Ep].
      destruct (letter_facts c El) as (_ & _ & Hq & _).
      apply andb_true_iff in H as [Hp H]. specialize (IH Le H). simpl in IH.
      unfold sub_pad in *. simpl. rewrite Ep. simpl. rewrite Hq, IH.
      destruct prev; [reflexivity|discriminate Hp|reflexivity].
Qed.

(** So does the third. *)
Lemma sub_kept_runs_shape b prev rest :
  shape (fun q => negb (is_Sp q)) prev b = true ->
  sub_runs (fun c => negb (is_kept c)) (is_Sp prev) (b ++ SPACE :: rest)
  = b ++ SPACE :: sub_runs (fun c => negb (is_kept c)) true rest.
Proof.
  revert prev. induction b as [|c b IH]; intros prev H.
  - simpl in *. destruct prev; [discriminate H|reflexivity|reflexivity].
  - simpl in H. destruct (class_of c) as [[| |]|] eqn:Ec; try discriminate H.
    + apply class_of_Sp in Ec as ->.
      apply andb_true_iff in H as [Hp H]. specialize (IH Sp H). simpl in IH.
      destruct prev; [discriminate Hp| |]; simpl; now rewrite IH.
    + apply class_of_Pu in Ec.
      apply andb_true_iff in H as [Hp H]. specialize (IH Pu H). simpl in IH.
      simpl. unfold is_kept at 1. rewrite Ec, orb_true_r. simpl.
      now rewrite IH.
    + apply class_of_Le in Ec as [El Ep].
      apply andb_true_iff in H as [Hp H]. specialize (IH Le H). simpl in IH.
      simpl. unfold is_kept at 1. rewrite El. simpl. now rewrite IH.
Qed.

Lemma filter_all {A} (f : A -> bool) (l : list A) :
  (forall x, x ∈ l -> f x = true) -> filter (fun x => f x) l = l.
Proof.
  induction l as [|a l IH]; intros H; [reflexivity|].
  rewrite filter_cons.
  destruct (decide (f a)) as [_|Hn].
  - f_equal. apply IH. intros x Hx. apply H. now apply list_elem_of_further.
  - exfalso. apply Hn. rewrite H by apply list_elem_of_here. exact I.
Qed.

Variable U : UnicodeData.
Hypothesis HU : respects_basic_latin U.

(** Lower-casing, stripping and [unicode_to_ascii] leave a plain text
    that has no white space at either end as its ASCII lower-casing. *)
Lemma first_steps_plain c w d :
  forallb plain (c :: w ++ [d]) = true ->
  isspace (ascii_lower c) = false -> isspace (ascii_lower d) = false ->
  unicode_to_ascii U (strip (str_lower U (c :: w ++ [d])))
  = map ascii_lower (c :: w ++ [d]).
Proof.
  intros Hp Hc Hd. rewrite (lower_plain U HU) by exact Hp.
  assert (Hs : strip (map ascii_lower (c :: w ++ [d]))
               = map ascii_lower (c :: w ++ [d])).
  { unfold strip. simpl. rewrite Hc. rewrite map_app. simpl.
    change (ascii_lower c :: map ascii_lower w ++ [ascii_lower d])
      with ((ascii_lower c :: map ascii_lower w) ++ [ascii_lower d]).
    now rewrite rstrip_snoc, Hd. }
  rewrite Hs. unfold unicode_to_ascii.
  assert (Hp' : forallb plain (map ascii_lower (c :: w ++ [d])) = true).
  { rewrite forallb_forall in *. intros x Hx. apply in_map_iff in Hx as (y & <- & Hy).
    specialize (Hp y Hy). unfold ascii_lower.
    destruct (in_range 65 90 y) eqn:E; [|exact Hp].
    unfold plain, in_range in *. apply andb_true_iff in E as [E1 E2].
    apply N.leb_le in E1, E2. apply orb_true_iff. left. apply N.ltb_lt. lia. }
  rewrite (nfd_plain U HU) by exact Hp'.
  apply filter_all. intros x Hx. rewrite forallb_forall in Hp'.
  apply list_elem_of_In in Hx. rewrite (mn_plain U HU); [reflexivity|].
  now apply Hp'.
Qed.

Lemma wrap_plain b : forallb plain b = true -> forallb plain (wrap b) = true.
Proof.
  intros H. unfold wrap. rewrite !forallb_app, H. reflexivity.
Qed.

Lemma wrap_ends b :
  exists w, wrap b = 60%N :: w ++ [62%N].
Proof.
  exists ([115; 116; 97; 114; 116; 62; 32]%N ++ b ++ [32; 60; 101; 110; 100]%N).
  unfold wrap. change START with ([60]%N ++ [115; 116; 97; 114; 116; 62]%N).
  change END with ([60; 101; 110; 100]%N ++ [62]%N).
  change [SPACE] with [32%N]. simpl. f_equal.
  repeat rewrite <- app_assoc. reflexivity.
Qed.

Lemma wrap_lower b : map ascii_lower (wrap b) = wrap (map ascii_lower b).
Proof. unfold wrap. rewrite !map_app. reflexivity. Qed.

(** The normalization of a wrapped, non-empty normalized text. *)
Lemma normalize_wrapped b :
  tokens_shape b = true ->
  normalize_sentence U (wrap b)
  = of_string "start" ++ [SPACE] ++ map ascii_lower b ++ [SPACE] ++ of_string "end".
Proof.
  intros Hb. unfold normalize_sentence.
  destruct (wrap_ends b) as [w Hw].
  assert (H1 : unicode_to_ascii U (strip (str_lower U (wrap b)))
               = wrap (map ascii_lower b)).
  { rewrite <- wrap_lower. rewrite Hw. apply first_steps_plain; [|reflexivity..].
    rewrite <- Hw. apply wrap_plain.
    apply (shape_plain (fun q => negb (is_Sp q)) Sp). exact Hb. }
  rewrite H1. set (b' := map ascii_lower b).
  assert (Hb' : shape (fun q => negb (is_Sp q)) Sp b' = true).
  { unfold b'. now rewrite shape_lower. }
  assert (H2 : sub_pad is_punct (wrap b')
               = START ++ [SPACE] ++ sub_pad is_punct b' ++ SPACE :: END).
  { unfold wrap, sub_pad. rewrite !flat_map_app. reflexivity. }
  rewrite H2.
  assert (H3 : sub_runs is_quote_or_space false
                 (START ++ [SPACE] ++ sub_pad is_punct b' ++ SPACE :: END)
               = START ++ [SPACE] ++ b' ++ SPACE :: END).
  { change (sub_runs is_quote_or_space false
              (START ++ [SPACE] ++ sub_pad is_punct b' ++ SPACE :: END))
      with (START ++ [SPACE]
            ++ sub_runs is_quote_or_space true (sub_pad is_punct b' ++ SPACE :: END)).
    rewrite (sub_pad_runs_shape b' Sp END Hb'). simpl.
    rewrite <- app_assoc. reflexivity. }
  rewrite H3.
  assert (H4 : sub_runs (fun c => negb (is_kept c)) false
                 (START ++ [SPACE] ++ b' ++ SPACE :: END)
               = SPACE :: of_string "start" ++ [SPACE] ++ b' ++ [SPACE]
                 ++ of_string "end" ++ [SPACE]).
  { change (sub_runs (fun c => negb (is_kept c)) false
              (START ++ [SPACE] ++ b' ++ SPACE :: END))
      with (SPACE :: of_string "start" ++ [SPACE]
            ++ sub_runs (fun c => negb (is_kept c)) true (b' ++ SPACE :: END)).
    pose proof (sub_kept_runs_shape b' Sp END Hb') as Hk.
    change (is_Sp Sp) with true in Hk. rewrite Hk. reflexivity. }
  rewrite H4. unfold strip.
  change (lstrip (SPACE :: of_string "start" ++ [SPACE] ++ b' ++ [SPACE]
                  ++ of_string "end" ++ [SPACE]))
    with (of_string "start" ++ [SPACE] ++ b' ++ [SPACE] ++ of_string "end" ++ [SPACE]).
  replace (of_string "start" ++ [SPACE] ++ b' ++ [SPACE] ++ of_string "end" ++ [SPACE])
    with (((of_string "start" ++ [SPACE] ++ b' ++ [SPACE] ++ of_string "en")
           ++ [100%N]) ++ [SPACE])
    by (repeat rewrite <- app_assoc; reflexivity).
  rewrite rstrip_snoc. change (isspace SPACE) with true. cbv iota.
  rewrite rstrip_snoc. change (isspace 100) with false. cbv iota.
  repeat rewrite <- app_assoc. reflexivity.
Qed.

(** The normalization of the wrapped empty text. *)
Lemma normalize_wrapped_empty :
  normalize_sentence U (wrap []) = of_string "start end".
Proof.
  unfold normalize_sentence.
  assert (H1 : unicode_to_ascii U (strip (str_lower U (wrap []))) = wrap []).
  { destruct (wrap_ends []) as [w Hw]. rewrite Hw.
    rewrite first_steps_plain; [|rewrite <- Hw; reflexivity|reflexivity..].
    rewrite <- Hw. reflexivity. }
  rewrite H1. reflexivity.
Qed.

Lemma wrap_inj a b : wrap a = wrap b -> a = b.
Proof.
  unfold wrap. intros H. apply app_inv_head in H. apply app_inv_head in H.
  change ([SPACE] ++ END) with ([SPACE] ++ END) in H.
  rewrite !app_assoc in H. apply app_inv_tail in H. now apply app_inv_tail in H.
Qed.

(** C6, as amended.  With a Unicode database that treats Basic Latin
    and the inverted question mark as Python does, a second application
    of [preprocess_sentence] does not return its argument: it turns the
    markers of the first application into the words [start] and [end],
    keeps the text between them (lower-cased) and adds new markers. *)
Theorem preprocess_twice_rewraps (s : pystr) :
  preprocess_sentence U (preprocess_sentence U s)
  = wrap (rewrapped (normalize_sentence U s))
  /\ preprocess_sentence U (preprocess_sentence U s) <> preprocess_sentence U s.
Proof.
  assert (H : preprocess_sentence U (preprocess_sentence U s)
              = wrap (rewrapped (normalize_sentence U s))).
  { change (preprocess_sentence U (preprocess_sentence U s))
      with (wrap (normalize_sentence U (wrap (normalize_sentence U s)))).
    f_equal. unfold rewrapped.
    destruct (normalize_sentence_shape U s) as [E|Hs].
    - rewrite E. rewrite normalize_wrapped_empty. reflexivity.
    - rewrite (normalize_wrapped _ Hs).
      destruct (decide (normalize_sentence U s = [])) as [E|_].
      + rewrite E in Hs. discriminate Hs.
      + repeat rewrite <- app_assoc. reflexivity. }
  split; [exact H|]. rewrite H.
  change (preprocess_sentence U s) with (wrap (normalize_sentence U s)).
  intros E. apply wrap_inj in E. apply (f_equal length) in E.
  unfold rewrapped in E. rewrite !length_app in E.
  destruct (decide (normalize_sentence U s = [])) as [E0|_].
  - rewrite E0 in E. discriminate E.
  - rewrite length_app, length_map in E. simpl in E. lia.
Qed.

End SecondPass.

Lemma basic_latin_respects : respects_basic_latin basic_latin.
Proof. split; reflexivity. Qed.

Lemma preprocess_twice_rewraps_witness :
  preprocess_sentence basic_latin (preprocess_sentence basic_latin (of_string "Go."))
  = wrap (rewrapped (normalize_sentence basic_latin (of_string "Go.")))
  /\ preprocess_sentence basic_latin
       (preprocess_sentence basic_latin (of_string "Go."))
     <> preprocess_sentence basic_latin (of_string "Go.").
Proof.
  apply (preprocess_twice_rewraps basic_latin basic_latin_respects (of_string "Go.")).
Defined.

(** C6, as stated, fails: preprocessing [Go.] gives
    [<start> go . <end>], and preprocessing that gives
    [<start> start go . end <end>]. *)
Lemma preprocess_sentence_not_idempotent :
  preprocess_sentence basic_latin (preprocess_sentence basic_latin (of_string "Go."))
  <> preprocess_sentence basic_latin (of_string "Go.").
Proof. vm_compute. discriminate. Qed.

(* ===================================================================== *)
(** * Further properties: the tokens of a preprocessed sentence           *)
(* ===================================================================== *)

Section TokenFacts.

Lemma split_on_app sep w v :
  split_on sep (w ++ sep :: v) = split_on sep w ++ split_on sep v.
Proof.
  induction w as [|c w IH]; simpl.
  - now rewrite N.eqb_refl.
  - destruct (c =? sep)%N; [now rewrite IH|]. rewrite IH.
    destruct (split_on sep w) as [|f fs] eqn:E; [|reflexivity].
    destruct w; simpl in E; [discriminate E|].
    destruct (n =? sep)%N; [discriminate E|].
    destruct (split_on sep w); discriminate E.
Qed.

Lemma split_on_no_sep sep w :
  Forall (fun c => c <> sep) w -> split_on sep w = [w].
Proof.
  induction 1 as [|c w Hc _ IH]; simpl; [reflexivity|].
  apply N.eqb_neq in Hc. now rewrite Hc, IH.
Qed.

(** The fields of a text of words and punctuation marks between single
    spaces.  The first field continues what came before: nothing after
    a punctuation mark, letters after a letter. *)
Lemma split_on_shape w prev :
  shape (fun q => negb (is_Sp q)) prev w = true ->
  exists t ts,
    split_on SPACE w = t :: ts /\ Forall token_ok ts
    /\ match prev with
       | Sp => token_ok t
       | Pu => t = []
       | Le => Forall (fun c => is_letter c = true) t
       end.
Proof.
  revert prev. induction w as [|c w IH]; intros prev H; simpl in *.
  - exists [], []. split; [reflexivity|]. split; [constructor|].
    destruct prev; [discriminate H|reflexivity|constructor].
  - destruct (class_of c) as [[| |]|] eqn:Ec; try discriminate H;
      apply andb_true_iff in H as [Hp H].
    + apply class_of_Sp in Ec as ->. change (SPACE =? SPACE)%N with true.
      destruct (IH Sp H) as (t & ts & -> & Hts & Ht).
      exists [], (t :: ts). split; [reflexivity|]. split; [now constructor|].
      destruct prev; [discriminate Hp|reflexivity|constructor].
    + apply class_of_Pu in Ec.
      destruct (punct_facts c Ec) as (_ & Hs & _).
      apply N.eqb_neq in Hs. rewrite Hs.
      destruct (IH Pu H) as (t & ts & -> & Hts & ->).
      exists [c], ts. split; [reflexivity|]. split; [exact Hts|].
      destruct prev; try discriminate Hp. right. now exists c.
    + apply class_of_Le in Ec as [El _].
      destruct (letter_facts c El) as (_ & Hs & _).
      apply N.eqb_neq in Hs. rewrite Hs.
      destruct (IH Le H) as (t & ts & -> & Hts & Ht).
      exists (c :: t), ts. split; [reflexivity|]. split; [exact Hts|].
      destruct prev; [|discriminate Hp|].
      * left. split; [discriminate|now constructor].
      * now constructor.
Qed.

Lemma split_on_wrap body :
  split_on SPACE (wrap body) = START :: split_on SPACE body ++ [END].
Proof.
  unfold wrap.
  change (START ++ [SPACE] ++ body ++ [SPACE] ++ END)
    with (START ++ SPACE :: (body ++ SPACE :: END)).
  rewrite !split_on_app. reflexivity.
Qed.

(** X1.  Whatever the sentence and the Unicode database, the tokens of a
    preprocessed sentence, read off at the spaces, are the start marker,
    then words of the letters a-z and A-Z and single punctuation marks,
    then the end marker.  The one exception is a sentence of which
    nothing remains: it has one empty token between the markers. *)
Theorem preprocess_sentence_tokens (U : UnicodeData) (s : pystr) :
  let body := normalize_sentence U s in
  let tokens := split_on SPACE (preprocess_sentence U s) in
  (body = [] /\ tokens = [START; []; END])
  \/ (exists ts,
        ts <> [] /\ Forall token_ok ts
        /\ split_on SPACE body = ts
        /\ tokens = START :: ts ++ [END]).
Proof.
  intros body tokens. unfold tokens, preprocess_sentence. fold body.
  rewrite split_on_wrap.
  destruct (normalize_sentence_shape U s) as [E|Hs]; fold body in E || fold body in Hs.
  - left. rewrite E. now split.
  - right. destruct (split_on_shape body Sp Hs) as (t & ts & E & Hts & Ht).
    exists (t :: ts). split; [discriminate|]. split; [now constructor|].
    split; [exact E|]. now rewrite E.
Qed.

End TokenFacts.

(* ===================================================================== *)
(** * Further properties: the vocabulary and the tensors                  *)
(* ===================================================================== *)

Section VocabularyUse.

Variable U : UnicodeData.

Lemma word_index_known lang w :
  is_Some (word_index (fit_on_texts U lang) !! w) <-> w ∈ all_words U lang.
Proof.
  rewrite <- sorted_voc_elem. split.
  - intros [i Hi]. apply word_index_spec in Hi as (p & Hp & _);
      [|apply sorted_voc_NoDup].
    apply list_elem_of_lookup. eauto.
  - intros Hw. apply list_elem_of_lookup in Hw as [p Hp].
    exists (Z.of_nat (S p)). apply word_index_spec; [apply sorted_voc_NoDup|].
    eauto.
Qed.

Lemma word_index_decode lang w i :
  word_index (fit_on_texts U lang) !! w = Some i ->
  index_word (fit_on_texts U lang) !! i = Some w.
Proof.
  intros H. apply word_index_spec in H; [|apply sorted_voc_NoDup].
  now apply index_word_spec.
Qed.

Lemma decode_encode_words lang (ws : list pystr) :
  omap (fun i => index_word (fit_on_texts U lang) !! i)
       (omap (fun w => word_index (fit_on_texts U lang) !! w) ws)
  = filter (fun w => w ∈ all_words U lang) ws.
Proof.
  induction ws as [|w ws IH]; [reflexivity|].
  rewrite filter_cons. cbn [omap list_omap].
  destruct (word_index (fit_on_texts U lang) !! w) as [i|] eqn:E.
  - cbn [omap list_omap]. rewrite (word_index_decode lang w i E).
    destruct (decide (w ∈ all_words U lang)) as [_|Hn].
    + f_equal. exact IH.
    + exfalso. apply Hn. apply word_index_known. eauto.
  - destruct (decide (w ∈ all_words U lang)) as [Hin|_]; [|exact IH].
    apply word_index_known in Hin as [i Hi]. congruence.
Qed.

Lemma text_words_known lang text w :
  text ∈ lang -> w ∈ text_to_word_sequence U text -> w ∈ all_words U lang.
Proof.
  intros Ht Hw. unfold all_words. apply list_elem_of_In, in_concat.
  exists (text_to_word_sequence U text). split.
  - apply in_map. now apply list_elem_of_In.
  - now apply list_elem_of_In.
Qed.

(** X2.  Round trip through the vocabulary.  Turning any texts into id
    sequences with a fitted tokenizer and the ids back into words gives
    the words of each text that occur in the corpus, in order: words
    the tokenizer has not seen are left out without an error.  For the
    texts of the corpus itself the round trip gives back all words. *)
Theorem tokenizer_round_trip (lang texts : list pystr) :
  let tk := fit_on_texts U lang in
  map (omap (fun i => index_word tk !! i)) (texts_to_sequences U tk texts)
  = map (fun text => filter (fun w => w ∈ all_words U lang)
                            (text_to_word_sequence U text)) texts
  /\ map (omap (fun i => index_word tk !! i)) (texts_to_sequences U tk lang)
     = map (text_to_word_sequence U) lang.
Proof.
  intros tk.
  assert (H : forall l,
    map (omap (fun i => index_word tk !! i)) (texts_to_sequences U tk l)
    = map (fun text => filter (fun w => w ∈ all_words U lang)
                              (text_to_word_sequence U text)) l).
  { intros l. unfold texts_to_sequences. rewrite map_map.
    apply map_ext. intros text. apply decode_encode_words. }
  split; [apply H|]. rewrite H. apply map_ext_in. intros text Ht.
  apply list_elem_of_In in Ht.
  assert (Hall : forall l : list pystr,
    (forall w, w ∈ l -> w ∈ all_words U lang) ->
    filter (fun w => w ∈ all_words U lang) l = l).
  { induction l as [|w l IH]; intros Hl; [reflexivity|].
    rewrite filter_cons.
    destruct (decide (w ∈ all_words U lang)) as [_|Hn].
    - f_equal. apply IH. intros v Hv. apply Hl. now apply list_elem_of_further.
    - exfalso. apply Hn, Hl, list_elem_of_here. }
  apply Hall. intros w Hw. now apply (text_words_known lang text).
Qed.

Lemma dict_of_size `{Countable K} {V} (l : list (K * V)) :
  NoDup (map fst l) -> size (dict_of l) = length l.
Proof.
  intros Hnd. rewrite dict_of_list_to_map.
  rewrite map_size_list_to_map; [apply length_rev|].
  change (NoDup (map fst (rev l))). rewrite map_rev.
  now rewrite <- Permutation_rev.
Qed.

Lemma word_index_size lang :
  size (word_index (fit_on_texts U lang)) = length (sorted_voc U lang).
Proof.
  simpl. rewrite dict_of_size.
  - rewrite length_zip_with, ids_from_1_length. lia.
  - change (NoDup ((zip (sorted_voc U lang)
                        (ids_from_1 (length (sorted_voc U lang)))).*1)).
    rewrite fst_zip by (rewrite ids_from_1_length; lia).
    apply sorted_voc_NoDup.
Qed.

Lemma index_word_size lang :
  size (index_word (fit_on_texts U lang)) = length (sorted_voc U lang).
Proof.
  simpl. rewrite dict_of_size.
  - rewrite length_zip_with, ids_from_1_length. lia.
  - change (NoDup ((zip (ids_from_1 (length (sorted_voc U lang)))
                        (sorted_voc U lang)).*1)).
    rewrite fst_zip by (rewrite ids_from_1_length; lia).
    apply ids_from_1_NoDup.
Qed.

Lemma word_index_no_empty_word lang :
  word_index (fit_on_texts U lang) !! [] = None.
Proof.
  destruct (word_index (fit_on_texts U lang) !! []) as [i|] eqn:E;
    [|reflexivity].
  exfalso. assert (Hin : [] ∈ all_words U lang)
    by (apply word_index_known; eauto).
  unfold all_words in Hin. apply list_elem_of_In, in_concat in Hin
    as (ws & Hws & Hin).
  apply in_map_iff in Hws as (text & <- & _).
  unfold text_to_word_sequence in Hin.
  apply list_elem_of_In, list_elem_of_filter in Hin as [Hne _].
  rewrite bool_decide_eq_true_2 in Hne by reflexivity. exact Hne.
Qed.

(** X3.  The number of entries of each dictionary of a fitted tokenizer
    is the number of distinct words of the corpus, and no entry is the
    empty word. *)
Theorem vocabulary_size (lang : list pystr) :
  let tk := fit_on_texts U lang in
  let distinct := first_occurrences (all_words U lang) in
  size (word_index tk) = length distinct
  /\ size (index_word tk) = length distinct
  /\ word_index tk !! [] = None.
Proof.
  intros tk distinct.
  assert (Hlen : length (sorted_voc U lang) = length distinct)
    by apply Permutation_length, sorted_voc_perm.
  split; [|split].
  - unfold tk. now rewrite word_index_size.
  - unfold tk. now rewrite index_word_size.
  - apply word_index_no_empty_word.
Qed.

End VocabularyUse.

Section TensorFacts.

Variable U : UnicodeData.

Lemma max_length_attained (l : list nat) : l <> [] -> foldr Nat.max 0%nat l ∈ l.
Proof.
  induction l as [|a l IH]; [congruence|]. intros _. simpl.
  destruct l as [|b l].
  - simpl. rewrite Nat.max_0_r. apply list_elem_of_here.
  - destruct (Nat.max_spec a (foldr Nat.max 0%nat (b :: l))) as [[_ ->]|[_ ->]].
    + apply list_elem_of_further, IH. discriminate.
    + apply list_elem_of_here.
Qed.

Lemma encoded_ids_range lang (ws : list pystr) :
  Forall (fun i => (1 <= i <= Z.of_nat (size (word_index (fit_on_texts U lang))))%Z)
         (omap (fun w => word_index (fit_on_texts U lang) !! w) ws).
Proof.
  rewrite word_index_size.
  induction ws as [|w ws IH]; [constructor|]. cbn [omap list_omap].
  destruct (word_index (fit_on_texts U lang) !! w) as [i|] eqn:E; [|exact IH].
  constructor; [|exact IH].
  apply word_index_spec in E as (p & Hp & ->); [|apply sorted_voc_NoDup].
  apply lookup_lt_Some in Hp. lia.
Qed.

(** X4.  The tensor [tokenize] returns is rectangular: its width is the
    number of ids of the longest sentence, which some row fills; every
    row is the ids of its sentence, all between 1 and the size of the
    vocabulary, followed by zeros only. *)
Theorem tokenize_tensor_shape (lang : list pystr) tensor tk :
  tokenize U lang = inr (tensor, tk) ->
  let seqs := texts_to_sequences U tk lang in
  let width := shape1 tensor in
  Forall2 (fun row s => row = s ++ replicate (width - length s) 0%Z
                        /\ length row = width) tensor seqs
  /\ Forall (Forall (fun i => (1 <= i <= Z.of_nat (size (word_index tk)))%Z)) seqs
  /\ Exists (fun s => length s = width) seqs.
Proof.
  intros H. destruct (decide (lang = [])) as [->|Hne]; [discriminate H|].
  rewrite (tokenize_total U lang Hne) in H. injection H as <- <-.
  set (seqs := texts_to_sequences U (fit_on_texts U lang) lang).
  set (m := foldr Nat.max 0%nat (map length seqs)).
  assert (Hseqs : seqs <> []).
  { unfold seqs, texts_to_sequences. now destruct lang. }
  assert (Hbound : forall s, s ∈ seqs -> (length s <= m)%nat)
    by (intros s Hs; now apply max_length_bound).
  assert (Hw : shape1 (map (fun s => s ++ replicate (m - length s) 0%Z) seqs) = m).
  { unfold shape1. destruct seqs as [|s0 seqs'] eqn:E; [congruence|]. simpl.
    rewrite length_app, length_replicate.
    specialize (Hbound s0 (list_elem_of_here _ _)). lia. }
  cbv zeta. rewrite Hw. split; [|split].
  - apply Forall2_fmap_l, Forall_Forall2_diag, Forall_forall. intros s Hs.
    split; [reflexivity|]. rewrite length_app, length_replicate.
    specialize (Hbound s Hs). lia.
  - apply Forall_forall. intros s Hs. unfold seqs, texts_to_sequences in Hs.
    apply list_elem_of_fmap in Hs as (text & -> & _). apply encoded_ids_range.
  - apply Exists_exists.
    assert (Hm : m ∈ map length seqs).
    { apply max_length_attained. now destruct seqs. }
    apply list_elem_of_fmap in Hm as (s & Hs & Hin). exists s. now split.
Qed.

End TensorFacts.

Lemma tokenize_tensor_shape_witness :
  exists tensor tk,
    tokenize basic_latin Demo.sentences = inr (tensor, tk)
    /\ Forall2 (fun row s => row = s ++ replicate (shape1 tensor - length s) 0%Z
                             /\ length row = shape1 tensor)
               tensor (texts_to_sequences basic_latin tk Demo.sentences).
Proof.
  destruct (tokenize basic_latin Demo.sentences) as [e|[tensor tk]] eqn:E;
    [vm_compute in E; discriminate E|].
  exists tensor, tk. split; [reflexivity|].
  apply (tokenize_tensor_shape basic_latin Demo.sentences tensor tk E).
Defined.

(** X5.  [evaluate] brings the ids of its sentence to the width
    [maxlen] of the training inputs, when that is not 0: a shorter
    sentence is followed by zeros, a longer one loses its first ids and
    keeps its last [maxlen]. *)
Theorem pad_sequences_to_maxlen (s : list Z) (maxlen : nat) :
  (0 < maxlen)%nat ->
  exists row,
    pad_sequences [s] (Some maxlen) = inr [row]
    /\ length row = maxlen
    /\ ((length s <= maxlen)%nat -> row = s ++ replicate (maxlen - length s) 0%Z)
    /\ ((maxlen <= length s)%nat -> row = drop (length s - maxlen) s).
Proof.
  intros Hm. unfold pad_sequences, try_map, pad_row, last_n.
  assert (E0 : (maxlen =? 0)%nat = false) by (apply Nat.eqb_neq; lia).
  rewrite E0.
  assert (Hlen : length (drop (length s - maxlen) s) = Nat.min (length s) maxlen).
  { rewrite length_drop. lia. }
  assert (E1 : (length (drop (length s - maxlen) s) <=? maxlen)%nat = true).
  { apply Nat.leb_le. lia. }
  rewrite E1. simpl. eexists. split; [reflexivity|]. split; [|split].
  - rewrite length_app, length_replicate. lia.
  - intros Hle. replace (length s - maxlen)%nat with 0%nat by lia.
    now rewrite drop_0.
  - intros Hge. rewrite Hlen.
    replace (maxlen - Nat.min (length s) maxlen)%nat with 0%nat by lia.
    simpl. apply app_nil_r.
Qed.

Lemma pad_sequences_to_maxlen_witness :
  exists row,
    pad_sequences [[1; 4; 2; 3]%Z] (Some 3%nat) = inr [row]
    /\ length row = 3%nat
    /\ ((length [1; 4; 2; 3]%Z <= 3)%nat
        -> row = [1; 4; 2; 3]%Z ++ replicate (3 - length [1; 4; 2; 3]%Z) 0%Z)
    /\ ((3 <= length [1; 4; 2; 3]%Z)%nat
        -> row = drop (length [1; 4; 2; 3]%Z - 3) [1; 4; 2; 3]%Z).
Proof.
  apply (pad_sequences_to_maxlen [1; 4; 2; 3]%Z 3). lia.
Defined.

(* ===================================================================== *)
(** * Further properties: attention over one time step                    *)
(* ===================================================================== *)


Section AttentionBounds.

Open Scope R_scope.

Variables W1 W2 : vec -> vec.
Variable V : vec -> R.


End AttentionBounds.


(* ===================================================================== *)
(** * Further properties: the encoder feeding the decoder                 *)
(* ===================================================================== *)

Section EncoderDecoder.

Open Scope R_scope.

Variable enc_embedding : Z -> vec.
Variable enc_gru : list vec -> vec -> list vec * vec.
Variables W1 W2 : vec -> vec.
Variable V : vec -> R.
Variable embedding : Z -> vec.
Variable gru : list vec -> list vec * vec.
Variable fc : vec -> vec.

Lemma attend_weights_length query (values : list vec) :
  length (snd (attend W1 W2 V query values)) = length values.
Proof.
  unfold attend, softmax_time, softmax. simpl.
  now rewrite !length_map, attention_score_length.
Qed.

(** X11.  The encoder feeding the decoder.  When the recurrent layer of
    the encoder returns one output for each time step, and the input
    batch has rows of [T] token ids and an initial state for each row,
    the attention weights the decoder returns have the shape
    (batch, T, 1): for each example one weight for each of the [T]
    input positions. *)
Theorem attention_over_input_positions
    (x : list (list Z)) (hidden : list vec) (dec_x : list (list Z)) (T : nat) :
  (forall xs h, length (fst (enc_gru xs h)) = length xs) ->
  length hidden = length x ->
  Forall (fun row => length row = T) x ->
  let '(enc_output, enc_hidden) := Encoder_call enc_embedding enc_gru x hidden in
  let '(_, _, attention_weights) :=
    Decoder_call W1 W2 V embedding gru fc dec_x enc_hidden enc_output in
  length attention_weights = length x
  /\ Forall (fun w => length w = T /\ Forall (fun a => length a = 1%nat) w)
            attention_weights.
Proof.
  intros Hgru Hh Hx. unfold Encoder_call, Decoder_call, BahdanauAttention_call.
  cbv zeta.
  set (out := zip_with enc_gru (map (map enc_embedding) x) hidden).
  change (map snd out) with (snd <$> out).
  change (map fst out) with (fst <$> out).
  rewrite zip_with_fmap_l, zip_with_fmap_r, zip_with_diag.
  split.
  - rewrite !length_map. unfold out. rewrite length_zip_with, length_map. lia.
  - apply Forall_fmap, Forall_fmap, Forall_forall. intros o Ho.
    unfold compose. cbv beta.
    unfold out in Ho. apply elem_of_zip_with in Ho as (xs & h & -> & Hxs & _).
    apply list_elem_of_fmap in Hxs as (row & -> & Hrow).
    rewrite Forall_forall in Hx. specialize (Hx row Hrow).
    split.
    + now rewrite attend_weights_length, Hgru, length_map.
    + unfold attend, softmax_time. cbn [snd].
      apply Forall_forall. intros a Ha.
      apply list_elem_of_fmap in Ha as (w & -> & _). reflexivity.
Qed.

End EncoderDecoder.

Lemma attention_over_input_positions_witness :
  let '(enc_output, enc_hidden) :=
    Encoder_call (fun _ => [1%R]) (fun xs h => (xs, h)) [[1; 2]%Z] [[0%R]] in
  let '(_, _, attention_weights) :=
    Decoder_call (fun v => v) (fun v => v) (fun _ => 0%R)
      (fun _ => [1%R]) (fun xs => (xs, [0%R])) (fun v => v)
      [[1%Z]] enc_hidden enc_output in
  length attention_weights = 1%nat
  /\ Forall (fun w => length w = 2%nat /\ Forall (fun a => length a = 1%nat) w)
            attention_weights.
Proof.
  apply (attention_over_input_positions (fun _ => [1%R]) (fun xs h => (xs, h))
           (fun v => v) (fun v => v) (fun _ => 0%R)
           (fun _ => [1%R]) (fun xs => (xs, [0%R])) (fun v => v)
           [[1; 2]%Z] [[0%R]] [[1%Z]] 2).
  - reflexivity.
  - reflexivity.
  - constructor; [reflexivity|constructor].
Defined.

(* ===================================================================== *)
(** * Further properties: training                                        *)
(* ===================================================================== *)

Section TrainingFacts.

Context {Params : Type}.
Context (encoder :
  Params -> list (list Z) -> list vec -> list (list vec) * list vec).
Context (decoder :
  Params -> list (list Z) -> list vec -> list (list vec)
  -> list vec * list vec * list (list vec)).
Context (apply_gradients : Params -> (Params -> R) -> Params).
Context (shuffle : nat -> list (list Z * list Z) -> list (list Z * list Z)).

Local Abbreviation train_step' := (train_step encoder decoder apply_gradients).
Local Abbreviation train_loop' := (train_loop encoder decoder apply_gradients shuffle).
Local Abbreviation train' := (train encoder decoder apply_gradients shuffle).

Lemma teacher_forcing_columns theta enc_output targ targ' ts
    dec_input dec_hidden loss :
  Forall (fun t => column t targ = column t targ') ts ->
  teacher_forcing decoder theta enc_output targ ts dec_input dec_hidden loss
  = teacher_forcing decoder theta enc_output targ' ts dec_input dec_hidden loss.
Proof.
  intros H. revert dec_input dec_hidden loss.
  induction H as [|t ts Ht _ IH]; intros dec_input dec_hidden loss; simpl;
    [reflexivity|].
  destruct (decoder theta dec_input dec_hidden enc_output) as [[p h] a].
  now rewrite Ht, IH.
Qed.

Lemma forward_columns start theta inp targ targ' enc_hidden :
  shape1 targ = shape1 targ' ->
  (forall t, (1 <= t < shape1 targ)%nat -> column t targ = column t targ') ->
  forward encoder decoder start theta inp targ enc_hidden
  = forward encoder decoder start theta inp targ' enc_hidden.
Proof.
  intros Hw Hcols. unfold forward. rewrite <- Hw.
  destruct (encoder theta inp enc_hidden) as [enc_output h].
  apply teacher_forcing_columns, Forall_forall. intros t Ht.
  apply elem_of_seq in Ht. apply Hcols. lia.
Qed.

(** X12.  A training step never reads the first column of the target
    batch: two target batches of the same width whose columns agree from
    the second one on give the same loss, the same decoder inputs and
    the same update of the parameters. *)
Theorem train_step_ignores_first_target_column
    (self : TranslatorModel) theta inp targ targ' enc_hidden :
  shape1 targ = shape1 targ' ->
  (forall t, (1 <= t < shape1 targ)%nat -> column t targ = column t targ') ->
  train_step' self theta inp targ enc_hidden
  = train_step' self theta inp targ' enc_hidden.
Proof.
  intros Hw Hcols. unfold train_step.
  destruct (word_index (targ_lang_tokenizer self) !! START) as [start|];
    [|reflexivity].
  assert (E : (fun th => fst (fst (forward encoder decoder start th inp targ
                                     enc_hidden)))
              = (fun th => fst (fst (forward encoder decoder start th inp targ'
                                       enc_hidden)))).
  { apply functional_extensionality. intros th.
    now rewrite (forward_columns start th inp targ targ'). }
  rewrite E, (forward_columns start theta inp targ targ') by assumption.
  now rewrite Hw.
Qed.

(** The epochs after which [train] saves a checkpoint. *)
Lemma train_loop_checkpoints self theta epochs k i e :
  snd (train_loop' self theta epochs k) !! i = Some e ->
  exists epoch,
    epochs !! i = Some epoch
    /\ (checkpoint_saved e = true -> ((epoch + 1) mod 2 =? 0)%nat = true)
    /\ ((S i < length (snd (train_loop' self theta epochs k)))%nat
        \/ (exists theta', fst (train_loop' self theta epochs k) = inr theta') ->
        checkpoint_saved e = ((epoch + 1) mod 2 =? 0)%nat).
Proof.
  revert theta k i.
  induction epochs as [|epoch rest IH]; intros theta k i; simpl.
  - intros H. discriminate H.
  - destruct (run_batches _ _ _ _ _ _ _ _ _) as [[[err|theta1] total] steps].
    + simpl. destruct i as [|i]; [|intros H; discriminate H].
      intros [= <-]. exists epoch. split; [reflexivity|]. simpl.
      split; [discriminate|]. intros [Hlt|[theta' Habs]]; [lia|discriminate Habs].
    + destruct (steps_per_epoch self =? 0)%nat.
      * simpl. destruct i as [|i]; [|intros H; discriminate H].
        intros [= <-]. exists epoch. split; [reflexivity|]. simpl.
        split; [tauto|reflexivity].
      * specialize (IH theta1 (S k)).
        destruct (train_loop' self theta1 rest (S k)) as [o l]. simpl in *.
        destruct i as [|i].
        -- intros [= <-]. exists epoch. split; [reflexivity|]. simpl.
           split; [tauto|reflexivity].
        -- intros Hi. destruct (IH i Hi) as (ep & Hep & Ha & Hb).
           exists ep. split; [exact Hep|]. split; [exact Ha|].
           intros [Hlt|Hn]; apply Hb; [left; lia|right; exact Hn].
Qed.

Lemma count_even_positions (l : list EpochLog) :
  (forall i e, l !! i = Some e ->
               checkpoint_saved e = ((i + 1) mod 2 =? 0)%nat) ->
  length (filter (fun e => checkpoint_saved e = true) l) = (length l / 2)%nat.
Proof.
  induction l as [|x l IH] using rev_ind; intros H; [reflexivity|].
  rewrite filter_app, !length_app, IH.
  - assert (Hx : checkpoint_saved x = ((length l + 1) mod 2 =? 0)%nat).
    { apply H. rewrite lookup_app_r by lia. now rewrite Nat.sub_diag. }
    rewrite filter_cons, filter_nil. simpl length.
    pose proof (Nat.div_mod_eq (length l) 2) as D1.
    pose proof (Nat.mod_upper_bound (length l) 2) as M1.
    pose proof (Nat.div_mod_eq (length l + 1) 2) as D2.
    pose proof (Nat.mod_upper_bound (length l + 1) 2) as M2.
    destruct (decide (checkpoint_saved x = true)) as [Ht|Hf].
    + rewrite Ht in Hx. symmetry in Hx. apply Nat.eqb_eq in Hx.
      cbv iota. simpl length. lia.
    + apply not_true_is_false in Hf. rewrite Hf in Hx. symmetry in Hx.
      apply Nat.eqb_neq in Hx. cbv iota. simpl length. lia.
  - intros i e Hi. apply H. apply lookup_app_l_Some. exact Hi.
Qed.

(** X13.  A checkpoint is saved only at the end of an epoch whose
    number, counted from 1, is even, and at the end of every such epoch
    that is not the one in which the call raises; a call that returns
    after [n] epochs has saved [n / 2] checkpoints (rounded down). *)
Theorem train_checkpoint_schedule (self : TranslatorModel) theta epochs k :
  let '(outcome, log) := train' self theta epochs k in
  (forall i e, log !! i = Some e -> checkpoint_saved e = true ->
               ((i + 1) mod 2)%nat = 0%nat)
  /\ (forall i e, log !! i = Some e -> (S i < length log)%nat ->
                  checkpoint_saved e = ((i + 1) mod 2 =? 0)%nat)
  /\ (forall theta', outcome = inr theta' ->
        (forall i e, log !! i = Some e ->
                     checkpoint_saved e = ((i + 1) mod 2 =? 0)%nat)
        /\ length (filter (fun e => checkpoint_saved e = true) log)
           = (Z.to_nat epochs / 2)%nat).
Proof.
  unfold train.
  pose proof (train_loop_checkpoints self theta (seq 0 (Z.to_nat epochs)) k)
    as Hck.
  pose proof (train_loop_epochs encoder decoder apply_gradients shuffle
                self theta (seq 0 (Z.to_nat epochs)) k) as [_ Hlen].
  destruct (train_loop' self theta (seq 0 (Z.to_nat epochs)) k)
    as [outcome log]. simpl in Hck, Hlen.
  assert (Hseq : forall i epoch,
             seq 0 (Z.to_nat epochs) !! i = Some epoch -> epoch = i).
  { intros i epoch H. apply lookup_seq in H. lia. }
  split; [|split].
  - intros i e Hi Hs. destruct (Hck i e Hi) as (epoch & Hep & Ha & _).
    apply Hseq in Hep as ->. now apply Nat.eqb_eq, Ha.
  - intros i e Hi Hlt. destruct (Hck i e Hi) as (epoch & Hep & _ & Hb).
    apply Hseq in Hep as ->. apply Hb. now left.
  - intros theta' ->.
    assert (Hall : forall i e, log !! i = Some e ->
                     checkpoint_saved e = ((i + 1) mod 2 =? 0)%nat).
    { intros i e Hi. destruct (Hck i e Hi) as (epoch & Hep & _ & Hb).
      apply Hseq in Hep as ->. apply Hb. right. now exists theta'. }
    split; [exact Hall|].
    rewrite (count_even_positions log Hall), (Hlen theta' eq_refl).
    now rewrite length_seq.
Qed.

(** A model without a full batch: the first epoch runs no step and the
    mean of its losses divides by 0. *)
Lemma train_zero_steps self theta epochs k :
  steps_per_epoch self = 0%nat -> (0 < epochs)%Z ->
  train' self theta epochs k = (inl ZeroDivisionError, [empty_epoch]).
Proof.
  intros Hs He. unfold train.
  destruct (Z.to_nat epochs) as [|n] eqn:E; [lia|].
  simpl. rewrite Hs. reflexivity.
Qed.

End TrainingFacts.

Lemma train_step_ignores_first_target_column_witness :
  train_step Demo.encoder Demo.decoder (fun theta _ => theta)
    Demo.model tt [[1; 2; 3; 4]%Z] [[1; 2]%Z] [[0%R]]
  = train_step Demo.encoder Demo.decoder (fun theta _ => theta)
      Demo.model tt [[1; 2; 3; 4]%Z] [[4; 2]%Z] [[0%R]].
Proof.
  apply (train_step_ignores_first_target_column Demo.encoder Demo.decoder
           (fun theta _ => theta) Demo.model tt
           [[1; 2; 3; 4]%Z] [[1; 2]%Z] [[4; 2]%Z] [[0%R]]).
  - reflexivity.
  - intros t Ht. change (1 <= t < 2)%nat in Ht.
    assert (t = 1%nat) as -> by lia. reflexivity.
Defined.

(* ===================================================================== *)
(** * Further properties: greedy decoding                                 *)
(* ===================================================================== *)

Section DecodingFacts.

Context (U : UnicodeData) {Params : Type}.
Context (encoder :
  Params -> list (list Z) -> list vec -> list (list vec) * list vec).
Context (decoder :
  Params -> list (list Z) -> list vec -> list (list vec)
  -> list vec * list vec * list (list vec)).

Local Abbreviation evaluate' := (evaluate U encoder decoder).

Lemma decode_loop_chain self theta enc_out n dec_input dec_hidden translation :
  let log := snd (decode_loop decoder self theta enc_out n dec_input dec_hidden
                    translation) in
  (forall st, log !! 0%nat = Some st -> fed st = dec_input)
  /\ forall i a b, log !! i = Some a -> log !! S i = Some b ->
       fed b = predicted a
       /\ exists w, index_word (targ_lang_tokenizer self) !! predicted a = Some w
                    /\ w <> END.
Proof.
  revert dec_input dec_hidden translation.
  induction n as [|n IH]; intros dec_input dec_hidden translation; simpl.
  - split; [intros st H; discriminate H|intros i a b H; discriminate H].
  - destruct (decoder theta [[dec_input]] dec_hidden enc_out) as [[p h] a0].
    destruct (index_word _ !! argmax (hd [] p)) as [w|] eqn:Hw.
    + destruct (decide (w = END)) as [->|Hne]; simpl.
      * split; [now intros st [= <-]|].
        intros [|i] a b Ha Hb; discriminate Hb.
      * specialize (IH (argmax (hd [] p)) h (translation ++ w ++ [SPACE])).
        destruct (decode_loop _ _ _ _ _ _ _ _) as [o l]. simpl in *.
        destruct IH as [IH0 IHS]. split; [now intros st [= <-]|].
        intros [|i] a b Ha Hb.
        -- injection Ha as <-. simpl. split; [now apply IH0|].
           exists w. now split.
        -- now apply (IHS i).
    + simpl. split; [now intros st [= <-]|].
      intros [|i] a b Ha Hb; discriminate Hb.
Qed.

(** X14.  Greedy decoding feeds the decoder the id of the start marker
    first, and then at every call the id chosen at the call before,
    which is the id of a word other than the end marker. *)
Theorem evaluate_feeds_back_predictions
    (self : TranslatorModel) (theta : Params) (sentence : pystr) :
  let log := snd (evaluate' self theta sentence) in
  (forall st, log !! 0%nat = Some st ->
     word_index (targ_lang_tokenizer self) !! START = Some (fed st))
  /\ forall i a b, log !! i = Some a -> log !! S i = Some b ->
       fed b = predicted a
       /\ exists w, index_word (targ_lang_tokenizer self) !! predicted a = Some w
                    /\ w <> END.
Proof.
  unfold evaluate.
  destruct (bind _ _) as [e|inputs];
    [split; [intros st H; discriminate H|intros i a b H; discriminate H]|].
  destruct (encoder theta inputs _) as [enc_out enc_hidden].
  destruct (word_index (targ_lang_tokenizer self) !! START) as [start|];
    [|split; [intros st H; discriminate H|intros i a b H; discriminate H]].
  pose proof (decode_loop_chain self theta enc_out (max_length_targ self)
                start enc_hidden []) as Hchain.
  destruct (decode_loop _ _ _ _ _ _ _ _) as [o l]. simpl in *.
  destruct Hchain as [H0 HS]. split; [|exact HS].
  intros st Hst. now rewrite (H0 st Hst).
Qed.

(** X15.  A sentence of which preprocessing leaves nothing between the
    markers cannot be translated: its tokens are the start marker, an
    empty token and the end marker, and a fitted vocabulary never holds
    the empty token.  [evaluate] raises a [KeyError], of the empty token
    or, where the input vocabulary lacks the start marker, of that
    marker, before any decoder call. *)
Theorem evaluate_empty_sentence_raises
    (self : TranslatorModel) (theta : Params) (sentence : pystr)
    (lang : list pystr) :
  inp_lang_tokenizer self = fit_on_texts U lang ->
  normalize_sentence U sentence = [] ->
  split_on SPACE (preprocess_sentence U sentence) = [START; []; END]
  /\ evaluate' self theta sentence
     = (inl (KeyError_str
               match word_index (inp_lang_tokenizer self) !! START with
               | Some _ => []
               | None => START
               end), []).
Proof.
  intros Htk Hbody.
  assert (Htokens :
            split_on SPACE (preprocess_sentence U sentence) = [START; []; END]).
  { unfold preprocess_sentence. now rewrite split_on_wrap, Hbody. }
  split; [exact Htokens|].
  unfold evaluate. rewrite Htokens. simpl.
  destruct (word_index (inp_lang_tokenizer self) !! START) as [i|];
    [|reflexivity].
  simpl. rewrite Htk, word_index_no_empty_word. reflexivity.
Qed.

End DecodingFacts.

Lemma evaluate_empty_sentence_raises_witness :
  split_on SPACE (preprocess_sentence basic_latin (of_string "123"))
  = [START; []; END]
  /\ evaluate basic_latin Demo.encoder Demo.decoder Demo.model tt
       (of_string "123")
     = (inl (KeyError_str
               match word_index (inp_lang_tokenizer Demo.model) !! START with
               | Some _ => []
               | None => START
               end), []).
Proof.
  apply (evaluate_empty_sentence_raises basic_latin Demo.encoder Demo.decoder
           Demo.model tt (of_string "123") Demo.texts);
    reflexivity.
Defined.

(* ===================================================================== *)
(** * Further properties: loading the corpus                              *)
(* ===================================================================== *)

Section LoadingFacts.

Context (U : UnicodeData).
Context (permutation : nat -> list nat).

Local Abbreviation _load' := (_load U permutation).

Lemma foldr_min_spec (m0 : nat) (ls : list nat) :
  (foldr Nat.min m0 ls <= m0)%nat
  /\ Forall (fun n => (foldr Nat.min m0 ls <= n)%nat) ls
  /\ (foldr Nat.min m0 ls = m0 \/ foldr Nat.min m0 ls ∈ ls).
Proof.
  induction ls as [|a ls (H1 & H2 & H3)]; simpl.
  - split; [lia|]. split; [constructor|now left].
  - split; [lia|]. split.
    + constructor; [lia|]. eapply Forall_impl; [exact H2|].
      intros n Hn. simpl in Hn. lia.
    + destruct (Nat.min_spec a (foldr Nat.min m0 ls)) as [[_ ->]|[_ ->]].
      * right. apply list_elem_of_here.
      * destruct H3 as [H3|H3]; [now left|right].
        now apply list_elem_of_further.
Qed.

(** The transposition made by [zip] when it gives columns at all: there
    are as many columns as the shortest row has entries. *)
Lemma zip_star_columns {A} (d : A) (rows : list (list A)) :
  zip_star d rows <> [] ->
  rows <> []
  /\ Forall (fun row => (length (zip_star d rows) <= length row)%nat) rows
  /\ Exists (fun row => length row = length (zip_star d rows)) rows
  /\ zip_star d rows
     = map (fun j => map (fun row => nth j row d) rows)
           (seq 0 (length (zip_star d rows))).
Proof.
  destruct rows as [|r rs]; [intros H; now contradict H|]. intros _.
  assert (Hlen : length (zip_star d (r :: rs))
                 = foldr Nat.min (length r) (map length rs)).
  { simpl. now rewrite length_map, length_seq. }
  rewrite Hlen.
  destruct (foldr_min_spec (length r) (map length rs)) as (H1 & H2 & H3).
  split; [discriminate|]. split; [|split; [|reflexivity]].
  - constructor; [exact H1|]. apply Forall_forall. intros row Hrow.
    rewrite Forall_forall in H2. apply H2.
    apply list_elem_of_fmap. now exists row.
  - destruct H3 as [H3|H3].
    + apply Exists_cons_hd. now rewrite H3.
    + apply Exists_cons_tl. apply Exists_exists.
      apply list_elem_of_fmap in H3 as (row & Hrow & Hin). now exists row.
Qed.

Lemma zip_star_width {A} (d : A) (rows : list (list A)) m :
  rows <> [] ->
  Forall (fun row => (m <= length row)%nat) rows ->
  Exists (fun row => length row = m) rows ->
  zip_star d rows = map (fun j => map (fun row => nth j row d) rows) (seq 0 m).
Proof.
  intros Hne Hall Hex. destruct rows as [|r rs]; [congruence|].
  unfold zip_star.
  destruct (foldr_min_spec (length r) (map length rs)) as (H1 & H2 & H3).
  assert (Hm : foldr Nat.min (length r) (map length rs) = m).
  { apply Nat.le_antisymm.
    - apply Exists_exists in Hex as (row & Hin & <-).
      apply elem_of_cons in Hin as [->|Hin]; [exact H1|].
      rewrite Forall_forall in H2. apply H2.
      apply list_elem_of_fmap. now exists row.
    - rewrite Forall_forall in Hall. destruct H3 as [->|H3].
      + apply Hall, list_elem_of_here.
      + apply list_elem_of_fmap in H3 as (row & -> & Hin).
        apply Hall. now apply list_elem_of_further. }
  now rewrite Hm.
Qed.

Lemma word_pairs_nth j (l : pystr) :
  (j < length (split_on TAB l))%nat ->
  nth j (map (preprocess_sentence U) (split_on TAB l)) []
  = preprocess_sentence U (nth j (split_on TAB l) []).
Proof.
  intros H.
  rewrite (nth_indep _ [] (preprocess_sentence U [])) by now rewrite length_map.
  apply map_nth.
Qed.

(** What [_load_dataset] returns when it returns two columns. *)
Lemma _load_dataset_inv text num_examples a b :
  _load_dataset U text num_examples = [a; b] ->
  let lines := corpus_lines text num_examples in
  lines <> []
  /\ Forall (fun l => (2 <= length (split_on TAB l))%nat) lines
  /\ Exists (fun l => length (split_on TAB l) = 2%nat) lines
  /\ a = map (first_field U) lines
  /\ b = map (second_field U) lines.
Proof.
  intros H lines. unfold _load_dataset in H. fold lines in H.
  set (rows := map (fun l => map (preprocess_sentence U) (split_on TAB l)) lines)
    in H.
  destruct (zip_star_columns [] rows) as (Hne & Hall & Hex & Heq);
    [rewrite H; discriminate|].
  rewrite H in Hall, Hex, Heq. change (length [a; b]) with 2%nat in *.
  assert (Hall' : Forall (fun l => (2 <= length (split_on TAB l))%nat) lines).
  { apply Forall_forall. intros l Hl. rewrite Forall_forall in Hall.
    specialize (Hall (map (preprocess_sentence U) (split_on TAB l))).
    rewrite length_map in Hall. apply Hall. unfold rows.
    apply list_elem_of_fmap. now exists l. }
  split; [intros E; apply Hne; unfold rows; now rewrite E|].
  split; [exact Hall'|]. split.
  - apply Exists_exists in Hex as (row & Hin & Hrow). unfold rows in Hin.
    apply list_elem_of_fmap in Hin as (l & -> & Hl).
    rewrite length_map in Hrow. apply Exists_exists. now exists l.
  - change (seq 0 2) with [0%nat; 1%nat] in Heq. cbn [map] in Heq.
    injection Heq as Ea Eb. rewrite Ea, Eb. unfold rows.
    rewrite !map_map. rewrite Forall_forall in Hall'.
    split; apply map_ext_in; intros l Hl; apply list_elem_of_In in Hl;
      specialize (Hall' l Hl); apply word_pairs_nth; lia.
Qed.

Lemma _load_dataset_columns text num_examples :
  loadable (corpus_lines text num_examples) ->
  _load_dataset U text num_examples
  = [map (first_field U) (corpus_lines text num_examples);
     map (second_field U) (corpus_lines text num_examples)].
Proof.
  intros (Hn & Hall & Hex). unfold _load_dataset.
  set (lines := corpus_lines text num_examples) in *.
  rewrite (zip_star_width [] _ 2).
  - change (seq 0 2) with [0%nat; 1%nat]. cbn [map].
    rewrite !map_map. rewrite Forall_forall in Hall.
    f_equal; [|f_equal]; apply map_ext_in; intros l Hl;
      apply list_elem_of_In in Hl; specialize (Hall l Hl);
      apply word_pairs_nth; lia.
  - destruct lines; [simpl in Hn; lia|discriminate].
  - apply Forall_forall. intros row Hrow.
    apply list_elem_of_fmap in Hrow as (l & -> & Hl).
    rewrite Forall_forall in Hall. rewrite length_map. now apply Hall.
  - apply Exists_exists in Hex as (l & Hl & Hlen). apply Exists_exists.
    exists (map (preprocess_sentence U) (split_on TAB l)).
    split; [apply list_elem_of_fmap; now exists l|now rewrite length_map].
Qed.

Lemma tokenize_succeeds lang :
  lang <> [] ->
  exists tensor,
    tokenize U lang = inr (tensor, fit_on_texts U lang)
    /\ length tensor = length lang.
Proof.
  intros Hne. pose proof (tokenize_total U lang Hne) as H. cbv zeta in H.
  eexists. split; [exact H|]. now apply tokenize_inv in H as [-> _].
Qed.

Lemma n_train_pos n : (2 <= n)%nat -> n_train n <> 0%nat.
Proof.
  unfold n_train, n_test. intros Hn.
  pose proof (Nat.div_mod_eq (n + 4) 5).
  pose proof (Nat.mod_upper_bound (n + 4) 5). lia.
Qed.

Lemma n_train_0 n : n_train n = 0%nat -> (n <= 1)%nat.
Proof.
  intros H. destruct (le_lt_dec n 1) as [Hle|Hlt]; [exact Hle|].
  now apply n_train_pos in Hlt.
Qed.

(** What a successful [_load] has read and stored. *)
Lemma _load_state lang text num_examples self :
  _load' lang text num_examples = inr self ->
  let lines := corpus_lines text num_examples in
  let eng := startswith (of_string "eng-") lang in
  let inp_lang := map (if eng then first_field U else second_field U) lines in
  let targ_lang := map (if eng then second_field U else first_field U) lines in
  loadable lines
  /\ tokenize U inp_lang = inr (input_tensor self, inp_lang_tokenizer self)
  /\ tokenize U targ_lang = inr (target_tensor self, targ_lang_tokenizer self)
  /\ max_length_inp self = shape1 (input_tensor self)
  /\ max_length_targ self = shape1 (target_tensor self)
  /\ vocab_inp_size self = (size (word_index (inp_lang_tokenizer self)) + 1)%nat
  /\ vocab_tar_size self = (size (word_index (targ_lang_tokenizer self)) + 1)%nat.
Proof.
  intros H lines eng inp_lang targ_lang.
  destruct (_load_inv U permutation lang text num_examples self H)
    as (_ & _ & Hn0 & Htr & _).
  fold lines in Hn0, Htr.
  assert (Hn : (2 <= length lines)%nat).
  { destruct (le_lt_dec 2 (length lines)) as [Hle|Hlt]; [exact Hle|].
    exfalso. apply Htr. unfold n_train, n_test.
    assert (length lines = 1%nat) as -> by lia. reflexivity. }
  unfold _load in H.
  destruct (_load_dataset U text num_examples) as [|a [|b [|c cols]]] eqn:Hcols;
    try discriminate H.
  apply _load_dataset_inv in Hcols as (_ & Hall & Hex & -> & ->).
  fold lines in Hall, Hex, H.
  split; [now split|].
  unfold inp_lang, targ_lang, eng.
  destruct (startswith (of_string "eng-") lang); simpl in H;
    destruct (tokenize U (map (first_field U) lines)) as [e1|[t1 k1]];
    try discriminate H;
    destruct (tokenize U (map (second_field U) lines)) as [e2|[t2 k2]];
    try discriminate H;
    simpl in H;
    destruct (train_test_split _ _ _) as [e3|[[[x1 x2] x3] x4]];
    try discriminate H;
    simpl in H; injection H as <-; simpl; repeat split.
Qed.

(** When [_load] succeeds on the text of a corpus file. *)
Lemma _load_succeeds_iff (lang text : pystr) (num_examples : option nat) :
  ((exists self, _load' lang text num_examples = inr self)
   <-> loadable (corpus_lines text num_examples))
  /\ (forall e, _load' lang text num_examples = inl e -> e = ValueError).
Proof.
  set (lines := corpus_lines text num_examples).
  assert (Hgen : forall inp_lang targ_lang,
    length inp_lang = length lines -> length targ_lang = length lines ->
    lines <> [] ->
    match
      (inp <- tokenize U inp_lang ;;
       targ <- tokenize U targ_lang ;;
       let '(input_tensor, inp_lang_tokenizer) := inp in
       let '(target_tensor, targ_lang_tokenizer) := targ in
       split <- train_test_split (permutation (length input_tensor))
                  input_tensor target_tensor ;;
       let '(input_tensor_train, _, target_tensor_train, _) := split in
       ret {| inp_lang_tokenizer := inp_lang_tokenizer;
              targ_lang_tokenizer := targ_lang_tokenizer;
              input_tensor := input_tensor;
              target_tensor := target_tensor;
              max_length_targ := shape1 target_tensor;
              max_length_inp := shape1 input_tensor;
              vocab_inp_size := size (word_index inp_lang_tokenizer) + 1;
              vocab_tar_size := size (word_index targ_lang_tokenizer) + 1;
              BUFFER_SIZE := length input_tensor_train;
              steps_per_epoch := length input_tensor_train / BATCH_SIZE;
              dataset_source := zip input_tensor_train target_tensor_train |})%py
    with
    | inl e => e = ValueError /\ (length lines <= 1)%nat
    | inr _ => (2 <= length lines)%nat
    end).
  { intros inp_lang targ_lang Hi Ht Hne.
    destruct (tokenize_succeeds inp_lang) as (ti & -> & Hti);
      [intros E; apply Hne; rewrite E in Hi; now destruct lines|].
    destruct (tokenize_succeeds targ_lang) as (tt & -> & Htt);
      [intros E; apply Hne; rewrite E in Ht; now destruct lines|].
    simpl. unfold train_test_split. rewrite Hti, Htt, Hi, Ht.
    rewrite Nat.eqb_refl. simpl. rewrite orb_false_r.
    destruct (length lines =? 0)%nat eqn:E0; simpl.
    - apply Nat.eqb_eq in E0. split; [reflexivity|lia].
    - destruct (n_train (length lines) =? 0)%nat eqn:E1; simpl.
      + apply Nat.eqb_eq in E1. split; [reflexivity|now apply n_train_0].
      + apply Nat.eqb_neq in E0, E1.
        destruct (le_lt_dec 2 (length lines)) as [Hle|Hlt]; [exact Hle|].
        exfalso. apply E1. unfold n_train, n_test.
        assert (length lines = 1%nat) as -> by lia. reflexivity. }
  assert (Hload : match _load' lang text num_examples with
                  | inl e => e = ValueError /\ ~ loadable lines
                  | inr _ => loadable lines
                  end).
  { destruct (_load' lang text num_examples) as [e|self] eqn:H.
    - unfold _load in H.
      destruct (_load_dataset U text num_examples) as [|a [|b [|c cols]]]
        eqn:Hcols.
      + injection H as <-. split; [reflexivity|]. intros Hl.
        apply _load_dataset_columns in Hl. fold lines in Hl. congruence.
      + injection H as <-. split; [reflexivity|]. intros Hl.
        apply _load_dataset_columns in Hl. fold lines in Hl. congruence.
      + apply _load_dataset_inv in Hcols as (Hne & _ & _ & -> & ->).
        fold lines in Hne, H.
        destruct (startswith (of_string "eng-") lang); simpl in H.
        * pose proof (Hgen (map (first_field U) lines)
                        (map (second_field U) lines)) as Hg.
          rewrite !length_map in Hg. specialize (Hg eq_refl eq_refl Hne).
          simpl in Hg. rewrite H in Hg. destruct Hg as [-> Hle].
          split; [reflexivity|]. intros (Hn & _). lia.
        * pose proof (Hgen (map (second_field U) lines)
                        (map (first_field U) lines)) as Hg.
          rewrite !length_map in Hg. specialize (Hg eq_refl eq_refl Hne).
          simpl in Hg. rewrite H in Hg. destruct Hg as [-> Hle].
          split; [reflexivity|]. intros (Hn & _). lia.
      + injection H as <-. split; [reflexivity|]. intros Hl.
        apply _load_dataset_columns in Hl. fold lines in Hl. congruence.
    - now apply _load_state in H as (Hl & _). }
  destruct (_load' lang text num_examples) as [e|self]; split.
  - split; [intros [self Hs]; discriminate Hs|].
    intros Hl. now destruct Hload as [_ Hn].
  - intros e' [= <-]. now destruct Hload.
  - split; [intros _; exact Hload|intros _; now exists self].
  - intros e H. discriminate H.
Qed.

Lemma split_on_not_nil sep w : split_on sep w <> [].
Proof.
  destruct w as [|c w]; simpl; [discriminate|].
  destruct (c =? sep)%N; [discriminate|]. now destruct (split_on sep w).
Qed.

Lemma split_on_one sep w b :
  split_on sep w = [b] -> w = b /\ Forall (fun c => c <> sep) b.
Proof.
  revert b. induction w as [|c w IH]; intros b; simpl.
  - intros [= <-]. split; [reflexivity|constructor].
  - destruct (c =? sep)%N eqn:Ec.
    + intros [= <- H]. now apply split_on_not_nil in H.
    + destruct (split_on sep w) as [|f fs] eqn:E;
        [now apply split_on_not_nil in E|].
      intros [= <- ->]. destruct (IH f eq_refl) as [-> Hf].
      split; [reflexivity|]. constructor; [now apply N.eqb_neq|exact Hf].
Qed.

Lemma split_on_two sep w a b :
  split_on sep w = [a; b] ->
  w = a ++ sep :: b
  /\ Forall (fun c => c <> sep) a /\ Forall (fun c => c <> sep) b.
Proof.
  revert a. induction w as [|c w IH]; intros a; simpl; [discriminate|].
  destruct (c =? sep)%N eqn:Ec.
  - intros [= <- H]. apply N.eqb_eq in Ec as ->.
    apply split_on_one in H as [-> Hb].
    split; [reflexivity|]. split; [constructor|exact Hb].
  - destruct (split_on sep w) as [|f fs] eqn:E; [discriminate|].
    intros [= <- ->]. destruct (IH f eq_refl) as (-> & Hf & Hb).
    split; [reflexivity|]. split; [|exact Hb].
    constructor; [now apply N.eqb_neq|exact Hf].
Qed.

Lemma corpus_language_succeeds lang :
  match corpus_language lang with
  | inl e => e = ValueError /\ length (split_on HYPHEN lang) <> 2%nat
  | inr _ => length (split_on HYPHEN lang) = 2%nat
  end.
Proof.
  unfold corpus_language.
  destruct (split_on HYPHEN lang) as [|a [|b [|c r]]];
    try (split; [reflexivity|discriminate]).
  destruct (startswith (of_string "eng-") lang); reflexivity.
Qed.

(** X16.  Loading succeeds exactly when the name of the language pair
    has one hyphen, at least two lines of the corpus are loaded, every
    loaded line has a tab, and some loaded line has one tab only; in
    every other case a [ValueError] is raised. *)
Theorem load_succeeds_iff (lang text : pystr) (num_examples : option nat) :
  ((exists self, load_language U permutation lang text num_examples = inr self)
   <-> length (split_on HYPHEN lang) = 2%nat
       /\ loadable (corpus_lines text num_examples))
  /\ (forall e, load_language U permutation lang text num_examples = inl e ->
                e = ValueError)
  /\ (forall self, load_language U permutation lang text num_examples = inr self ->
                   _load' lang text num_examples = inr self).
Proof.
  destruct (_load_succeeds_iff lang text num_examples) as [Hiff Herr].
  pose proof (corpus_language_succeeds lang) as Hname.
  unfold load_language.
  destruct (corpus_language lang) as [e0|lang1]; simpl.
  - destruct Hname as [-> Hn]. split; [|split].
    + split; [intros [self H]; discriminate H|intros [H _]; contradiction].
    + now intros e [= <-].
    + intros self H. discriminate H.
  - split; [|split].
    + rewrite Hiff. tauto.
    + exact Herr.
    + tauto.
Qed.

(** X17.  The direction of translation.  For a language pair whose name
    starts with [eng-], the input vocabulary and tensor are those
    [tokenize] gives for the first fields of the loaded lines and the
    target ones those of the second fields; for every other pair the two
    fields change places.  The maximal lengths are the widths of the
    tensors and each vocabulary size is the number of words plus one. *)
Theorem load_translation_direction
    (lang text : pystr) (num_examples : option nat) (self : TranslatorModel) :
  _load' lang text num_examples = inr self ->
  let lines := corpus_lines text num_examples in
  let eng := startswith (of_string "eng-") lang in
  let inp_lang := map (if eng then first_field U else second_field U) lines in
  let targ_lang := map (if eng then second_field U else first_field U) lines in
  tokenize U inp_lang = inr (input_tensor self, inp_lang_tokenizer self)
  /\ tokenize U targ_lang = inr (target_tensor self, targ_lang_tokenizer self)
  /\ max_length_inp self = shape1 (input_tensor self)
  /\ max_length_targ self = shape1 (target_tensor self)
  /\ vocab_inp_size self
     = S (length (first_occurrences (all_words U inp_lang)))
  /\ vocab_tar_size self
     = S (length (first_occurrences (all_words U targ_lang))).
Proof.
  intros H lines eng inp_lang targ_lang.
  destruct (_load_state lang text num_examples self H)
    as (_ & Hi & Ht & Hmi & Hmt & Hvi & Hvt).
  fold lines eng inp_lang targ_lang in Hi, Ht.
  split; [exact Hi|]. split; [exact Ht|]. split; [exact Hmi|].
  split; [exact Hmt|].
  apply tokenize_inv in Hi as [_ Hi]. apply tokenize_inv in Ht as [_ Ht].
  rewrite Hvi, Hvt, Hi, Ht, !word_index_size.
  rewrite !(Permutation_length (sorted_voc_perm U _)). split; lia.
Qed.

End LoadingFacts.

(* ===================================================================== *)
(** * Further properties: the loaded model                                *)
(* ===================================================================== *)

Section LoadedModel.

Context (U : UnicodeData).
Context (permutation : nat -> list nat).

Local Abbreviation _load' := (_load U permutation).

(** The rows of the tensor [tokenize] returns. *)
Lemma tokenize_rows lang tensor tk :
  tokenize U lang = inr (tensor, tk) ->
  Forall (fun row =>
            length row = shape1 tensor
            /\ Forall (fun i => (0 <= i <= Z.of_nat (size (word_index tk)))%Z) row)
         tensor.
Proof.
  intros H. destruct (decide (lang = [])) as [->|Hne]; [discriminate H|].
  rewrite (tokenize_total U lang Hne) in H. injection H as <- <-.
  set (seqs := texts_to_sequences U (fit_on_texts U lang) lang).
  set (m := foldr Nat.max 0%nat (map length seqs)).
  assert (Hbound : forall s, s ∈ seqs -> (length s <= m)%nat)
    by (intros s Hs; now apply max_length_bound).
  assert (Hw : shape1 (map (fun s => s ++ replicate (m - length s) 0%Z) seqs) = m).
  { unfold shape1. destruct seqs as [|s0 seqs'] eqn:E.
    - unfold seqs, texts_to_sequences in E. now destruct lang.
    - simpl. rewrite length_app, length_replicate.
      specialize (Hbound s0 (list_elem_of_here _ _)). lia. }
  rewrite Hw. apply Forall_forall. intros row Hrow.
  apply list_elem_of_fmap in Hrow as (s & -> & Hs). split.
  - rewrite length_app, length_replicate. specialize (Hbound s Hs). lia.
  - apply Forall_app. split.
    + unfold seqs, texts_to_sequences in Hs.
      apply list_elem_of_fmap in Hs as (text & -> & _).
      eapply Forall_impl; [apply encoded_ids_range|].
      intros i Hi. cbv beta in Hi |- *. lia.
    + apply Forall_forall. intros i Hi. apply elem_of_replicate in Hi as [-> _].
      lia.
Qed.

(** The ids that have a word. *)
Lemma index_word_domain lang (i : Z) :
  is_Some (index_word (fit_on_texts U lang) !! i)
  <-> (1 <= i <= Z.of_nat (size (word_index (fit_on_texts U lang))))%Z.
Proof.
  rewrite word_index_size. split.
  - intros [w Hw]. apply index_word_spec in Hw as (p & Hp & ->).
    apply lookup_lt_Some in Hp. lia.
  - intros Hi.
    destruct (lookup_lt_is_Some_2 (sorted_voc U lang) (Z.to_nat i - 1))
      as [w Hw]; [lia|].
    exists w. apply index_word_spec. exists (Z.to_nat i - 1)%nat.
    split; [exact Hw|lia].
Qed.

(** X18.  The ids of a loaded model fit its embedding and output layers:
    every row of the input tensor has [max_length_inp] ids, every row of
    the target tensor [max_length_targ], all of them at least 0 and
    below the vocabulary size of their language; and the ids that the
    target vocabulary turns back into a word are those from 1 to below
    [vocab_tar_size], so that 0 is the only index of a logit that has
    no word. *)
Theorem load_ids_below_vocabulary_size
    (lang text : pystr) (num_examples : option nat) (self : TranslatorModel) :
  _load' lang text num_examples = inr self ->
  Forall (fun row =>
            length row = max_length_inp self
            /\ Forall (fun i => (0 <= i < Z.of_nat (vocab_inp_size self))%Z) row)
         (input_tensor self)
  /\ Forall (fun row =>
               length row = max_length_targ self
               /\ Forall (fun i => (0 <= i < Z.of_nat (vocab_tar_size self))%Z) row)
            (target_tensor self)
  /\ forall i, is_Some (index_word (targ_lang_tokenizer self) !! i)
               <-> (1 <= i < Z.of_nat (vocab_tar_size self))%Z.
Proof.
  intros H.
  destruct (_load_state U permutation lang text num_examples self H)
    as (_ & Hi & Ht & -> & -> & -> & ->).
  split; [|split].
  - eapply Forall_impl; [exact (tokenize_rows _ _ _ Hi)|].
    intros row [Hlen Hids]. split; [exact Hlen|].
    eapply Forall_impl; [exact Hids|]. intros i Hr. cbv beta in Hr |- *. lia.
  - eapply Forall_impl; [exact (tokenize_rows _ _ _ Ht)|].
    intros row [Hlen Hids]. split; [exact Hlen|].
    eapply Forall_impl; [exact Hids|]. intros i Hr. cbv beta in Hr |- *. lia.
  - intros i. apply tokenize_inv in Ht as [_ ->].
    rewrite index_word_domain. lia.
Qed.

Hypothesis HU : respects_basic_latin U.

(** The words of a preprocessed sentence, as the tokenizer reads
    them. *)
Lemma text_to_word_sequence_preprocessed s :
  exists ws,
    text_to_word_sequence U (preprocess_sentence U s) = START :: ws ++ [END].
Proof.
  unfold text_to_word_sequence, preprocess_sentence.
  set (body := normalize_sentence U s).
  assert (Hplain : forallb plain body = true).
  { destruct (normalize_sentence_shape U s) as [E|Hs]; fold body in E || fold body in Hs.
    - now rewrite E.
    - exact (shape_plain _ _ _ Hs). }
  rewrite (lower_plain U HU) by now apply wrap_plain.
  rewrite wrap_lower, split_on_wrap.
  rewrite filter_cons_True by (vm_compute; exact I).
  rewrite filter_app, (filter_cons_True _ END) by (vm_compute; exact I).
  eexists. reflexivity.
Qed.

Lemma map_constant {A B} (f : A -> B) (c : B) (l : list A) :
  Forall (fun x => f x = c) l -> map f l = replicate (length l) c.
Proof. induction 1 as [|x l Hx _ IH]; simpl; [reflexivity|]. now rewrite Hx, IH. Qed.

(** Both markers are words of a corpus of preprocessed sentences, and
    every row of its tensor starts with the id of the start marker. *)
Lemma tokenize_preprocessed lang tensor tk :
  Forall (fun t => exists s, t = preprocess_sentence U s) lang ->
  tokenize U lang = inr (tensor, tk) ->
  exists start,
    word_index tk !! START = Some start
    /\ is_Some (word_index tk !! END)
    /\ column 0 tensor = replicate (length lang) start.
Proof.
  intros Hpre H. destruct (decide (lang = [])) as [->|Hne]; [discriminate H|].
  rewrite (tokenize_total U lang Hne) in H. injection H as <- <-.
  assert (Hwords : START ∈ all_words U lang /\ END ∈ all_words U lang).
  { destruct lang as [|t lang]; [congruence|].
    apply Forall_cons in Hpre as [[s ->] _].
    destruct (text_to_word_sequence_preprocessed s) as [ws Hws].
    unfold all_words. simpl. rewrite Hws. split.
    - apply list_elem_of_here.
    - apply list_elem_of_further, elem_of_app. left. apply elem_of_app. right.
      apply list_elem_of_here. }
  destruct Hwords as [Hs He].
  apply word_index_known in Hs as [start Hstart].
  apply word_index_known in He.
  exists start. split; [exact Hstart|]. split; [exact He|].
  set (seqs := texts_to_sequences U (fit_on_texts U lang) lang).
  set (m := foldr Nat.max 0%nat (map length seqs)).
  unfold column. rewrite map_map.
  replace (length lang) with (length seqs)
    by (unfold seqs, texts_to_sequences; apply length_map).
  apply map_constant. unfold seqs, texts_to_sequences.
  apply Forall_forall. intros sq Hsq.
  apply list_elem_of_fmap in Hsq as (t & -> & Ht).
  rewrite Forall_forall in Hpre. destruct (Hpre t Ht) as [s ->].
  destruct (text_to_word_sequence_preprocessed s) as [ws ->].
  cbn [omap list_omap]. rewrite Hstart. reflexivity.
Qed.

Lemma loaded_fields_preprocessed (eng : bool) (lines : list pystr) :
  Forall (fun t => exists s, t = preprocess_sentence U s)
         (map (if eng then first_field U else second_field U) lines).
Proof.
  apply Forall_forall. intros t Ht.
  apply list_elem_of_fmap in Ht as (l & -> & _).
  destruct eng; eexists; reflexivity.
Qed.

(** The texts the two tokenizers of a loaded model were fitted on. *)
Lemma loaded_texts_preprocessed lang text num_examples self :
  _load' lang text num_examples = inr self ->
  exists inp_lang targ_lang,
    Forall (fun t => exists s, t = preprocess_sentence U s) inp_lang
    /\ Forall (fun t => exists s, t = preprocess_sentence U s) targ_lang
    /\ length inp_lang = length (corpus_lines text num_examples)
    /\ length targ_lang = length (corpus_lines text num_examples)
    /\ tokenize U inp_lang = inr (input_tensor self, inp_lang_tokenizer self)
    /\ tokenize U targ_lang = inr (target_tensor self, targ_lang_tokenizer self).
Proof.
  intros H.
  destruct (_load_state U permutation lang text num_examples self H)
    as (_ & Hi & Ht & _).
  eexists _, _. split; [|split; [|split; [|split; [|split; [exact Hi|exact Ht]]]]].
  - destruct (startswith _ lang).
    + apply (loaded_fields_preprocessed true).
    + apply (loaded_fields_preprocessed false).
  - destruct (startswith _ lang).
    + apply (loaded_fields_preprocessed false).
    + apply (loaded_fields_preprocessed true).
  - apply length_map.
  - apply length_map.
Qed.

(** X19.  With a Unicode database that treats ASCII as Python does,
    both vocabularies of a loaded model hold the two markers, and the
    first column of each tensor holds the id of the start marker and
    nothing else. *)
Theorem load_markers_in_vocabularies
    (lang text : pystr) (num_examples : option nat) (self : TranslatorModel) :
  _load' lang text num_examples = inr self ->
  exists start_inp start_targ,
    word_index (inp_lang_tokenizer self) !! START = Some start_inp
    /\ word_index (targ_lang_tokenizer self) !! START = Some start_targ
    /\ is_Some (word_index (inp_lang_tokenizer self) !! END)
    /\ is_Some (word_index (targ_lang_tokenizer self) !! END)
    /\ column 0 (input_tensor self)
       = replicate (length (corpus_lines text num_examples)) start_inp
    /\ column 0 (target_tensor self)
       = replicate (length (corpus_lines text num_examples)) start_targ.
Proof.
  intros H.
  destruct (loaded_texts_preprocessed lang text num_examples self H)
    as (inp_lang & targ_lang & Hpi & Hpt & Hli & Hlt & Hi & Ht).
  apply tokenize_preprocessed in Hi as (si & Hsi & Hei & Hci); [|exact Hpi].
  apply tokenize_preprocessed in Ht as (st & Hst & Het & Hct); [|exact Hpt].
  rewrite Hli in Hci. rewrite Hlt in Hct.
  exists si, st. repeat split; assumption.
Qed.

End LoadedModel.

Lemma load_translation_direction_witness :
  exists self,
    _load basic_latin (seq 0) (of_string "eng-fra") Demo.corpus (Some NUM_EXAMPLES)
    = inr self
    /\ vocab_inp_size self
       = S (length (first_occurrences
                      (all_words basic_latin
                         (map (first_field basic_latin)
                              (corpus_lines Demo.corpus (Some NUM_EXAMPLES))))))
    /\ vocab_tar_size self
       = S (length (first_occurrences
                      (all_words basic_latin
                         (map (second_field basic_latin)
                              (corpus_lines Demo.corpus (Some NUM_EXAMPLES)))))).
Proof.
  destruct (_load basic_latin (seq 0) (of_string "eng-fra") Demo.corpus
              (Some NUM_EXAMPLES)) as [e|self] eqn:E;
    [vm_compute in E; discriminate E|].
  exists self. split; [reflexivity|].
  pose proof (load_translation_direction basic_latin (seq 0)
                (of_string "eng-fra") Demo.corpus (Some NUM_EXAMPLES) self E)
    as H.
  cbv zeta in H. destruct H as (_ & _ & _ & _ & Hi & Ht).
  split; [exact Hi|exact Ht].
Defined.

Lemma load_ids_below_vocabulary_size_witness :
  exists self,
    _load basic_latin (seq 0) (of_string "eng-fra") Demo.corpus (Some NUM_EXAMPLES)
    = inr self
    /\ Forall (fun row =>
                 length row = max_length_targ self
                 /\ Forall (fun i => (0 <= i < Z.of_nat (vocab_tar_size self))%Z)
                           row)
              (target_tensor self).
Proof.
  destruct (_load basic_latin (seq 0) (of_string "eng-fra") Demo.corpus
              (Some NUM_EXAMPLES)) as [e|self] eqn:E;
    [vm_compute in E; discriminate E|].
  exists self. split; [reflexivity|].
  pose proof (load_ids_below_vocabulary_size basic_latin (seq 0)
                (of_string "eng-fra") Demo.corpus (Some NUM_EXAMPLES) self E)
    as (_ & H & _).
  exact H.
Defined.

Lemma load_markers_in_vocabularies_witness :
  exists self,
    _load basic_latin (seq 0) (of_string "eng-fra") Demo.corpus (Some NUM_EXAMPLES)
    = inr self
    /\ exists start,
         word_index (targ_lang_tokenizer self) !! START = Some start
         /\ column 0 (target_tensor self) = [start; start].
Proof.
  destruct (_load basic_latin (seq 0) (of_string "eng-fra") Demo.corpus
              (Some NUM_EXAMPLES)) as [e|self] eqn:E;
    [vm_compute in E; discriminate E|].
  exists self. split; [reflexivity|].
  destruct (load_markers_in_vocabularies basic_latin (seq 0)
              basic_latin_respects
              (of_string "eng-fra") Demo.corpus (Some NUM_EXAMPLES) self E)
    as (si & st & _ & Hst & _ & _ & _ & Hct).
  exists st. split; [exact Hst|]. rewrite Hct. reflexivity.
Defined.

(* ===================================================================== *)
(** * Further properties: training a loaded model                         *)
(* ===================================================================== *)

Section TrainLoaded.

Context (U : UnicodeData) {Params : Type}.
Context (encoder :
  Params -> list (list Z) -> list vec -> list (list vec) * list vec).
Context (decoder :
  Params -> list (list Z) -> list vec -> list (list vec)
  -> list vec * list vec * list (list vec)).
Context (apply_gradients : Params -> (Params -> R) -> Params).
Context (permutation : nat -> list nat).
Context (shuffle : nat -> list (list Z * list Z) -> list (list Z * list Z)).
Context (reload_responds : nat -> bool).

Local Abbreviation _load' := (_load U permutation).
Local Abbreviation train_step' := (train_step encoder decoder apply_gradients).
Local Abbreviation run_batches' := (run_batches encoder decoder apply_gradients).
Local Abbreviation train_loop' := (train_loop encoder decoder apply_gradients shuffle).
Local Abbreviation train' := (train encoder decoder apply_gradients shuffle).
Local Abbreviation service_loop' :=
  (service_loop encoder decoder apply_gradients shuffle reload_responds).

Lemma n_train_small n : (n < 80)%nat -> (n_train n < 64)%nat.
Proof.
  unfold n_train, n_test. intros Hn.
  pose proof (Nat.div_mod_eq (n + 4) 5).
  pose proof (Nat.mod_upper_bound (n + 4) 5). lia.
Qed.

Lemma n_train_large n : (80 <= n)%nat -> (64 <= n_train n)%nat.
Proof.
  unfold n_train, n_test. intros Hn.
  pose proof (Nat.div_mod_eq (n + 4) 5).
  pose proof (Nat.mod_upper_bound (n + 4) 5). lia.
Qed.

(** X20.  A loaded corpus of fewer than 80 sentence pairs cannot be
    trained on: fewer than 64 pairs are left for training, no batch is
    full, [steps_per_epoch] is 0, and a call of [train] for one epoch
    or more runs no training step, saves no checkpoint and raises a
    [ZeroDivisionError] at the end of the first epoch, where it divides
    the total loss by the number of steps. *)
Theorem train_on_small_corpus_raises
    (lang text : pystr) (num_examples : option nat) (self : TranslatorModel)
    theta (epochs : Z) (k : nat) :
  _load' lang text num_examples = inr self ->
  (length (corpus_lines text num_examples) < 80)%nat ->
  (0 < epochs)%Z ->
  steps_per_epoch self = 0%nat
  /\ train' self theta epochs k = (inl ZeroDivisionError, [empty_epoch]).
Proof.
  intros H Hn He.
  destruct (_load_inv U permutation lang text num_examples self H)
    as (_ & _ & _ & _ & _ & _ & Hsteps & _).
  assert (Hs : steps_per_epoch self = 0%nat).
  { rewrite Hsteps. apply Nat.div_small. unfold ind_train, BATCH_SIZE.
    rewrite length_take. apply n_train_small in Hn. lia. }
  split; [exact Hs|]. now apply train_zero_steps.
Qed.

Lemma run_batches_returns self theta h batches total steps start :
  word_index (targ_lang_tokenizer self) !! START = Some start ->
  exists theta' total',
    run_batches' self theta h batches total steps
    = (inr theta', total', (steps + length batches)%nat).
Proof.
  intros Hs. revert theta total steps.
  induction batches as [|[inp targ] rest IH]; intros theta total steps; simpl.
  - exists theta, total. now rewrite Nat.add_0_r.
  - unfold train_step. rewrite Hs.
    destruct (forward _ _ _ _ _ _ _) as [[l i] f].
    simpl. destruct (IH (apply_gradients theta
                           (fun th => fst (fst (forward encoder decoder start th
                                                  inp targ h))))
                        (total + l / INR (shape1 targ))%R (S steps))
      as (theta' & total' & ->).
    exists theta', total'. f_equal. lia.
Qed.

Lemma train_loop_returns self theta epochs k start :
  word_index (targ_lang_tokenizer self) !! START = Some start ->
  steps_per_epoch self <> 0%nat ->
  (forall k, length (take (steps_per_epoch self) (dataset shuffle self k))
             = steps_per_epoch self) ->
  exists theta' log,
    train_loop' self theta epochs k = (inr theta', log)
    /\ length log = length epochs
    /\ Forall (fun e => steps_run e = steps_per_epoch self) log.
Proof.
  intros Hs Hne Hlen. revert theta k.
  induction epochs as [|epoch rest IH]; intros theta k; simpl.
  - exists theta, []. repeat split. constructor.
  - destruct (run_batches_returns self theta initialize_hidden_state
                (take (steps_per_epoch self) (dataset shuffle self k))
                0%R 0 start Hs) as (theta1 & total & ->).
    apply Nat.eqb_neq in Hne. rewrite Hne.
    destruct (IH theta1 (S k)) as (theta' & log & -> & Hl & Hall).
    exists theta'. eexists. split; [reflexivity|].
    split; [simpl; now rewrite Hl|].
    constructor; [simpl; now rewrite Hlen|exact Hall].
Qed.

(** X21.  A corpus of 80 sentence pairs or more can be trained on: with
    a Unicode database that treats ASCII as Python does, a permutation
    drawn for the split and a data set shuffled at every iteration,
    every call of [train] on the loaded model returns; it runs all the
    epochs asked for, each of [steps_per_epoch] training steps, which
    is 1 at least. *)
Theorem train_on_loaded_corpus_returns
    (lang text : pystr) (num_examples : option nat) (self : TranslatorModel)
    theta (epochs : Z) (k : nat) :
  respects_basic_latin U ->
  (forall n, permutation n ≡ₚ seq 0 n) ->
  (forall k l, shuffle k l ≡ₚ l) ->
  _load' lang text num_examples = inr self ->
  (80 <= length (corpus_lines text num_examples))%nat ->
  (1 <= steps_per_epoch self)%nat
  /\ exists theta' log,
       train' self theta epochs k = (inr theta', log)
       /\ length log = Z.to_nat epochs
       /\ Forall (fun e => steps_run e = steps_per_epoch self) log.
Proof.
  intros HU Hperm Hshuffle H Hn.
  destruct (loaded_texts_preprocessed U permutation lang text num_examples
              self H) as (_ & targ_lang & _ & Hpt & _ & _ & _ & Ht).
  apply (tokenize_preprocessed U HU) in Ht as (start & Hstart & _);
    [|exact Hpt].
  destruct (_load_inv U permutation lang text num_examples self H)
    as (_ & _ & _ & _ & Hsrc & _ & Hsteps & _).
  set (n := length (corpus_lines text num_examples)) in *.
  destruct (split_indices (permutation n) n (Hperm n)) as (_ & _ & Hltr).
  assert (Hpos : (1 <= steps_per_epoch self)%nat).
  { rewrite Hsteps, Hltr. apply n_train_large in Hn. unfold BATCH_SIZE.
    pose proof (Nat.div_mod_eq (n_train n) 64).
    pose proof (Nat.mod_upper_bound (n_train n) 64). lia. }
  split; [exact Hpos|].
  assert (Hlen : forall k',
             length (take (steps_per_epoch self) (dataset shuffle self k'))
             = steps_per_epoch self).
  { intros k'. rewrite length_take. unfold dataset. rewrite length_map.
    destruct (batch_spec BATCH_SIZE (shuffle k' (dataset_source self)))
      as [-> _]; [unfold BATCH_SIZE; lia|].
    rewrite (Permutation_length (Hshuffle k' _)), Hsrc, length_map, Hsteps.
    lia. }
  unfold train.
  destruct (train_loop_returns self theta (seq 0 (Z.to_nat epochs)) k start
              Hstart ltac:(lia) Hlen) as (theta' & log & E & Hl & Hall).
  exists theta', log. rewrite length_seq in Hl. now split.
Qed.

Lemma run_batches_error self theta h batches total steps e :
  fst (fst (run_batches' self theta h batches total steps)) = inl e ->
  e = KeyError_str START.
Proof.
  revert theta total steps.
  induction batches as [|[inp targ] rest IH]; intros theta total steps; simpl.
  - discriminate.
  - destruct (train_step' self theta inp targ h) as [e'|[[[theta' bl] i] f]] eqn:E.
    + simpl. intros [= <-]. now apply train_step_error in E.
    + apply IH.
Qed.

(** The exceptions [train] can raise. *)
Lemma train_loop_errors self theta epochs k e :
  fst (train_loop' self theta epochs k) = inl e ->
  e = KeyError_str START \/ e = ZeroDivisionError.
Proof.
  revert theta k. induction epochs as [|epoch rest IH]; intros theta k; simpl.
  - discriminate.
  - pose proof (run_batches_error self theta initialize_hidden_state
                  (take (steps_per_epoch self) (dataset shuffle self k)) 0%R 0)
      as Hrun.
    destruct (run_batches' _ _ _ _ _ _) as [[[e'|theta1] total] steps].
    + simpl. intros [= <-]. left. now apply Hrun.
    + destruct (steps_per_epoch self =? 0)%nat.
      * simpl. intros [= <-]. now right.
      * specialize (IH theta1 (S k)).
        destruct (train_loop' self theta1 rest (S k)) as [o l]. exact IH.
Qed.

(** X22.  The service loop goes on as long as [train] returns and the
    reload request gets a response: after [n] rounds without an
    exception it has called [train] [n] times; an exception ends it
    during the call of [train] that raises (a [KeyError] of the start
    marker or a [ZeroDivisionError]) or at the first reload request
    without a response, and every request before has got one. *)
Theorem service_loop_stops
    (n : nat) (self : TranslatorModel) theta (epochs : Z) (round k : nat) :
  let '(outcome, calls) := service_loop' n self theta epochs round k in
  (length calls <= n)%nat
  /\ (forall i, (S i < length calls)%nat ->
                reload_responds (round + i) = true)
  /\ match outcome with
     | inr _ =>
         length calls = n
         /\ forall i, (i < n)%nat -> reload_responds (round + i) = true
     | inl ConnectionError =>
         calls <> []
         /\ reload_responds (round + (length calls - 1)) = false
     | inl e =>
         calls <> [] /\ (e = KeyError_str START \/ e = ZeroDivisionError)
     end.
Proof.
  revert theta round k. induction n as [|n IH]; intros theta round k; simpl.
  - split; [lia|]. split; [intros i Hi; simpl in Hi; lia|].
    split; [reflexivity|intros i Hi; lia].
  - pose proof (train_loop_errors self theta (seq 0 (Z.to_nat epochs)) k)
      as Herr.
    fold (train' self theta epochs k) in Herr.
    destruct (train' self theta epochs k) as [[e|theta1] log]; simpl in Herr.
    + simpl. split; [lia|]. split; [intros i Hi; lia|].
      destruct (Herr e eq_refl) as [-> | ->]; (split; [discriminate|tauto]).
    + destruct (reload_responds round) eqn:Hr.
      * specialize (IH theta1 (S round) (k + Z.to_nat epochs)%nat).
        destruct (service_loop' n self theta1 epochs (S round) _)
          as [o calls].
        destruct IH as (Hle & Hbefore & Hout). simpl.
        split; [lia|]. split.
        -- intros [|i] Hi; [now rewrite Nat.add_0_r|].
           replace (round + S i)%nat with (S round + i)%nat by lia.
           apply Hbefore. lia.
        -- destruct o as [e|theta2].
           ++ assert (Hcalls : calls <> [] ->
                       (round + (length calls - 0) = S round + (length calls - 1))%nat).
              { intros Hne. destruct calls; [congruence|]. simpl. lia. }
              destruct e; try (destruct Hout as [Hne Hrest];
                               split; [discriminate|exact Hrest]).
              destruct Hout as [Hne Hrest]. split; [discriminate|].
              rewrite (Hcalls Hne). exact Hrest.
           ++ destruct Hout as [Hlen Hall]. split; [lia|].
              intros [|i] Hi; [now rewrite Nat.add_0_r|].
              replace (round + S i)%nat with (S round + i)%nat by lia.
              apply Hall. lia.
      * simpl. split; [lia|]. split; [intros i Hi; lia|].
        split; [discriminate|]. now rewrite Nat.add_0_r.
Qed.

End TrainLoaded.

Lemma train_on_small_corpus_raises_witness :
  exists self,
    _load basic_latin (seq 0) (of_string "eng-fra") Demo.corpus (Some NUM_EXAMPLES)
    = inr self
    /\ steps_per_epoch self = 0%nat
    /\ train Demo.encoder Demo.decoder (fun theta _ => theta) (fun _ l => l)
         self tt 10 0
       = (inl ZeroDivisionError, [empty_epoch]).
Proof.
  destruct (_load basic_latin (seq 0) (of_string "eng-fra") Demo.corpus
              (Some NUM_EXAMPLES)) as [e|self] eqn:E;
    [vm_compute in E; discriminate E|].
  exists self. split; [reflexivity|].
  apply (train_on_small_corpus_raises basic_latin Demo.encoder Demo.decoder
           (fun theta _ => theta) (seq 0) (fun _ l => l)
           (of_string "eng-fra") Demo.corpus (Some NUM_EXAMPLES) self tt 10 0 E).
  - apply Nat.ltb_lt. vm_compute. reflexivity.
  - lia.
Defined.

Lemma train_on_loaded_corpus_returns_witness :
  exists self,
    _load basic_latin (seq 0) (of_string "eng-fra") Demo.long_corpus
      (Some NUM_EXAMPLES) = inr self
    /\ (1 <= steps_per_epoch self)%nat
    /\ exists theta' log,
         train Demo.encoder Demo.decoder (fun theta _ => theta) (fun _ l => l)
           self tt 2 0 = (inr theta', log)
         /\ length log = Z.to_nat 2
         /\ Forall (fun e => steps_run e = steps_per_epoch self) log.
Proof.
  destruct (_load basic_latin (seq 0) (of_string "eng-fra") Demo.long_corpus
              (Some NUM_EXAMPLES)) as [e|self] eqn:E;
    [vm_compute in E; discriminate E|].
  exists self. split; [reflexivity|].
  apply (train_on_loaded_corpus_returns basic_latin Demo.encoder Demo.decoder
           (fun theta _ => theta) (seq 0) (fun _ l => l)
           (of_string "eng-fra") Demo.long_corpus (Some NUM_EXAMPLES) self tt 2 0
           basic_latin_respects
           (fun n => Permutation_refl _) (fun _ l => Permutation_refl l) E).
  apply Nat.leb_le. vm_compute. reflexivity.
Defined.

(* ===================================================================== *)
(** * Further properties: the exceptions of a translation                 *)
(* ===================================================================== *)

Section TranslateFacts.

Context (U : UnicodeData) {Params : Type}.
Context (encoder :
  Params -> list (list Z) -> list vec -> list (list vec) * list vec).
Context (decoder :
  Params -> list (list Z) -> list vec -> list (list vec)
  -> list vec * list vec * list (list vec)).

Local Abbreviation evaluate' := (evaluate U encoder decoder).
Local Abbreviation translate' := (translate U encoder decoder).

Lemma try_map_lookup_error (m : gmap pystr Z) (l : list pystr) e :
  try_map (fun i => match m !! i with
                    | Some id => ret id
                    | None => raise (KeyError_str i)
                    end) l = inl e ->
  exists w, e = KeyError_str w /\ w ∈ l /\ m !! w = None.
Proof.
  induction l as [|x l IH]; simpl; [discriminate|].
  destruct (m !! x) as [id|] eqn:Hx; simpl.
  - destruct (try_map _ l) as [e'|bs]; simpl; [|discriminate].
    intros [= <-]. destruct (IH eq_refl) as (w & -> & Hw & Hn).
    exists w. split; [reflexivity|]. split; [now apply list_elem_of_further|exact Hn].
  - intros [= <-]. exists x. split; [reflexivity|].
    split; [apply list_elem_of_here|exact Hx].
Qed.

Lemma pad_row_error maxlen s e :
  pad_row maxlen s = inl e -> e = ValueError /\ maxlen = 0%nat.
Proof.
  unfold pad_row, last_n.
  destruct (maxlen =? 0)%nat eqn:E0.
  - apply Nat.eqb_eq in E0.
    destruct (length s <=? maxlen)%nat; [discriminate|]. now intros [= <-].
  - destruct (length (drop (length s - maxlen) s) <=? maxlen)%nat eqn:E1;
      [discriminate|].
    apply Nat.leb_gt in E1. rewrite length_drop in E1. lia.
Qed.

Lemma decode_loop_error self theta enc_out n dec_input dec_hidden translation e :
  fst (decode_loop decoder self theta enc_out n dec_input dec_hidden translation)
  = inl e ->
  exists st,
    e = KeyError_int (predicted st)
    /\ last (snd (decode_loop decoder self theta enc_out n dec_input dec_hidden
                    translation)) = Some st
    /\ index_word (targ_lang_tokenizer self) !! predicted st = None.
Proof.
  revert dec_input dec_hidden translation.
  induction n as [|n IH]; intros dec_input dec_hidden translation; simpl.
  - discriminate.
  - destruct (decoder theta [[dec_input]] dec_hidden enc_out) as [[p h] a].
    destruct (index_word _ !! argmax (hd [] p)) as [w|] eqn:Hw.
    + destruct (decide (w = END)); simpl; [discriminate|].
      specialize (IH (argmax (hd [] p)) h (translation ++ w ++ [SPACE])).
      destruct (decode_loop _ _ _ _ _ _ _ _) as [o l]. simpl in *.
      intros Ho. destruct (IH Ho) as (st & -> & Hlast & Hst).
      exists st. split; [reflexivity|]. split; [|exact Hst].
      destruct l as [|y l]; [discriminate Hlast|exact Hlast].
    + simpl. intros [= <-].
      exists {| fed := dec_input; predicted := argmax (hd [] p) |}.
      split; [reflexivity|]. split; [reflexivity|exact Hw].
Qed.

(** The exceptions of [evaluate]. *)
Lemma evaluate_errors
    (self : TranslatorModel) (theta : Params) (sentence : pystr) (e : exn) :
  fst (evaluate' self theta sentence) = inl e ->
  let tokens := split_on SPACE (preprocess_sentence U sentence) in
  let log := snd (evaluate' self theta sentence) in
  (exists w, e = KeyError_str w /\ w ∈ tokens
             /\ word_index (inp_lang_tokenizer self) !! w = None
             /\ log = [])
  \/ (e = ValueError /\ max_length_inp self = 0%nat /\ log = [])
  \/ (e = KeyError_str START
      /\ word_index (targ_lang_tokenizer self) !! START = None
      /\ log = [])
  \/ (exists st, e = KeyError_int (predicted st) /\ last log = Some st
                 /\ index_word (targ_lang_tokenizer self) !! predicted st
                    = None).
Proof.
  intros He tokens log. unfold log. clear log.
  unfold evaluate in *. fold tokens in He |- *.
  destruct (try_map _ tokens) as [e1|inputs] eqn:Hmap; simpl in He |- *.
  - injection He as <-. left.
    destruct (try_map_lookup_error _ _ _ Hmap) as (w & -> & Hw & Hn).
    exists w. now repeat split.
  - destruct (pad_row (max_length_inp self) inputs) as [e2|row] eqn:Hpad;
      simpl in He |- *.
    + injection He as <-. right. left.
      destruct (pad_row_error _ _ _ Hpad) as [-> Hm]. now repeat split.
    + destruct (encoder theta [row] _) as [enc_out enc_hidden].
      destruct (word_index (targ_lang_tokenizer self) !! START) as [start|]
        eqn:Hstart; simpl in He |- *.
      * pose proof (decode_loop_error self theta enc_out (max_length_targ self)
                      start enc_hidden [] e) as Hloop.
        destruct (decode_loop _ _ _ _ _ _ _ _) as [[e3|out] l]; simpl in *;
          [|discriminate He].
        injection He as <-. right. right. right. now apply Hloop.
      * injection He as <-. right. right. left. now repeat split.
Qed.

(** X23.  [translate] raises exactly when [evaluate] does, and the same
    exception; it returns exactly when [evaluate] does, and the
    translation [evaluate] returns.  Its exceptions are four: the
    [KeyError] of a token of the preprocessed sentence that the input
    vocabulary lacks; a [ValueError] of the padding, only with an input
    width of 0; the [KeyError] of the start marker, only where the
    target vocabulary lacks it; each of these before any decoder call;
    and the [KeyError] of the id chosen at the last decoder call, when
    that id has no word. *)
Theorem translate_errors
    (self : TranslatorModel) (theta : Params) (sentence : pystr) :
  (forall e, translate' self theta sentence = inl e
             <-> fst (evaluate' self theta sentence) = inl e)
  /\ (forall translation,
        translate' self theta sentence = inr translation
        <-> exists s,
              fst (evaluate' self theta sentence) = inr (translation, s))
  /\ forall e,
       translate' self theta sentence = inl e ->
       let tokens := split_on SPACE (preprocess_sentence U sentence) in
       let log := snd (evaluate' self theta sentence) in
       (exists w, e = KeyError_str w /\ w ∈ tokens
                  /\ word_index (inp_lang_tokenizer self) !! w = None
                  /\ log = [])
       \/ (e = ValueError /\ max_length_inp self = 0%nat /\ log = [])
       \/ (e = KeyError_str START
           /\ word_index (targ_lang_tokenizer self) !! START = None
           /\ log = [])
       \/ (exists st, e = KeyError_int (predicted st) /\ last log = Some st
                      /\ index_word (targ_lang_tokenizer self) !! predicted st
                         = None).
Proof.
  assert (Herr : forall e, translate' self theta sentence = inl e
                           <-> fst (evaluate' self theta sentence) = inl e).
  { intros e. unfold translate.
    destruct (fst (evaluate' self theta sentence)) as [e'|[t s]]; simpl.
    - split; intros [= ->]; reflexivity.
    - split; discriminate. }
  split; [exact Herr|]. split.
  - intros translation. unfold translate.
    destruct (fst (evaluate' self theta sentence)) as [e'|[t s]]; simpl.
    + split; [discriminate|]. intros [s H]. discriminate H.
    + split.
      * intros [= ->]. now exists s.
      * intros [s' [= -> _]]. reflexivity.
  - intros e H. apply evaluate_errors. now apply Herr.
Qed.

End TranslateFacts.

Lemma translate_errors_witness :
  (exists w, KeyError_str (of_string "stop") = KeyError_str w
             /\ w ∈ split_on SPACE
                      (preprocess_sentence basic_latin (of_string "Stop."))
             /\ word_index (inp_lang_tokenizer Demo.model) !! w = None
             /\ snd (evaluate basic_latin Demo.encoder Demo.decoder
                       Demo.model tt (of_string "Stop.")) = [])
  \/ (KeyError_str (of_string "stop") = ValueError
      /\ max_length_inp Demo.model = 0%nat
      /\ snd (evaluate basic_latin Demo.encoder Demo.decoder
                Demo.model tt (of_string "Stop.")) = [])
  \/ (KeyError_str (of_string "stop") = KeyError_str START
      /\ word_index (targ_lang_tokenizer Demo.model) !! START = None
      /\ snd (evaluate basic_latin Demo.encoder Demo.decoder
                Demo.model tt (of_string "Stop.")) = [])
  \/ (exists st,
         KeyError_str (of_string "stop") = KeyError_int (predicted st)
         /\ last (snd (evaluate basic_latin Demo.encoder Demo.decoder
                         Demo.model tt (of_string "Stop."))) = Some st
         /\ index_word (targ_lang_tokenizer Demo.model) !! predicted st
            = None).
Proof.
  apply (translate_errors basic_latin Demo.encoder Demo.decoder Demo.model tt
           (of_string "Stop.")).
  vm_compute. reflexivity.
Defined.

(* ===================================================================== *)
(** * Further properties: the name of the corpus file                     *)
(* ===================================================================== *)

Section CorpusFile.

Lemma startswith_eng (a b : pystr) :
  Forall (fun c => c <> HYPHEN) a ->
  startswith (of_string "eng-") (a ++ HYPHEN :: b) = true <-> a = of_string "eng".
Proof.
  change (of_string "eng-") with [101; 110; 103; 45]%N.
  change (of_string "eng") with [101; 110; 103]%N.
  unfold HYPHEN. intros Ha. split.
  - destruct a as [|c1 [|c2 [|c3 [|c4 a]]]]; cbn [startswith app]; intros H;
      repeat (apply andb_true_iff in H as [?%N.eqb_eq H]); subst;
      try discriminate; try reflexivity.
    exfalso. apply Forall_cons in Ha as [_ Ha]. apply Forall_cons in Ha as [_ Ha].
    apply Forall_cons in Ha as [_ Ha]. apply Forall_cons in Ha as [Ha _].
    now apply Ha.
  - intros ->. reflexivity.
Qed.

(** X24.  The corpus file is named after the language that is not
    English.  A name of a language pair without exactly one hyphen is a
    [ValueError]; for the name [eng-X] the file is that of [X]; for
    every other name [X-Y] it is that of [X], and [Y] plays no part. *)
Theorem corpus_language_spec (lang : pystr) :
  match corpus_language lang with
  | inl e => e = ValueError /\ length (split_on HYPHEN lang) <> 2%nat
  | inr lang1 =>
      Forall (fun c => c <> HYPHEN) lang1
      /\ (lang = of_string "eng-" ++ lang1
          \/ exists lang2,
               lang = lang1 ++ HYPHEN :: lang2
               /\ lang1 <> of_string "eng"
               /\ Forall (fun c => c <> HYPHEN) lang2)
  end.
Proof.
  pose proof (corpus_language_succeeds lang) as Hname.
  unfold corpus_language in *.
  destruct (split_on HYPHEN lang) as [|a [|b [|c r]]] eqn:E; try exact Hname.
  apply split_on_two in E as (-> & Ha & Hb).
  destruct (startswith (of_string "eng-") (a ++ HYPHEN :: b)) eqn:Hs.
  - apply startswith_eng in Hs as ->; [|exact Ha].
    split; [exact Hb|]. now left.
  - split; [exact Ha|]. right. exists b. split; [reflexivity|].
    split; [|exact Hb]. intros ->.
    rewrite (proj2 (startswith_eng (of_string "eng") b Ha) eq_refl) in Hs.
    discriminate Hs.
Qed.

End CorpusFile.
